(** * ucompiler: Python AST to Pycopy VM bytecode compiler

    A shallow embedding of [ucompiler/ucompiler.py] (class [Compiler] and
    [compile_ast]) together with the properties its specification states
    about it.

    The compiler is a tree walk over the AST that drives an assembler
    object ([ubytecode.Bytecode]) and consults a per-scope symbol table
    ([usymtable]).  The walk is embedded as structurally recursive
    functions in a state-and-error monad: the state is the pair of the
    loop-context stack and the active assembler, Python exceptions
    (failed [assert], [KeyError], [IndexError], ...) are the error
    results. *)

From Stdlib Require Import ZArith List Ascii String Bool Lia.
From Stdlib.Strings Require Import Byte.
Import ListNotations.
Local Open Scope string_scope.
Local Open Scope Z_scope.
Local Open Scope list_scope.

Set Implicit Arguments.
Set Warnings "-register-all,-automation,-notation-for-abbreviation".

(* ================================================================== *)
(** ** Exceptions and results *)

Inductive exn : Type :=
| AssertionError | KeyError | IndexError | AttributeError | TypeError.

Inductive res (A : Type) : Type :=
| OK (a : A)
| Err (e : exn).
Arguments Err {A} e.

Definition is_err {A : Type} (r : res A) : Prop := exists e, r = Err e.

(* ================================================================== *)
(** ** The abstract syntax tree ([ast])

    Modelled from the spec: the [ast] package is not among the sources.
    The node repertoire is the one of section 6, which is also the set of
    node classes the compiler has a [visit_*] method for, plus [Attribute];
    every node carries the fields the compiler reads ([node.ctx],
    [node.targets], ...).  A function definition also carries its
    decorators and its return annotation, and a parameter its annotation:
    they are outside the subset (section 1), and the compiler reads none
    of them. *)

Module ast.

Inductive expr_context : Type := Load | Store | StoreConst | Del.

Inductive operator : Type :=
| Add | Sub | Mult | MatMult | Div | FloorDiv | Mod | Pow
| LShift | RShift | BitAnd | BitOr | BitXor.

Inductive unaryop : Type := UAdd | USub | Invert | Not.

Inductive cmpop : Type :=
| Eq | NotEq | Lt | LtE | Gt | GtE | Is | IsNot | In | NotIn.

Inductive boolop : Type := And | Or.

(** The value [n] of a [Num] node: a Python [int], [float] or
    [complex].  The compiler only tests [isinstance(node.n, int)], so
    the non-integer values are kept as their IEEE-754 bit patterns. *)
Inductive num : Type :=
| PyInt (n : Z)
| PyFloat (bits : Z)
| PyComplex (re_bits im_bits : Z).

Inductive expr : Type :=
| Name (id : string) (ctx : expr_context)
| Num (n : num)
| Str (s : string)
| Bytes (s : list byte)
| Tuple (elts : list expr) (ctx : expr_context)
| List (elts : list expr) (ctx : expr_context)
| Set_ (elts : list expr)
| Dict (keys : list expr) (values : list expr)
| Call (func : expr) (args : list expr) (keywords : list (option string * expr))
| BinOp (left : expr) (op : operator) (right : expr)
| UnaryOp (op : unaryop) (operand : expr)
| BoolOp (op : boolop) (values : list expr)
| Compare (left : expr) (ops : list cmpop) (comparators : list expr)
| Attribute (value : expr) (attr : string) (ctx : expr_context).

Record alias : Type := mk_alias { name : string; asname : option string }.

Record arg_node : Type := mk_arg { arg : string; annotation : option expr }.

Record arguments : Type := mk_arguments {
  args : list arg_node;
  vararg : option arg_node;
  kwonlyargs : list arg_node;
  kw_defaults : list (option expr);
  kwarg : option arg_node;
  defaults : list expr
}.

Inductive stmt : Type :=
| FunctionDef (fname : string) (fargs : arguments) (body : list stmt)
              (decorator_list : list expr) (returns : option expr)
| Return (value : option expr)
| Assign (targets : list expr) (value : expr)
| AugAssign (target : expr) (op : operator) (value : expr)
| For (target : expr) (iter : expr) (body : list stmt) (orelse : list stmt)
| While (test : expr) (body : list stmt) (orelse : list stmt)
| If (test : expr) (body : list stmt) (orelse : list stmt)
| Import (names : list alias)
| ImportFrom (module : option string) (names : list alias) (level : Z)
| Expr (value : expr)
| Pass
| Break
| Continue.

Inductive mod_node : Type := Module (body : list stmt).

(** [node.ctx]: only some node classes have the attribute. *)
Definition get_ctx (node : expr) : option expr_context :=
  match node with
  | Name _ c | Tuple _ c | List _ c | Attribute _ _ c => Some c
  | _ => None
  end.

(** [node.ctx = c] on a node that has the attribute. *)
Definition set_ctx (node : expr) (c : expr_context) : expr :=
  match node with
  | Name i _ => Name i c
  | Tuple l _ => Tuple l c
  | List l _ => List l c
  | Attribute v a _ => Attribute v a c
  | other => other
  end.

(** [isinstance(s, ast.Return)] for the value [_visit_suite] returns
    ([None] when the suite is empty). *)
Definition is_Return (s : option stmt) : bool :=
  match s with
  | Some (Return _) => true
  | _ => false
  end.

End ast.

(** Structural induction on the nested trees: the induction hypothesis
    is available for every node of a child list. *)
Section ExprInduction.

Variable P : ast.expr -> Prop.
Hypothesis H_Name : forall id ctx, P (ast.Name id ctx).
Hypothesis H_Num : forall n, P (ast.Num n).
Hypothesis H_Str : forall s, P (ast.Str s).
Hypothesis H_Bytes : forall s, P (ast.Bytes s).
Hypothesis H_Tuple : forall elts ctx, Forall P elts -> P (ast.Tuple elts ctx).
Hypothesis H_List : forall elts ctx, Forall P elts -> P (ast.List elts ctx).
Hypothesis H_Set : forall elts, Forall P elts -> P (ast.Set_ elts).
Hypothesis H_Dict :
  forall keys values, Forall P keys -> Forall P values -> P (ast.Dict keys values).
Hypothesis H_Call :
  forall func args keywords,
    P func -> Forall P args -> P (ast.Call func args keywords).
Hypothesis H_BinOp : forall l op r, P l -> P r -> P (ast.BinOp l op r).
Hypothesis H_UnaryOp : forall op e, P e -> P (ast.UnaryOp op e).
Hypothesis H_BoolOp : forall op values, Forall P values -> P (ast.BoolOp op values).
Hypothesis H_Compare :
  forall l ops comparators,
    P l -> Forall P comparators -> P (ast.Compare l ops comparators).
Hypothesis H_Attribute : forall v attr ctx, P v -> P (ast.Attribute v attr ctx).

Fixpoint expr_induction (e : ast.expr) : P e :=
  let all :=
    fix all (l : list ast.expr) : Forall P l :=
      match l with
      | [] => Forall_nil P
      | x :: r => Forall_cons x (expr_induction x) (all r)
      end in
  match e with
  | ast.Name id ctx => H_Name id ctx
  | ast.Num n => H_Num n
  | ast.Str s => H_Str s
  | ast.Bytes s => H_Bytes s
  | ast.Tuple elts ctx => H_Tuple ctx (all elts)
  | ast.List elts ctx => H_List ctx (all elts)
  | ast.Set_ elts => H_Set (all elts)
  | ast.Dict keys values => H_Dict (all keys) (all values)
  | ast.Call func args keywords =>
      H_Call keywords (expr_induction func) (all args)
  | ast.BinOp l op r => H_BinOp op (expr_induction l) (expr_induction r)
  | ast.UnaryOp op e1 => H_UnaryOp op (expr_induction e1)
  | ast.BoolOp op values => H_BoolOp op (all values)
  | ast.Compare l ops comparators =>
      H_Compare ops (expr_induction l) (all comparators)
  | ast.Attribute v attr ctx => H_Attribute attr ctx (expr_induction v)
  end.

End ExprInduction.

Section StmtInduction.

Variable P : ast.stmt -> Prop.
Hypothesis H_FunctionDef :
  forall name args body decorators returns,
    Forall P body -> P (ast.FunctionDef name args body decorators returns).
Hypothesis H_Return : forall value, P (ast.Return value).
Hypothesis H_Assign : forall targets value, P (ast.Assign targets value).
Hypothesis H_AugAssign : forall target op value, P (ast.AugAssign target op value).
Hypothesis H_For :
  forall target iter body orelse,
    Forall P body -> Forall P orelse -> P (ast.For target iter body orelse).
Hypothesis H_While :
  forall test body orelse,
    Forall P body -> Forall P orelse -> P (ast.While test body orelse).
Hypothesis H_If :
  forall test body orelse,
    Forall P body -> Forall P orelse -> P (ast.If test body orelse).
Hypothesis H_Import : forall names, P (ast.Import names).
Hypothesis H_ImportFrom :
  forall module names level, P (ast.ImportFrom module names level).
Hypothesis H_Expr : forall value, P (ast.Expr value).
Hypothesis H_Pass : P ast.Pass.
Hypothesis H_Break : P ast.Break.
Hypothesis H_Continue : P ast.Continue.

Fixpoint stmt_induction (s : ast.stmt) : P s :=
  let all :=
    fix all (l : list ast.stmt) : Forall P l :=
      match l with
      | [] => Forall_nil P
      | x :: r => Forall_cons x (stmt_induction x) (all r)
      end in
  match s with
  | ast.FunctionDef name args body decorators returns =>
      H_FunctionDef name args decorators returns (all body)
  | ast.Return value => H_Return value
  | ast.Assign targets value => H_Assign targets value
  | ast.AugAssign target op value => H_AugAssign target op value
  | ast.For target iter body orelse =>
      H_For target iter (all body) (all orelse)
  | ast.While test body orelse => H_While test (all body) (all orelse)
  | ast.If test body orelse => H_If test (all body) (all orelse)
  | ast.Import names => H_Import names
  | ast.ImportFrom module names level => H_ImportFrom module names level
  | ast.Expr value => H_Expr value
  | ast.Pass => H_Pass
  | ast.Break => H_Break
  | ast.Continue => H_Continue
  end.

End StmtInduction.

(** The keys of [symtab_map]: the scope-defining nodes. *)
Inductive scope_node : Type :=
| ModuleScope (m : ast.mod_node)
| FunctionScope (f : ast.stmt).

(* ================================================================== *)
(** ** The opcode namespace ([opc = get_opcode_ns()])

    The opcodes are the attributes of [opc] the compiler refers to.
    Modelled from the spec: [LOAD_CONST_SMALL_INT] stands for the
    inline-immediate opcode [load_int] emits, which the compiler never
    names. *)

Inductive opcode : Type :=
| LOAD_CONST_NONE | LOAD_CONST_SMALL_INT | LOAD_CONST_STRING | LOAD_CONST_OBJ
| LOAD_NAME | LOAD_GLOBAL | LOAD_FAST_N | LOAD_DEREF | LOAD_ATTR
| STORE_NAME | STORE_GLOBAL | STORE_FAST_N | STORE_DEREF
| STORE_NAME_CONST | STORE_GLOBAL_CONST | STORE_MAP
| DUP_TOP | POP_TOP | RETURN_VALUE | MAKE_FUNCTION | CALL_FUNCTION
| GET_ITER_STACK | FOR_ITER | JUMP | POP_JUMP_IF_TRUE | POP_JUMP_IF_FALSE
| JUMP_IF_TRUE_OR_POP | JUMP_IF_FALSE_OR_POP
| BUILD_TUPLE | BUILD_LIST | BUILD_SET | BUILD_MAP
| IMPORT_NAME | IMPORT_FROM | IMPORT_STAR
| UNARY_POSITIVE | UNARY_NEGATIVE | UNARY_INVERT | UNARY_NOT
| BINARY_EQUAL | BINARY_NOT_EQUAL | BINARY_LESS | BINARY_LESS_EQUAL
| BINARY_MORE | BINARY_MORE_EQUAL | BINARY_IS | BINARY_IN
| BINARY_ADD | BINARY_SUBTRACT | BINARY_MULTIPLY | BINARY_MAT_MULTIPLY
| BINARY_TRUE_DIVIDE | BINARY_FLOOR_DIVIDE | BINARY_MODULO | BINARY_POWER
| BINARY_LSHIFT | BINARY_RSHIFT | BINARY_AND | BINARY_OR | BINARY_XOR
| INPLACE_ADD | INPLACE_SUBTRACT | INPLACE_MULTIPLY | INPLACE_MAT_MULTIPLY
| INPLACE_TRUE_DIVIDE | INPLACE_FLOOR_DIVIDE | INPLACE_MODULO | INPLACE_POWER
| INPLACE_LSHIFT | INPLACE_RSHIFT | INPLACE_AND | INPLACE_OR | INPLACE_XOR.

(* ================================================================== *)
(** ** Code objects and the assembler ([ubytecode])

    [ubytecode.py] is not among the sources at hand; the assembler is
    modelled from its description in the specification (section 4.1 and
    the data model of section 3). *)

(** Modelled from the spec: an operand as it sits in the instruction
    stream, a small integer, a string atom, or an index into the constant
    pool (section 4.1). *)
Inductive operand : Type :=
| OInt (n : Z)
| OAtom (s : string)
| OPool (idx : nat).

(** Modelled from the spec: a branch target, inlined when the label was
    bound at emission, otherwise the label id, awaiting its fixup. *)
Inductive branch_target : Type :=
| Bound (offset : nat)
| Pending (label : nat).

(** Modelled from the spec: one instruction of the buffer, an opcode with
    its operands or a branch.  The byte encoding is left out. *)
Inductive instr : Type :=
| Ins (op : opcode) (operands : list operand)
| Jmp (op : opcode) (dest : branch_target).

(** Modelled from the spec: the Python values handed to the assembler as
    arguments and kept in the constant pool, and the code object of
    section 3 with the attributes the compiler assigns; a code object holds
    its pool, hence the nesting. *)
Inductive const : Type :=
| CInt (n : Z)
| CStr (s : string)
| CBytes (b : list byte)
| CCode (co : codeobj)
with codeobj : Type :=
| mk_codeobj (co_name : string) (co_filename : string) (co_argcount : nat)
             (co_code : list instr) (co_consts : list const) (mpy_stacksize : Z).

(** The attributes of a code object. *)
Definition co_name (co : codeobj) : string :=
  let 'mk_codeobj n _ _ _ _ _ := co in n.
Definition co_filename (co : codeobj) : string :=
  let 'mk_codeobj _ f _ _ _ _ := co in f.
Definition co_argcount (co : codeobj) : nat :=
  let 'mk_codeobj _ _ a _ _ _ := co in a.
Definition co_code (co : codeobj) : list instr :=
  let 'mk_codeobj _ _ _ c _ _ := co in c.
Definition co_consts (co : codeobj) : list const :=
  let 'mk_codeobj _ _ _ _ k _ := co in k.
Definition mpy_stacksize (co : codeobj) : Z :=
  let 'mk_codeobj _ _ _ _ _ s := co in s.

(** Modelled from the spec: equality of pool entries, structural on
    integers, strings and byte strings; a code object is a fresh object and
    equals no other entry. *)
Definition const_eqb (a b : const) : bool :=
  match a, b with
  | CInt x, CInt y => Z.eqb x y
  | CStr x, CStr y => String.eqb x y
  | CBytes x, CBytes y =>
      if list_eq_dec Byte.byte_eq_dec x y then true else false
  | _, _ => false
  end.

(** Modelled from the spec: the transient bytecode builder of section 3
    ([buffer], [stk_ptr], [stk_max], [labels], [fixups], [const_table]). *)
Record Bytecode : Type := mk_Bytecode {
  buf : list instr;
  const_table : list const;
  labels : list (option nat);
  fixups : list (nat * nat * opcode);
  stk_ptr : Z;
  stk_max : Z
}.

(** Modelled from the spec: [Bytecode()], an empty builder. *)
Definition Bytecode_new : Bytecode :=
  {| buf := []; const_table := []; labels := []; fixups := [];
     stk_ptr := 0; stk_max := 0 |}.

(** Modelled from the spec: the position of the first pool entry equal to
    [c], if any. *)
Fixpoint pool_index (c : const) (pool : list const) : option nat :=
  match pool with
  | [] => None
  | x :: r =>
      if const_eqb x c then Some O
      else match pool_index c r with
           | Some i => Some (S i)
           | None => None
           end
  end.

(** Modelled from the spec: the pool insertion that an operand of [add]
    triggers (section 4.1), with interning: first-insertion order is
    kept, an entry equal to one the pool holds gets the index of that
    one. *)
Definition intern_const (c : const) (b : Bytecode) : nat * Bytecode :=
  match pool_index c (const_table b) with
  | Some i => (i, b)
  | None =>
      (List.length (const_table b),
       {| buf := buf b; const_table := const_table b ++ [c];
          labels := labels b; fixups := fixups b;
          stk_ptr := stk_ptr b; stk_max := stk_max b |})
  end.

(** Modelled from the spec: [Bytecode.intern_const(c)], the call by which
    [_visit_function] pre-inserts the parameter names (section 5).  The
    entry is appended and its index returned, also when the pool holds an
    equal entry: the names are there for the VM to bind calls by keyword
    (the comment at the call site), so the i-th name has to sit at
    index i. *)
Definition Bytecode_add_const (c : const) (b : Bytecode) : nat * Bytecode :=
  (List.length (const_table b),
   {| buf := buf b; const_table := const_table b ++ [c];
      labels := labels b; fixups := fixups b;
      stk_ptr := stk_ptr b; stk_max := stk_max b |}).

(** Modelled from the spec: the opcodes whose operand refers to a pool
    entry. *)
Definition pool_operand (op : opcode) : bool :=
  match op with
  | LOAD_CONST_OBJ | MAKE_FUNCTION => true
  | _ => false
  end.

(** Modelled from the spec: an argument emitted in line, a small integer
    or a string atom. *)
Definition inline_operand (a : const) : res operand :=
  match a with
  | CInt n => OK (OInt n)
  | CStr s => OK (OAtom s)
  | _ => Err TypeError
  end.

(** Modelled from the spec: the arguments of one instruction, in line. *)
Fixpoint inline_operands (l : list const) : res (list operand) :=
  match l with
  | [] => OK []
  | a :: r =>
      match inline_operand a with
      | Err e => Err e
      | OK o =>
          match inline_operands r with
          | Err e => Err e
          | OK os => OK (o :: os)
          end
      end
  end.

(** Modelled from the spec: instruction [i] is appended, then
    [stk_ptr += delta; stk_max = max(stk_max, stk_ptr)]. *)
Definition emit (i : instr) (delta : Z) (b : Bytecode) : Bytecode :=
  {| buf := buf b ++ [i]; const_table := const_table b;
     labels := labels b; fixups := fixups b;
     stk_ptr := stk_ptr b + delta;
     stk_max := Z.max (stk_max b) (stk_ptr b + delta) |}.

Section Assembler.

(** The static stack effect of each opcode, fixed by the target VM and
    provided with the opcode namespace (section 6); a parameter here. *)
Variable stack_effect : opcode -> list const -> Z.

(** Modelled from the spec: [Bytecode.add(op, operand?)]. *)
Definition Bytecode_add (op : opcode) (args : list const) (b : Bytecode)
  : res Bytecode :=
  if pool_operand op then
    match args with
    | [c] =>
        let '(i, b1) := intern_const c b in
        OK (emit (Ins op [OPool i]) (stack_effect op args) b1)
    | _ => Err TypeError
    end
  else
    match inline_operands args with
    | Err e => Err e
    | OK os => OK (emit (Ins op os) (stack_effect op args) b)
    end.

(** Modelled from the spec: [Bytecode.load_int(n)], which selects the
    inline-immediate encoding for magnitudes below [2^30] and the
    constant pool otherwise. *)
Definition Bytecode_load_int (n : Z) (b : Bytecode) : res Bytecode :=
  if Z.abs n <? 2 ^ 30 then Bytecode_add LOAD_CONST_SMALL_INT [CInt n] b
  else Bytecode_add LOAD_CONST_OBJ [CInt n] b.

(** Modelled from the spec: [Bytecode.get_label()], a fresh unbound id. *)
Definition Bytecode_get_label (b : Bytecode) : nat * Bytecode :=
  (List.length (labels b),
   {| buf := buf b; const_table := const_table b;
      labels := labels b ++ [None]; fixups := fixups b;
      stk_ptr := stk_ptr b; stk_max := stk_max b |}).

(** [l[i] = x], where [i] is in range. *)
Fixpoint list_set {A : Type} (l : list A) (i : nat) (x : A) : list A :=
  match l, i with
  | [], _ => []
  | _ :: r, O => x :: r
  | y :: r, S j => y :: list_set r j x
  end.

(** Modelled from the spec: [Bytecode.put_label(id)] binds the label to
    the current instruction offset, at most once per id. *)
Definition Bytecode_put_label (l : nat) (b : Bytecode) : res Bytecode :=
  match nth_error (labels b) l with
  | None => Err KeyError
  | Some (Some _) => Err AssertionError
  | Some None =>
      OK {| buf := buf b; const_table := const_table b;
            labels := list_set (labels b) l (Some (List.length (buf b)));
            fixups := fixups b;
            stk_ptr := stk_ptr b; stk_max := stk_max b |}
  end.

(** Modelled from the spec: [Bytecode.jump(op, id)]: the target is
    inlined when bound, otherwise a fixup is recorded. *)
Definition Bytecode_jump (op : opcode) (l : nat) (b : Bytecode) : res Bytecode :=
  match nth_error (labels b) l with
  | None => Err KeyError
  | Some (Some off) => OK (emit (Jmp op (Bound off)) (stack_effect op []) b)
  | Some None =>
      let b1 := emit (Jmp op (Pending l)) (stack_effect op []) b in
      OK {| buf := buf b1; const_table := const_table b1;
            labels := labels b1;
            fixups := fixups b1 ++ [(List.length (buf b), l, op)];
            stk_ptr := stk_ptr b1; stk_max := stk_max b1 |}
  end.

(** Modelled from the spec: the rewriting of one fixup site with the
    offset its label is bound to. *)
Definition resolve_fixup (lbls : list (option nat)) (code : res (list instr))
           (f : nat * nat * opcode) : res (list instr) :=
  let '(site, l, op) := f in
  match code with
  | Err e => Err e
  | OK c =>
      match nth_error lbls l with
      | Some (Some off) => OK (list_set c site (Jmp op (Bound off)))
      | _ => Err AssertionError
      end
  end.

(** Modelled from the spec: [Bytecode.get_codeobj()]: fails when a label
    is still unbound, rewrites the fixup sites, and returns a code object
    with [instructions = buffer], the ordered pool and
    [stacksize = stk_max]. *)
Definition Bytecode_get_codeobj (b : Bytecode) : res codeobj :=
  if forallb (fun l => match l with Some _ => true | None => false end) (labels b)
  then
    match fold_left (resolve_fixup (labels b)) (fixups b) (OK (buf b)) with
    | Err e => Err e
    | OK code => OK (mk_codeobj "" "" O code (const_table b) (stk_max b))
    end
  else Err AssertionError.

End Assembler.

(* ================================================================== *)
(** ** Symbol tables ([usymtable])

    Consumed, not constructed, by the compiler. *)

(** Modelled from the spec: the scope categories [usymtable.SCOPE_*]; the
    order is the one of the opcode tuples [_visit_var] indexes with them. *)
Inductive scope : Type := SCOPE_NAME | SCOPE_GLOBAL | SCOPE_FAST | SCOPE_DEREF.

(** Modelled from the spec: the capability a symbol table offers
    ([get_scope], [get_fast_local], [all_locals], [finalize]). *)
Class SymbolTable (T : Type) : Type := {
  get_scope : T -> string -> res scope;
  get_fast_local : T -> string -> res Z;
  all_locals : T -> list string;
  finalize : T -> res T
}.

(* ================================================================== *)
(** ** The compiler state and its monad *)

(** [self.loop_stack] and [self.bc].  The list grows at its end, as the
    Python list does under [append] and [pop]. *)
Record Compiler : Type := mk_Compiler {
  loop_stack : list (nat * nat * string);
  bc : Bytecode
}.

Definition M (A : Type) : Type := Compiler -> res (A * Compiler).

Definition ret {A : Type} (a : A) : M A := fun c => OK (a, c).

Definition raise {A : Type} (e : exn) : M A := fun _ => Err e.

Definition bind {A B : Type} (m : M A) (f : A -> M B) : M B :=
  fun c =>
    match m c with
    | Err e => Err e
    | OK (a, c1) => f a c1
    end.

Declare Scope monad_scope.
Delimit Scope monad_scope with monad.
Notation "x <- m ;; k" := (bind m (fun x => k))
  (at level 61, m at next level, right associativity) : monad_scope.
Notation "m ;; k" := (bind m (fun _ => k))
  (at level 61, right associativity) : monad_scope.
Local Open Scope monad_scope.

(** [assert b] *)
Definition assert_ (b : bool) : M unit :=
  if b then ret tt else raise AssertionError.

(** The result of a symbol-table query, or of any call that may raise. *)
Definition lift_res {A : Type} (r : res A) : M A :=
  fun c => match r with OK a => OK (a, c) | Err e => Err e end.

(** A method call on [self.bc]. *)
Definition on_bc (f : Bytecode -> res Bytecode) : M unit :=
  fun c =>
    match f (bc c) with
    | Err e => Err e
    | OK b => OK (tt, {| loop_stack := loop_stack c; bc := b |})
    end.

(** [for x in l: f(x)] *)
Definition foreach {A : Type} (f : A -> M unit) : list A -> M unit :=
  fix go (l : list A) : M unit :=
    match l with
    | [] => ret tt
    | x :: r => f x ;; go r
    end.

(** [l[-1]] *)
Fixpoint py_last {A : Type} (l : list A) : res A :=
  match l with
  | [] => Err IndexError
  | [x] => OK x
  | _ :: r => py_last r
  end.

(** [l[0]] *)
Definition py_first {A : Type} (l : list A) : res A :=
  match l with
  | [] => Err IndexError
  | x :: _ => OK x
  end.

(** [len(l)] *)
Definition len {A : Type} (l : list A) : Z := Z.of_nat (List.length l).

(** [s.split(".")] *)
Fixpoint split_dot (s : string) : list string :=
  match s with
  | EmptyString => [EmptyString]
  | String c r =>
      if Ascii.eqb c "."%char then EmptyString :: split_dot r
      else match split_dot r with
           | h :: t => String c h :: t
           | [] => [String c EmptyString]
           end
  end.

(** [x or y] on an optional string: [None] and [""] are falsy. *)
Definition str_or (x : option string) (y : string) : string :=
  match x with
  | Some (String a r) => String a r
  | _ => y
  end.

(** Truthiness of an optional string. *)
Definition str_true (x : option string) : bool :=
  match x with
  | Some (String _ _) => true
  | _ => false
  end.

Definition is_nil {A : Type} (l : list A) : bool :=
  match l with [] => true | _ => false end.

Definition is_none {A : Type} (o : option A) : bool :=
  match o with None => true | Some _ => false end.

(* ================================================================== *)
(** ** class Compiler *)

Section Compiler.

Context {T : Type} {ST : SymbolTable T}.
Variable stack_effect : opcode -> list const -> Z.
Variable symtab_map : scope_node -> option T.
Variable filename : string.

(** *** The calls on [self.bc] *)

Definition bc_add (op : opcode) (args : list const) : M unit :=
  on_bc (Bytecode_add stack_effect op args).

Definition bc_load_int (n : Z) : M unit :=
  on_bc (Bytecode_load_int stack_effect n).

Definition bc_jump (op : opcode) (l : nat) : M unit :=
  on_bc (Bytecode_jump stack_effect op l).

Definition bc_put_label (l : nat) : M unit :=
  on_bc (Bytecode_put_label l).

Definition bc_get_label : M nat :=
  fun c =>
    let '(l, b) := Bytecode_get_label (bc c) in
    OK (l, {| loop_stack := loop_stack c; bc := b |}).

Definition bc_add_const (k : const) : M nat :=
  fun c =>
    let '(i, b) := Bytecode_add_const k (bc c) in
    OK (i, {| loop_stack := loop_stack c; bc := b |}).

(** [self.bc.stk_ptr] *)
Definition get_stk_ptr : M Z := fun c => OK (stk_ptr (bc c), c).

(** [self.bc.stk_ptr = s] *)
Definition set_stk_ptr (s : Z) : M unit :=
  fun c =>
    OK (tt, {| loop_stack := loop_stack c;
               bc := {| buf := buf (bc c); const_table := const_table (bc c);
                        labels := labels (bc c); fixups := fixups (bc c);
                        stk_ptr := s; stk_max := stk_max (bc c) |} |}).

(** [self.loop_stack.append(frame)] *)
Definition loop_push (frame : nat * nat * string) : M unit :=
  fun c => OK (tt, {| loop_stack := loop_stack c ++ [frame]; bc := bc c |}).

(** [self.loop_stack.pop()] *)
Definition loop_pop : M unit :=
  fun c =>
    match loop_stack c with
    | [] => Err IndexError
    | _ => OK (tt, {| loop_stack := removelast (loop_stack c); bc := bc c |})
    end.

(** [self.loop_stack] *)
Definition get_loop_stack : M (list (nat * nat * string)) :=
  fun c => OK (loop_stack c, c).

(** *** Names *)

Definition load_ops (s : scope) : opcode :=
  match s with
  | SCOPE_NAME => LOAD_NAME | SCOPE_GLOBAL => LOAD_GLOBAL
  | SCOPE_FAST => LOAD_FAST_N | SCOPE_DEREF => LOAD_DEREF
  end.

Definition store_ops (s : scope) : opcode :=
  match s with
  | SCOPE_NAME => STORE_NAME | SCOPE_GLOBAL => STORE_GLOBAL
  | SCOPE_FAST => STORE_FAST_N | SCOPE_DEREF => STORE_DEREF
  end.

Definition store_const_ops (s : scope) : opcode :=
  match s with
  | SCOPE_NAME => STORE_NAME_CONST | SCOPE_GLOBAL => STORE_GLOBAL_CONST
  | SCOPE_FAST => STORE_FAST_N | SCOPE_DEREF => STORE_DEREF
  end.

Definition _visit_var (symtab : T) (var : string) (ctx : ast.expr_context)
  : M unit :=
  scope <- lift_res (get_scope symtab var) ;;
  op <- match ctx with
        | ast.Load => ret (load_ops scope)
        | ast.Store => ret (store_ops scope)
        | ast.StoreConst => ret (store_const_ops scope)
        | ast.Del => raise AssertionError
        end ;;
  match scope with
  | SCOPE_FAST | SCOPE_DEREF =>
      id <- lift_res (get_fast_local symtab var) ;;
      bc_add op [CInt id]
  | _ => bc_add op [CStr var]
  end.

(** *** Expressions *)

Definition cmpop_map (o : ast.cmpop) : opcode :=
  match o with
  | ast.Eq => BINARY_EQUAL | ast.NotEq => BINARY_NOT_EQUAL
  | ast.Lt => BINARY_LESS | ast.LtE => BINARY_LESS_EQUAL
  | ast.Gt => BINARY_MORE | ast.GtE => BINARY_MORE_EQUAL
  | ast.Is => BINARY_IS | ast.IsNot => BINARY_IS
  | ast.In => BINARY_IN | ast.NotIn => BINARY_IN
  end.

Definition binop_map (o : ast.operator) : opcode :=
  match o with
  | ast.Add => BINARY_ADD | ast.Sub => BINARY_SUBTRACT
  | ast.Mult => BINARY_MULTIPLY | ast.MatMult => BINARY_MAT_MULTIPLY
  | ast.Div => BINARY_TRUE_DIVIDE | ast.FloorDiv => BINARY_FLOOR_DIVIDE
  | ast.Mod => BINARY_MODULO | ast.Pow => BINARY_POWER
  | ast.LShift => BINARY_LSHIFT | ast.RShift => BINARY_RSHIFT
  | ast.BitAnd => BINARY_AND | ast.BitOr => BINARY_OR
  | ast.BitXor => BINARY_XOR
  end.

Definition inplaceop_map (o : ast.operator) : opcode :=
  match o with
  | ast.Add => INPLACE_ADD | ast.Sub => INPLACE_SUBTRACT
  | ast.Mult => INPLACE_MULTIPLY | ast.MatMult => INPLACE_MAT_MULTIPLY
  | ast.Div => INPLACE_TRUE_DIVIDE | ast.FloorDiv => INPLACE_FLOOR_DIVIDE
  | ast.Mod => INPLACE_MODULO | ast.Pow => INPLACE_POWER
  | ast.LShift => INPLACE_LSHIFT | ast.RShift => INPLACE_RSHIFT
  | ast.BitAnd => INPLACE_AND | ast.BitOr => INPLACE_OR
  | ast.BitXor => INPLACE_XOR
  end.

Definition unop_map (o : ast.unaryop) : opcode :=
  match o with
  | ast.UAdd => UNARY_POSITIVE | ast.USub => UNARY_NEGATIVE
  | ast.Invert => UNARY_INVERT | ast.Not => UNARY_NOT
  end.

Definition visit_Num (n : ast.num) : M unit :=
  match n with
  | ast.PyInt i =>
      assert_ ((- 2 ^ 30 <? i) && (i <? 2 ^ 30 - 1)) ;;
      bc_load_int i
  | _ => raise AssertionError
  end.

Definition visit_Str (s : string) : M unit :=
  bc_add LOAD_CONST_OBJ [CStr s].

Definition visit_Bytes (s : list byte) : M unit :=
  bc_add LOAD_CONST_OBJ [CBytes s].

Section ExprMethods.

(** [self.visit], on expression nodes. *)
Variable visit : ast.expr -> M unit.

Definition visit_Tuple (elts : list ast.expr) : M unit :=
  foreach visit elts ;;
  bc_add BUILD_TUPLE [CInt (len elts)].

Definition visit_List (elts : list ast.expr) : M unit :=
  foreach visit elts ;;
  bc_add BUILD_LIST [CInt (len elts)].

Definition visit_Set (elts : list ast.expr) : M unit :=
  foreach visit elts ;;
  bc_add BUILD_SET [CInt (len elts)].

Definition visit_Dict (keys values : list ast.expr) : M unit :=
  bc_add BUILD_MAP [CInt (len keys)] ;;
  foreach (fun kv : M unit * M unit =>
             snd kv ;; fst kv ;; bc_add STORE_MAP [])
          (combine (map visit keys) (map visit values)).

Definition visit_Call (func : ast.expr) (args : list ast.expr)
           (keywords : list (option string * ast.expr)) : M unit :=
  assert_ (is_nil keywords) ;;
  visit func ;;
  foreach visit args ;;
  bc_add CALL_FUNCTION [CInt (len args); CInt 0].

Definition visit_Compare (left : ast.expr) (ops : list ast.cmpop)
           (comparators : list ast.expr) : M unit :=
  assert_ (len ops =? 1) ;;
  visit left ;;
  c0 <- lift_res (py_first (map visit comparators)) ;;
  c0 ;;
  op_t <- lift_res (py_first ops) ;;
  bc_add (cmpop_map op_t) [] ;;
  match op_t with
  | ast.IsNot | ast.NotIn => bc_add UNARY_NOT []
  | _ => ret tt
  end.

Definition visit_BoolOp (op : ast.boolop) (values : list ast.expr) : M unit :=
  let jop := match op with
             | ast.And => JUMP_IF_FALSE_OR_POP
             | ast.Or => JUMP_IF_TRUE_OR_POP
             end in
  join_l <- bc_get_label ;;
  foreach (fun v : M unit => v ;; bc_jump jop join_l)
          (removelast (map visit values)) ;;
  v_last <- lift_res (py_last (map visit values)) ;;
  v_last ;;
  bc_put_label join_l.

Definition visit_BinOp (left : ast.expr) (op : ast.operator)
           (right : ast.expr) : M unit :=
  visit left ;;
  visit right ;;
  bc_add (binop_map op) [].

Definition visit_UnaryOp (op : ast.unaryop) (operand : ast.expr) : M unit :=
  visit operand ;;
  bc_add (unop_map op) [].

(** Modelled from the spec: [ast.NodeVisitor] is not among the sources.
    The class has no [visit_Attribute] (section 9), so [visit] falls to
    [generic_visit], which visits the child nodes: [value], and the [ctx]
    node, which has no fields and for which nothing is emitted. *)
Definition generic_visit_Attribute (value : ast.expr) : M unit :=
  visit value.

End ExprMethods.

(** [self.visit(node)] for an expression node: dispatch on its class. *)
Fixpoint visit_expr (symtab : T) (node : ast.expr) {struct node} : M unit :=
  match node with
  | ast.Name id ctx => _visit_var symtab id ctx
  | ast.Num n => visit_Num n
  | ast.Str s => visit_Str s
  | ast.Bytes s => visit_Bytes s
  | ast.Tuple elts _ => visit_Tuple (visit_expr symtab) elts
  | ast.List elts _ => visit_List (visit_expr symtab) elts
  | ast.Set_ elts => visit_Set (visit_expr symtab) elts
  | ast.Dict keys values => visit_Dict (visit_expr symtab) keys values
  | ast.Call func args keywords =>
      visit_Call (visit_expr symtab) func args keywords
  | ast.BinOp l op r => visit_BinOp (visit_expr symtab) l op r
  | ast.UnaryOp op e => visit_UnaryOp (visit_expr symtab) op e
  | ast.BoolOp op values => visit_BoolOp (visit_expr symtab) op values
  | ast.Compare l ops comparators =>
      visit_Compare (visit_expr symtab) l ops comparators
  | ast.Attribute value _ _ => generic_visit_Attribute (visit_expr symtab) value
  end.

(** *** Statements *)

(** [self.bc] and [self.bc = b] *)
Definition get_bc : M Bytecode := fun c => OK (bc c, c).

Definition set_bc (b : Bytecode) : M unit :=
  fun c => OK (tt, {| loop_stack := loop_stack c; bc := b |}).

Definition lookup_symtab (k : scope_node) : M T :=
  lift_res (match symtab_map k with
            | Some t => OK t
            | None => Err KeyError
            end).

(** [_visit_with_load_ctx(node)].  The method mutates [node.ctx] and sets
    it back; the result is the node as the method leaves it. *)
Definition _visit_with_load_ctx (visit : ast.expr -> M unit) (node : ast.expr)
  : M ast.expr :=
  ctx <- lift_res (match ast.get_ctx node with
                   | Some c => OK c
                   | None => Err AttributeError
                   end) ;;
  let node1 := ast.set_ctx node ast.Load in
  visit node1 ;;
  ret (ast.set_ctx node1 ctx).

Section Suite.

(** [self.visit], on statement nodes. *)
Variable visit : ast.stmt -> M unit.

(** The loop of [_visit_suite]; [s] is the loop variable, which the
    method returns. *)
Fixpoint suite_loop (s : option ast.stmt) (lst : list ast.stmt) {struct lst}
  : M (option ast.stmt) :=
  match lst with
  | [] => ret s
  | x :: r =>
      org_stk_ptr <- get_stk_ptr ;;
      visit x ;;
      now <- get_stk_ptr ;;
      assert_ (now =? org_stk_ptr) ;;
      suite_loop (Some x) r
  end.

Definition _visit_suite (lst : list ast.stmt) : M (option ast.stmt) :=
  suite_loop None lst.

End Suite.

Section StmtMethods.

(** The active symbol table [self.symtab], and [self.visit] on
    expression and on statement nodes under it. *)
Variable symtab : T.
Variable visit_e : ast.expr -> M unit.
Variable visit_s : ast.stmt -> M unit.

Definition visit_For (target iter : ast.expr) (body orelse : list ast.stmt)
  : M unit :=
  test_l <- bc_get_label ;;
  end_l <- bc_get_label ;;
  visit_e iter ;;
  bc_add GET_ITER_STACK [] ;;
  bc_put_label test_l ;;
  bc_jump FOR_ITER end_l ;;
  visit_e target ;;
  loop_push (test_l, end_l, "for") ;;
  _visit_suite visit_s body ;;
  loop_pop ;;
  bc_jump JUMP test_l ;;
  bc_put_label end_l ;;
  s <- get_stk_ptr ;;
  set_stk_ptr (s - 4) ;;
  _visit_suite visit_s orelse ;;
  ret tt.

Definition visit_While (test : ast.expr) (body orelse : list ast.stmt)
  : M unit :=
  test_l <- bc_get_label ;;
  body_l <- bc_get_label ;;
  end_l <- bc_get_label ;;
  bc_jump JUMP test_l ;;
  bc_put_label body_l ;;
  loop_push (test_l, end_l, "while") ;;
  _visit_suite visit_s body ;;
  loop_pop ;;
  bc_put_label test_l ;;
  visit_e test ;;
  bc_jump POP_JUMP_IF_TRUE body_l ;;
  _visit_suite visit_s orelse ;;
  bc_put_label end_l.

Definition visit_Continue : M unit :=
  ls <- get_loop_stack ;;
  assert_ (negb (is_nil ls)) ;;
  top <- lift_res (py_last ls) ;;
  bc_jump JUMP (fst (fst top)).

Definition visit_Break : M unit :=
  ls <- get_loop_stack ;;
  assert_ (negb (is_nil ls)) ;;
  top <- lift_res (py_last ls) ;;
  (if String.eqb (snd top) "for" then
     s <- get_stk_ptr ;;
     foreach (fun _ : nat => bc_add POP_TOP []) (seq 0 4) ;;
     set_stk_ptr s
   else ret tt) ;;
  bc_jump JUMP (snd (fst top)).

Definition visit_If (test : ast.expr) (body orelse : list ast.stmt) : M unit :=
  visit_e test ;;
  join_l <- bc_get_label ;;
  (if negb (is_nil orelse) then
     else_l <- bc_get_label ;;
     bc_jump POP_JUMP_IF_FALSE else_l ;;
     _visit_suite visit_s body ;;
     bc_jump JUMP join_l ;;
     bc_put_label else_l ;;
     _visit_suite visit_s orelse ;;
     ret tt
   else
     bc_jump POP_JUMP_IF_FALSE join_l ;;
     _visit_suite visit_s body ;;
     ret tt) ;;
  bc_put_label join_l.

Definition visit_ImportFrom (module : option string) (names : list ast.alias)
           (level : Z) : M unit :=
  bc_load_int level ;;
  foreach (fun n => bc_add LOAD_CONST_STRING [CStr (ast.name n)]) names ;;
  bc_add BUILD_TUPLE [CInt (len names)] ;;
  bc_add IMPORT_NAME [CStr (str_or module "")] ;;
  if match names with
     | [n] => String.eqb (ast.name n) "*"
     | _ => false
     end
  then bc_add IMPORT_STAR []
  else
    foreach (fun n =>
               bc_add IMPORT_FROM [CStr (ast.name n)] ;;
               _visit_var symtab (str_or (ast.asname n) (ast.name n))
                          ast.StoreConst)
            names ;;
    bc_add POP_TOP [].

Definition visit_Import (names : list ast.alias) : M unit :=
  foreach (fun n =>
             bc_load_int 0 ;;
             bc_add LOAD_CONST_NONE [] ;;
             bc_add IMPORT_NAME [CStr (ast.name n)] ;;
             if str_true (ast.asname n) then
               foreach (fun c => bc_add LOAD_ATTR [CStr c])
                       (tl (split_dot (ast.name n))) ;;
               _visit_var symtab (str_or (ast.asname n) "") ast.StoreConst
             else
               _visit_var symtab (hd "" (split_dot (ast.name n)))
                          ast.StoreConst)
          names.

Definition visit_Return (value : option ast.expr) : M unit :=
  match value with
  | None => bc_add LOAD_CONST_NONE []
  | Some v => visit_e v
  end ;;
  bc_add RETURN_VALUE [].

(** [visit_AugAssign]; the result is [node.target] as the method
    leaves it. *)
Definition visit_AugAssign (target : ast.expr) (op : ast.operator)
           (value : ast.expr) : M ast.expr :=
  target1 <- _visit_with_load_ctx visit_e target ;;
  visit_e value ;;
  bc_add (inplaceop_map op) [] ;;
  visit_e target1 ;;
  ret target1.

Definition visit_Assign (targets : list ast.expr) (value : ast.expr) : M unit :=
  visit_e value ;;
  foreach (fun t : M unit => bc_add DUP_TOP [] ;; t)
          (removelast (map visit_e targets)) ;;
  t_last <- lift_res (py_last (map visit_e targets)) ;;
  t_last.

Definition visit_Expr (value : ast.expr) : M unit :=
  visit_e value ;;
  bc_add POP_TOP [].

Definition visit_Pass : M unit := ret tt.

End StmtMethods.

Section FunctionDef.

(** [self.visit] on statement nodes, under a given symbol table. *)
Variable visit : T -> ast.stmt -> M unit.

Definition unsupported_args (a : ast.arguments) : M unit :=
  assert_ (is_none (ast.vararg a)) ;;
  assert_ (is_nil (ast.kwonlyargs a)) ;;
  assert_ (is_nil (ast.kw_defaults a)) ;;
  assert_ (is_none (ast.kwarg a)) ;;
  assert_ (is_nil (ast.defaults a)).

(** The part of [_visit_function] that builds the function's code
    object [co]: from the switch to the function's scope up to the
    adjustment of [mpy_stacksize]. *)
Definition function_codeobj (node : ast.stmt) (name : string)
           (args : ast.arguments) (body : list ast.stmt) : M codeobj :=
  symtab0 <- lookup_symtab (FunctionScope node) ;;
  symtab <- lift_res (finalize symtab0) ;;
  set_bc Bytecode_new ;;
  foreach (fun a => _ <- bc_add_const (CStr (ast.arg a)) ;; ret tt)
          (ast.args args) ;;
  last_stmt <- _visit_suite (visit symtab) body ;;
  (if negb (ast.is_Return last_stmt) then
     bc_add LOAD_CONST_NONE [] ;;
     bc_add RETURN_VALUE []
   else ret tt) ;;
  b <- get_bc ;;
  co <- lift_res (Bytecode_get_codeobj b) ;;
  ret (mk_codeobj name filename (List.length (ast.args args))
                  (co_code co) (co_consts co)
                  (mpy_stacksize co + len (all_locals symtab))).

Definition _visit_function (prev_symtab : T) (node : ast.stmt) (name : string)
           (args : ast.arguments) (body : list ast.stmt) : M unit :=
  unsupported_args args ;;
  prev_bc <- get_bc ;;
  co <- function_codeobj node name args body ;;
  set_bc prev_bc ;;
  bc_add MAKE_FUNCTION [CCode co] ;;
  _visit_var prev_symtab name ast.StoreConst.

End FunctionDef.

(** [self.visit(node)] for a statement node: dispatch on its class. *)
Fixpoint visit_stmt (symtab : T) (node : ast.stmt) {struct node} : M unit :=
  match node with
  | ast.FunctionDef name args body _ _ =>
      _visit_function visit_stmt symtab node name args body
  | ast.Return value => visit_Return (visit_expr symtab) value
  | ast.Assign targets value => visit_Assign (visit_expr symtab) targets value
  | ast.AugAssign target op value =>
      visit_AugAssign (visit_expr symtab) target op value ;; ret tt
  | ast.For target iter body orelse =>
      visit_For (visit_expr symtab) (visit_stmt symtab) target iter body orelse
  | ast.While test body orelse =>
      visit_While (visit_expr symtab) (visit_stmt symtab) test body orelse
  | ast.If test body orelse =>
      visit_If (visit_expr symtab) (visit_stmt symtab) test body orelse
  | ast.Import names => visit_Import symtab names
  | ast.ImportFrom module names level =>
      visit_ImportFrom symtab module names level
  | ast.Expr value => visit_Expr (visit_expr symtab) value
  | ast.Pass => visit_Pass
  | ast.Break => visit_Break
  | ast.Continue => visit_Continue
  end.

Definition visit_Module (node : ast.mod_node) : M unit :=
  symtab <- lookup_symtab (ModuleScope node) ;;
  set_bc Bytecode_new ;;
  _visit_suite (visit_stmt symtab) (let 'ast.Module body := node in body) ;;
  bc_add LOAD_CONST_NONE [] ;;
  bc_add RETURN_VALUE [].

(** The compiler as [Compiler(symtab_map, filename)] leaves it; [self.bc]
    is assigned by [visit_Module] before any use. *)
Definition Compiler_init : Compiler :=
  {| loop_stack := []; bc := Bytecode_new |}.

(** [compile_ast(tree, filename)], given the symbol tables the
    [SymbolTableBuilder] pass produced for [tree]. *)
Definition compile_ast (tree : ast.mod_node) : res codeobj :=
  match visit_Module tree Compiler_init with
  | Err e => Err e
  | OK (_, compiler) =>
      match Bytecode_get_codeobj (bc compiler) with
      | Err e => Err e
      | OK co =>
          OK (mk_codeobj "<module>" filename (co_argcount co) (co_code co)
                         (co_consts co) (mpy_stacksize co))
      end
  end.

End Compiler.

Arguments compile_ast {T ST} stack_effect symtab_map filename tree.
Arguments visit_stmt {T ST} stack_effect symtab_map filename symtab node _.
Arguments visit_expr {T ST} stack_effect symtab node _.
Arguments visit_Module {T ST} stack_effect symtab_map filename node _.

(* ================================================================== *)
(** ** A concrete opcode namespace and symbol table

    Used to run the compiler on the scenarios of the specification. *)

Module Scenarios.

(** Modelled from the spec: the static stack effects of the VM's opcodes.
    The spec (4.1) gives [LOAD_* = +1], [POP_TOP = -1],
    [BUILD_TUPLE n = 1 - n], [STORE_MAP = -2], [FOR_ITER = +1],
    [RETURN_VALUE = -1] and the four slots of [GET_ITER_STACK]; the others
    are the operand counts of the instructions. *)
Definition vm_stack_effect (op : opcode) (args : list const) : Z :=
  match op with
  | LOAD_CONST_NONE | LOAD_CONST_SMALL_INT | LOAD_CONST_STRING | LOAD_CONST_OBJ
  | LOAD_NAME | LOAD_GLOBAL | LOAD_FAST_N | LOAD_DEREF => 1
  | LOAD_ATTR => 0
  | STORE_NAME | STORE_GLOBAL | STORE_FAST_N | STORE_DEREF
  | STORE_NAME_CONST | STORE_GLOBAL_CONST => -1
  | STORE_MAP => -2
  | DUP_TOP => 1
  | POP_TOP => -1
  | RETURN_VALUE => -1
  | MAKE_FUNCTION => 1
  | CALL_FUNCTION =>
      match args with CInt n :: _ => - n | _ => 0 end
  | GET_ITER_STACK => 3
  | FOR_ITER => 1
  | JUMP => 0
  | POP_JUMP_IF_TRUE | POP_JUMP_IF_FALSE => -1
  | JUMP_IF_TRUE_OR_POP | JUMP_IF_FALSE_OR_POP => -1
  | BUILD_TUPLE | BUILD_LIST | BUILD_SET =>
      match args with CInt n :: _ => 1 - n | _ => 1 end
  | BUILD_MAP => 1
  | IMPORT_NAME => -1
  | IMPORT_FROM => 1
  | IMPORT_STAR => -1
  | UNARY_POSITIVE | UNARY_NEGATIVE | UNARY_INVERT | UNARY_NOT => 0
  | _ => -1
  end.

(** A symbol table given by the scope of each name it knows and the list
    of its fast locals, whose positions are the slot numbers. *)
Record table : Type := mk_table {
  scopes : list (string * scope);
  slots : list string
}.

(** Lookup in an association list. *)
Fixpoint assoc {A : Type} (k : string) (l : list (string * A)) : option A :=
  match l with
  | [] => None
  | (k', v) :: r => if String.eqb k k' then Some v else assoc k r
  end.

(** [l.index(k)] *)
Fixpoint index_of (k : string) (l : list string) : option Z :=
  match l with
  | [] => None
  | x :: r =>
      if String.eqb k x then Some 0
      else match index_of k r with Some i => Some (i + 1) | None => None end
  end.

#[export] Instance table_SymbolTable : SymbolTable table := {
  get_scope t v :=
    match assoc v (scopes t) with Some s => OK s | None => OK SCOPE_NAME end;
  get_fast_local t v :=
    match index_of v (slots t) with Some i => OK i | None => Err KeyError end;
  all_locals t := slots t;
  finalize t := OK t
}.

(** Every name at module scope resolves to NAME. *)
Definition module_table : table := {| scopes := []; slots := [] |}.

(** The table of a function whose locals are [names]. *)
Definition function_table (names : list string) : table :=
  {| scopes := map (fun n => (n, SCOPE_FAST)) names; slots := names |}.

(** A map that gives every module the table [module_table] and every
    function definition the table of its parameters. *)
Definition simple_map (k : scope_node) : option table :=
  match k with
  | ModuleScope _ => Some module_table
  | FunctionScope (ast.FunctionDef _ a _ _ _) =>
      Some (function_table (map ast.arg (ast.args a)))
  | FunctionScope _ => None
  end.

Definition compile (tree : ast.mod_node) : res codeobj :=
  compile_ast vm_stack_effect simple_map "<file>" tree.

Definition run_stmt (s : ast.stmt) (c : Compiler) : res (unit * Compiler) :=
  visit_stmt vm_stack_effect simple_map "<file>" module_table s c.

Definition run_expr (e : ast.expr) (c : Compiler) : res (unit * Compiler) :=
  visit_expr vm_stack_effect module_table e c.

End Scenarios.

(* ================================================================== *)
(** ** Reasoning about the monad *)

Lemma bind_OK :
  forall (A B : Type) (m : M A) (f : A -> M B) c r,
    bind m f c = OK r ->
    exists a c1, m c = OK (a, c1) /\ f a c1 = OK r.
Proof.
  unfold bind; intros A B m f c r H.
  destruct (m c) as [[a c1]|e]; [eauto | discriminate].
Qed.

Lemma bind_Err_l :
  forall (A B : Type) (m : M A) (f : A -> M B) c e,
    m c = Err e -> bind m f c = Err e.
Proof. unfold bind; intros; rewrite H; reflexivity. Qed.

Lemma bind_OK_l :
  forall (A B : Type) (m : M A) (f : A -> M B) c a c1,
    m c = OK (a, c1) -> bind m f c = f a c1.
Proof. unfold bind; intros; rewrite H; reflexivity. Qed.

Lemma assert_OK :
  forall b c r, assert_ b c = OK r -> b = true /\ r = (tt, c).
Proof.
  unfold assert_, ret, raise; intros [] c r H; inversion H; auto.
Qed.

Lemma lift_res_OK :
  forall (A : Type) (x : res A) c r,
    lift_res x c = OK r -> exists a, x = OK a /\ r = (a, c).
Proof.
  unfold lift_res; intros A [a|e] c r H; inversion H; eauto.
Qed.

Lemma bind_assoc :
  forall (A B C : Type) (m : M A) (f : A -> M B) (g : B -> M C) c,
    bind (bind m f) g c = bind m (fun a => bind (f a) g) c.
Proof. intros; unfold bind; destruct (m c) as [[a c1]|e]; reflexivity. Qed.

Lemma bind_ext :
  forall (A B : Type) (m : M A) (f g : A -> M B) c,
    (forall a c1, f a c1 = g a c1) -> bind m f c = bind m g c.
Proof. intros; unfold bind; destruct (m c) as [[a c1]|e]; auto. Qed.

(** Decomposition of a successful run into its steps. *)
Ltac monad_inv H :=
  match type of H with
  | bind _ _ _ = OK _ =>
      let a := fresh "a" in
      let c := fresh "c" in
      let H1 := fresh "Hstep" in
      let H2 := fresh "Hrest" in
      apply bind_OK in H; destruct H as (a & c & H1 & H2);
      monad_inv H1; monad_inv H2
  | assert_ _ _ = OK _ =>
      let Hb := fresh "Hassert" in
      let He := fresh "Heq" in
      apply assert_OK in H; destruct H as [Hb He];
      inversion He; subst; clear He
  | lift_res _ _ = OK _ =>
      let x := fresh "x" in
      let Hx := fresh "Hres" in
      let He := fresh "Heq" in
      apply lift_res_OK in H; destruct H as (x & Hx & He);
      inversion He; subst; clear He
  | ret _ _ = OK _ => inversion H; subst; clear H
  | raise _ _ = OK _ => discriminate H
  | _ => idtac
  end.

(** An action that raises from every state. *)
Definition fails {A : Type} (m : M A) : Prop := forall c, is_err (m c).

Lemma fails_raise : forall (A : Type) e, fails (@raise A e).
Proof. intros A e c; exists e; reflexivity. Qed.

Lemma fails_bind_l :
  forall (A B : Type) (m : M A) (f : A -> M B), fails m -> fails (bind m f).
Proof.
  intros A B m f H c; destruct (H c) as [e He].
  exists e; apply bind_Err_l; exact He.
Qed.

Lemma fails_bind_r :
  forall (A B : Type) (m : M A) (f : A -> M B),
    (forall a, fails (f a)) -> fails (bind m f).
Proof.
  intros A B m f H c; unfold bind.
  destruct (m c) as [[a c1]|e]; [apply H | exists e; reflexivity].
Qed.

Lemma fails_assert_false : fails (assert_ false).
Proof. intro c; exists AssertionError; reflexivity. Qed.

Lemma fails_foreach :
  forall (A : Type) (f : A -> M unit) (l : list A),
    Exists (fun x => fails (f x)) l -> fails (foreach f l).
Proof.
  intros A f l H; induction H as [x l Hx | x l _ IH]; simpl.
  - apply fails_bind_l; exact Hx.
  - apply fails_bind_r; intros _; exact IH.
Qed.

(* ================================================================== *)
(** ** Lists, Python style *)

Lemma py_last_app :
  forall (A : Type) (l : list A) (x : A), py_last (l ++ [x]) = OK x.
Proof.
  induction l as [|y l IH]; intros x; simpl; [reflexivity|].
  rewrite IH; destruct (l ++ [x]) eqn:E; [destruct l; discriminate | reflexivity].
Qed.

Lemma py_last_In :
  forall (A : Type) (l : list A) (x : A), py_last l = OK x -> List.In x l.
Proof.
  induction l as [|y l IH]; intros x H; simpl in *; [discriminate|].
  destruct l; [inversion H; auto | right; apply IH; exact H].
Qed.

Lemma py_last_nil_inv :
  forall (A : Type) (l : list A) e, py_last l = Err e -> l = [] /\ e = IndexError.
Proof.
  induction l as [|y l IH]; intros e H; simpl in *.
  - inversion H; auto.
  - destruct l; [discriminate|]. apply IH in H; destruct H; discriminate.
Qed.

Lemma In_removelast :
  forall (A : Type) (l : list A) (x : A), List.In x (removelast l) -> List.In x l.
Proof.
  induction l as [|y l IH]; intros x H; simpl in *; [contradiction|].
  destruct l; [contradiction|].
  destruct H as [H|H]; [auto | right; apply IH; exact H].
Qed.

Lemma list_set_length :
  forall (A : Type) (l : list A) i x, List.length (list_set l i x) = List.length l.
Proof.
  induction l as [|y l IH]; intros [|i] x; simpl; auto.
Qed.

Lemma list_set_other :
  forall (A : Type) (l : list A) i j x,
    i <> j -> nth_error (list_set l i x) j = nth_error l j.
Proof.
  induction l as [|y l IH]; intros [|i] [|j] x H; simpl; auto.
  contradiction.
Qed.

Lemma list_set_same :
  forall (A : Type) (l : list A) i x,
    (i < List.length l)%nat -> nth_error (list_set l i x) i = Some x.
Proof.
  induction l as [|y l IH]; intros [|i] x H; simpl in *; try lia; auto.
  apply IH; lia.
Qed.

(* ================================================================== *)
(** ** The frame of a visit

    What a visit may change in the compiler state: it appends to the
    instruction buffer and to the constant pool, it leaves the loop-context
    stack as it found it, and of the label table it leaves alone the
    entries below [n] (those of labels allocated before the visit). *)

Record frame (n : nat) (c c' : Compiler) : Prop := mk_frame {
  frame_loop : loop_stack c' = loop_stack c;
  frame_buf : exists code, buf (bc c') = buf (bc c) ++ code;
  frame_pool : exists ks, const_table (bc c') = const_table (bc c) ++ ks;
  frame_len : (List.length (labels (bc c)) <= List.length (labels (bc c')))%nat;
  frame_labels :
    forall l, (l < n)%nat ->
              nth_error (labels (bc c')) l = nth_error (labels (bc c)) l
}.

Lemma frame_refl : forall n c, frame n c c.
Proof.
  intros n c; constructor; auto; exists []; rewrite app_nil_r; reflexivity.
Qed.

Lemma frame_trans :
  forall n c1 c2 c3, frame n c1 c2 -> frame n c2 c3 -> frame n c1 c3.
Proof.
  intros n c1 c2 c3 [L1 [k1 B1] [p1 P1] N1 F1] [L2 [k2 B2] [p2 P2] N2 F2].
  constructor.
  - congruence.
  - exists (k1 ++ k2); rewrite B2, B1, app_assoc; reflexivity.
  - exists (p1 ++ p2); rewrite P2, P1, app_assoc; reflexivity.
  - lia.
  - intros l Hl; rewrite F2, F1; auto.
Qed.

Lemma frame_weaken :
  forall n m c c', (m <= n)%nat -> frame n c c' -> frame m c c'.
Proof.
  intros n m c c' H [L B P N F]; constructor; auto.
  intros l Hl; apply F; lia.
Qed.

(** An action keeps the frame at level [n] when every successful run from
    a state with at least [n] labels does. *)
Definition keeps {A : Type} (n : nat) (m : M A) : Prop :=
  forall c a c',
    (n <= List.length (labels (bc c)))%nat ->
    m c = OK (a, c') -> frame n c c'.

Lemma keeps_ret : forall (A : Type) n (a : A), keeps n (ret a).
Proof. intros A n a c a' c' _ H; inversion H; apply frame_refl. Qed.

Lemma keeps_raise : forall (A : Type) n e, keeps n (@raise A e).
Proof. intros A n e c a c' _ H; discriminate. Qed.

Lemma keeps_assert : forall n b, keeps n (assert_ b).
Proof.
  intros n [] c a c' _ H; [inversion H; apply frame_refl | discriminate].
Qed.

Lemma keeps_lift_res : forall (A : Type) n (x : res A), keeps n (lift_res x).
Proof.
  intros A n [x|e] c a c' _ H; [inversion H; apply frame_refl | discriminate].
Qed.

Lemma keeps_bind :
  forall (A B : Type) n (m : M A) (f : A -> M B),
    keeps n m -> (forall a, keeps n (f a)) -> keeps n (bind m f).
Proof.
  intros A B n m f Hm Hf c b c' Hn H.
  apply bind_OK in H; destruct H as (a & c1 & H1 & H2).
  pose proof (Hm _ _ _ Hn H1) as F1.
  apply frame_trans with c1; [exact F1|].
  apply (Hf a c1 b c'); [|exact H2].
  pose proof (frame_len F1); lia.
Qed.

Lemma keeps_foreach :
  forall (A : Type) n (f : A -> M unit) (l : list A),
    (forall x, List.In x l -> keeps n (f x)) -> keeps n (foreach f l).
Proof.
  intros A n f l; induction l as [|x l IH]; intros H; simpl.
  - apply keeps_ret.
  - apply keeps_bind; [apply H; left; reflexivity|].
    intros _; apply IH; intros y Hy; apply H; right; exact Hy.
Qed.

Lemma keeps_py_last :
  forall (A B : Type) n (l : list A) (f : A -> M B),
    (forall x, List.In x l -> keeps n (f x)) ->
    keeps n (bind (lift_res (py_last l)) f).
Proof.
  intros A B n l f H c b c' Hn Hrun.
  apply bind_OK in Hrun; destruct Hrun as (a & c1 & H1 & H2).
  apply lift_res_OK in H1; destruct H1 as (x & Hx & He).
  inversion He; subst a c1; clear He.
  apply (H x (py_last_In _ Hx) c b c' Hn H2).
Qed.

Lemma keeps_py_first :
  forall (A B : Type) n (l : list A) (f : A -> M B),
    (forall x, List.In x l -> keeps n (f x)) ->
    keeps n (bind (lift_res (py_first l)) f).
Proof.
  intros A B n l f H c b c' Hn Hrun.
  apply bind_OK in Hrun; destruct Hrun as (a & c1 & H1 & H2).
  apply lift_res_OK in H1; destruct H1 as (x & Hx & He).
  inversion He; subst a c1; clear He.
  destruct l as [|y l]; [discriminate|]; inversion Hx; subst y.
  apply (H x (or_introl eq_refl) c b c' Hn H2).
Qed.

(** *** The assembler's operations keep the frame *)

Definition bframe (n : nat) (b b' : Bytecode) : Prop :=
  (exists code, buf b' = buf b ++ code) /\
  (exists ks, const_table b' = const_table b ++ ks) /\
  (List.length (labels b) <= List.length (labels b'))%nat /\
  (forall l, (l < n)%nat -> nth_error (labels b') l = nth_error (labels b) l).

Lemma bframe_refl : forall n b, bframe n b b.
Proof.
  intros n b; repeat split; auto; exists []; rewrite app_nil_r; reflexivity.
Qed.

Lemma bframe_emit : forall n i d b, bframe n b (emit i d b).
Proof.
  intros n i d b; unfold emit; repeat split; simpl; auto.
  - exists [i]; reflexivity.
  - exists []; rewrite app_nil_r; reflexivity.
Qed.

Lemma bframe_trans :
  forall n b1 b2 b3, bframe n b1 b2 -> bframe n b2 b3 -> bframe n b1 b3.
Proof.
  intros n b1 b2 b3 ([k1 B1] & [p1 P1] & N1 & F1) ([k2 B2] & [p2 P2] & N2 & F2).
  repeat split.
  - exists (k1 ++ k2); rewrite B2, B1, app_assoc; reflexivity.
  - exists (p1 ++ p2); rewrite P2, P1, app_assoc; reflexivity.
  - lia.
  - intros l Hl; rewrite F2, F1; auto.
Qed.

Lemma bframe_intern_const :
  forall n k b i b', intern_const k b = (i, b') -> bframe n b b'.
Proof.
  intros n k b i b' H; unfold intern_const in H.
  destruct (pool_index k (const_table b)); inversion H; subst.
  - apply bframe_refl.
  - repeat split; simpl; auto.
    + exists []; rewrite app_nil_r; reflexivity.
    + exists [k]; reflexivity.
Qed.

Lemma keeps_on_bc :
  forall n (f : Bytecode -> res Bytecode),
    (forall b b', f b = OK b' -> bframe n b b') -> keeps n (on_bc f).
Proof.
  intros n f H c a c' _ Hrun; unfold on_bc in Hrun.
  destruct (f (bc c)) as [b|e] eqn:E; [|discriminate].
  inversion Hrun; subst; clear Hrun.
  destruct (H _ _ E) as (B & P & N & F).
  constructor; simpl; auto.
Qed.

Section AssemblerFrames.

Variable stack_effect : opcode -> list const -> Z.

Lemma bframe_add :
  forall n op args b b',
    Bytecode_add stack_effect op args b = OK b' -> bframe n b b'.
Proof.
  intros n op args b b' H; unfold Bytecode_add in H.
  destruct (pool_operand op).
  - destruct args as [|k [|]]; try discriminate.
    destruct (intern_const k b) as [i b1] eqn:E.
    inversion H; subst; clear H.
    eapply bframe_trans; [eapply bframe_intern_const; exact E | apply bframe_emit].
  - destruct (inline_operands args); [|discriminate].
    inversion H; subst; apply bframe_emit.
Qed.

Lemma keeps_add : forall n op args, keeps n (bc_add stack_effect op args).
Proof. intros; apply keeps_on_bc; intros; eapply bframe_add; eauto. Qed.

Lemma keeps_load_int : forall n i, keeps n (bc_load_int stack_effect i).
Proof.
  intros; apply keeps_on_bc; intros b b' H; unfold Bytecode_load_int in H.
  destruct (Z.abs i <? 2 ^ 30); eapply bframe_add; eauto.
Qed.

Lemma keeps_jump : forall n op l, keeps n (bc_jump stack_effect op l).
Proof.
  intros; apply keeps_on_bc; intros b b' H; unfold Bytecode_jump in H.
  destruct (nth_error (labels b) l) as [[off|]|]; inversion H; subst; clear H.
  - apply bframe_emit.
  - repeat split; simpl; auto.
    + exists [Jmp op (Pending l)]; reflexivity.
    + exists []; rewrite app_nil_r; reflexivity.
Qed.

End AssemblerFrames.

Lemma keeps_put_label :
  forall n l, (n <= l)%nat -> keeps n (bc_put_label l).
Proof.
  intros n l Hl; apply keeps_on_bc; intros b b' H; unfold Bytecode_put_label in H.
  destruct (nth_error (labels b) l) as [[off|]|]; inversion H; subst; clear H.
  repeat split; simpl.
  - exists []; rewrite app_nil_r; reflexivity.
  - exists []; rewrite app_nil_r; reflexivity.
  - rewrite list_set_length; auto.
  - intros j Hj; apply list_set_other; lia.
Qed.

Lemma keeps_get_label :
  forall (B : Type) n (f : nat -> M B),
    (forall l, (n <= l)%nat -> keeps n (f l)) -> keeps n (bind bc_get_label f).
Proof.
  intros B n f H c b c' Hn Hrun.
  apply bind_OK in Hrun; destruct Hrun as (l & c1 & H1 & H2).
  unfold bc_get_label, Bytecode_get_label in H1; inversion H1; subst; clear H1.
  apply frame_trans with
    {| loop_stack := loop_stack c;
       bc := {| buf := buf (bc c); const_table := const_table (bc c);
                labels := labels (bc c) ++ [None]; fixups := fixups (bc c);
                stk_ptr := stk_ptr (bc c); stk_max := stk_max (bc c) |} |}.
  - constructor; simpl; auto.
    + exists []; rewrite app_nil_r; reflexivity.
    + exists []; rewrite app_nil_r; reflexivity.
    + rewrite length_app; simpl; lia.
    + intros l Hl; apply nth_error_app1; lia.
  - eapply (H _ Hn); [|exact H2]; simpl.
    rewrite length_app; simpl; lia.
Qed.

Lemma keeps_get_stk_ptr : forall n, keeps n get_stk_ptr.
Proof. intros n c a c' _ H; inversion H; apply frame_refl. Qed.

Lemma keeps_get_loop_stack : forall n, keeps n get_loop_stack.
Proof. intros n c a c' _ H; inversion H; apply frame_refl. Qed.

Lemma keeps_get_bc : forall n, keeps n get_bc.
Proof. intros n c a c' _ H; inversion H; apply frame_refl. Qed.

Lemma keeps_set_stk_ptr : forall n s, keeps n (set_stk_ptr s).
Proof.
  intros n s c a c' _ H; inversion H; subst; clear H.
  constructor; simpl; auto; exists []; rewrite app_nil_r; reflexivity.
Qed.

Lemma keeps_add_const : forall n k, keeps n (bc_add_const k).
Proof.
  intros n k c a c' _ H; unfold bc_add_const, Bytecode_add_const in H.
  inversion H; subst; clear H.
  constructor; simpl; auto.
  - exists []; rewrite app_nil_r; reflexivity.
  - exists [k]; reflexivity.
Qed.

Lemma loop_pop_OK :
  forall c r,
    loop_pop c = OK r ->
    loop_stack c <> [] /\
    r = (tt, {| loop_stack := removelast (loop_stack c); bc := bc c |}).
Proof.
  unfold loop_pop; intros c r H.
  destruct (loop_stack c) eqn:E; [discriminate|].
  inversion H; split; [discriminate | reflexivity].
Qed.

(** A loop body runs between [append] and [pop] on the loop-context
    stack. *)
Lemma keeps_loop :
  forall (A B : Type) n fr (m : M A) (k : M B),
    keeps n m -> keeps n k ->
    keeps n (bind (loop_push fr) (fun _ => bind m (fun _ => bind loop_pop (fun _ => k)))).
Proof.
  intros A B n fr m k Hm Hk c b c' Hn Hrun.
  apply bind_OK in Hrun; destruct Hrun as ([] & c1 & H1 & Hrun).
  apply bind_OK in Hrun; destruct Hrun as (a & c2 & H2 & Hrun).
  apply bind_OK in Hrun; destruct Hrun as ([] & c3 & H3 & H4).
  unfold loop_push in H1; inversion H1; subst c1; clear H1.
  pose proof (Hm {| loop_stack := loop_stack c ++ [fr]; bc := bc c |} _ _ Hn H2)
    as F2; simpl in F2.
  apply loop_pop_OK in H3; destruct H3 as [_ H3].
  inversion H3; subst c3; clear H3.
  assert (F3 : frame n c {| loop_stack := removelast (loop_stack c2); bc := bc c2 |}).
  { destruct F2 as [L B2 P N F]; simpl in *.
    constructor; simpl; auto.
    rewrite L; apply removelast_last. }
  apply frame_trans with (1 := F3).
  apply (Hk _ _ _) with (2 := H4); simpl.
  pose proof (frame_len F3) as N3; simpl in N3; lia.
Qed.

(** A nested function is assembled in a builder of its own; the enclosing
    one is put back afterwards. *)
Lemma keeps_swap_bc :
  forall (A B : Type) n (inner : M A) (k : A -> M B),
    (forall c a c', inner c = OK (a, c') -> loop_stack c' = loop_stack c) ->
    (forall a, keeps n (k a)) ->
    keeps n (bind get_bc (fun prev =>
             bind inner (fun a => bind (set_bc prev) (fun _ => k a)))).
Proof.
  intros A B n inner k Hin Hk c b c' Hn Hrun.
  apply bind_OK in Hrun; destruct Hrun as (prev & c1 & H1 & Hrun).
  apply bind_OK in Hrun; destruct Hrun as (a & c2 & H2 & Hrun).
  apply bind_OK in Hrun; destruct Hrun as ([] & c3 & H3 & H4).
  unfold get_bc in H1; inversion H1; subst prev c1; clear H1.
  unfold set_bc in H3; inversion H3; subst c3; clear H3.
  rewrite (Hin _ _ _ H2) in H4.
  replace {| loop_stack := loop_stack c; bc := bc c |} with c in H4
    by (destruct c; reflexivity).
  apply (Hk a _ _ _ Hn H4).
Qed.

(* ================================================================== *)
(** ** Every visit keeps the frame *)

Ltac keeps_step :=
  first
    [ apply keeps_ret | apply keeps_raise | apply keeps_assert
    | apply keeps_lift_res | apply keeps_add | apply keeps_load_int
    | apply keeps_jump | apply keeps_get_stk_ptr | apply keeps_set_stk_ptr
    | apply keeps_get_loop_stack | apply keeps_add_const
    | apply keeps_put_label; lia
    | apply keeps_get_label; intros ? ?
    | apply keeps_py_last; intros ? ?
    | apply keeps_py_first; intros ? ?
    | apply keeps_loop
    | apply keeps_foreach; intros ? ?
    | apply keeps_bind; [| intros ?] ].

Lemma keeps_actions :
  forall (A : Type) (visit : A -> M unit) (l : list A),
    Forall (fun e => forall n, keeps n (visit e)) l ->
    forall v, List.In v (map visit l) -> forall n, keeps n v.
Proof.
  intros A visit l H v Hv n.
  apply in_map_iff in Hv; destruct Hv as (e & <- & He).
  rewrite Forall_forall in H; apply H; exact He.
Qed.

Section VisitFrames.

Context {T : Type} {ST : SymbolTable T}.
Variable stack_effect : opcode -> list const -> Z.
Variable symtab_map : scope_node -> option T.
Variable filename : string.

Lemma keeps_visit_var :
  forall symtab var ctx n, keeps n (_visit_var stack_effect symtab var ctx).
Proof.
  intros symtab var ctx n; unfold _visit_var.
  apply keeps_bind; [apply keeps_lift_res|]; intros sc.
  apply keeps_bind; [destruct ctx; keeps_step|]; intros op.
  destruct sc; repeat keeps_step.
Qed.

Lemma keeps_visit_Num : forall v n, keeps n (visit_Num stack_effect v).
Proof. intros [i|b|r i] n; simpl; repeat keeps_step. Qed.

Lemma keeps_visit_expr :
  forall e symtab n, keeps n (visit_expr stack_effect symtab e).
Proof.
  intros e symtab; induction e using expr_induction; intros lvl; simpl.
  - apply keeps_visit_var.
  - apply keeps_visit_Num.
  - unfold visit_Str; keeps_step.
  - unfold visit_Bytes; keeps_step.
  - unfold visit_Tuple; repeat keeps_step.
    rewrite Forall_forall in H; apply H; assumption.
  - unfold visit_List; repeat keeps_step.
    rewrite Forall_forall in H; apply H; assumption.
  - unfold visit_Set; repeat keeps_step.
    rewrite Forall_forall in H; apply H; assumption.
  - unfold visit_Dict; repeat keeps_step.
    + destruct x as [k v]; simpl.
      eapply keeps_actions; [exact H0 | eapply in_combine_r; eauto].
    + destruct x as [k v]; simpl.
      eapply keeps_actions; [exact H | eapply in_combine_l; eauto].
  - unfold visit_Call; repeat keeps_step; auto.
    rewrite Forall_forall in H; apply H; assumption.
  - unfold visit_BinOp; repeat keeps_step; auto.
  - unfold visit_UnaryOp; repeat keeps_step; auto.
  - unfold visit_BoolOp; repeat keeps_step.
    + eapply keeps_actions; [exact H | apply In_removelast; eassumption].
    + eapply keeps_actions; [exact H | eassumption].
  - unfold visit_Compare; repeat keeps_step; auto.
    + eapply keeps_actions; [exact H | eassumption].
    + match goal with |- keeps _ (match ?o with _ => _ end) => destruct o end;
        keeps_step.
  - unfold generic_visit_Attribute; auto.
Qed.

Ltac keeps_stmt_step :=
  first [ apply keeps_visit_var | apply keeps_visit_expr | keeps_step ].

Lemma keeps_suite_loop :
  forall (visit : ast.stmt -> M unit) lst n,
    (forall x, List.In x lst -> keeps n (visit x)) ->
    forall s, keeps n (suite_loop visit s lst).
Proof.
  intros visit lst n; induction lst as [|x r IH]; intros H s; simpl.
  - apply keeps_ret.
  - repeat keeps_stmt_step.
    + apply H; left; reflexivity.
    + apply IH; intros y Hy; apply H; right; exact Hy.
Qed.

Lemma keeps_visit_suite :
  forall (visit : ast.stmt -> M unit) lst n,
    (forall x, List.In x lst -> keeps n (visit x)) ->
    keeps n (_visit_suite visit lst).
Proof. intros; unfold _visit_suite; apply keeps_suite_loop; assumption. Qed.

Lemma keeps_loop_stack :
  forall (A : Type) (m : M A) c a c',
    keeps 0 m -> m c = OK (a, c') -> loop_stack c' = loop_stack c.
Proof.
  intros A m c a c' H Hrun.
  apply (frame_loop (H c a c' (Nat.le_0_l _) Hrun)).
Qed.

Lemma function_codeobj_loop_stack :
  forall (visit : T -> ast.stmt -> M unit) node name args body,
    (forall symtab x, List.In x body -> forall n, keeps n (visit symtab x)) ->
    forall c co c',
      function_codeobj stack_effect symtab_map filename visit node name args body c
      = OK (co, c') ->
      loop_stack c' = loop_stack c.
Proof.
  intros visit node name args body Hv c co c' Hrun.
  unfold function_codeobj in Hrun.
  apply bind_OK in Hrun; destruct Hrun as (t0 & c1 & H1 & Hrun).
  apply bind_OK in Hrun; destruct Hrun as (t & c2 & H2 & Hrun).
  apply bind_OK in Hrun; destruct Hrun as ([] & c3 & H3 & Hrun).
  unfold lookup_symtab in H1; monad_inv H1; monad_inv H2.
  unfold set_bc in H3; inversion H3; subst c3; clear H3.
  eapply keeps_loop_stack in Hrun; [exact Hrun|].
  repeat keeps_stmt_step.
  - apply keeps_visit_suite; intros; apply Hv; assumption.
  - destruct (negb (ast.is_Return a0)); repeat keeps_stmt_step.
  - apply keeps_get_bc.
Qed.

Lemma keeps_visit_stmt :
  forall s symtab n,
    keeps n (visit_stmt stack_effect symtab_map filename symtab s).
Proof.
  induction s using stmt_induction; intros symtab lvl; simpl.
  - (* FunctionDef *)
    unfold _visit_function.
    apply keeps_bind; [unfold unsupported_args; repeat keeps_step|]; intros _.
    apply keeps_swap_bc.
    + apply function_codeobj_loop_stack.
      intros t x Hx n; rewrite Forall_forall in H; apply H; exact Hx.
    + intros co; repeat keeps_stmt_step.
  - (* Return *)
    unfold visit_Return; repeat keeps_stmt_step.
    destruct value; keeps_stmt_step.
  - (* Assign *)
    unfold visit_Assign; repeat keeps_stmt_step.
    + apply In_removelast in H; apply in_map_iff in H.
      destruct H as (e & <- & _); apply keeps_visit_expr.
    + apply in_map_iff in H; destruct H as (e & <- & _); apply keeps_visit_expr.
  - (* AugAssign *)
    unfold visit_AugAssign, _visit_with_load_ctx; repeat keeps_stmt_step.
  - (* For *)
    unfold visit_For; repeat keeps_stmt_step.
    + apply keeps_visit_suite; intros x Hx.
      rewrite Forall_forall in H; apply H; exact Hx.
    + apply keeps_visit_suite; intros x Hx.
      rewrite Forall_forall in H0; apply H0; exact Hx.
  - (* While *)
    unfold visit_While; repeat keeps_stmt_step.
    + apply keeps_visit_suite; intros x Hx.
      rewrite Forall_forall in H; apply H; exact Hx.
    + apply keeps_visit_suite; intros x Hx.
      rewrite Forall_forall in H0; apply H0; exact Hx.
  - (* If *)
    unfold visit_If; repeat keeps_stmt_step.
    destruct (negb (is_nil orelse)); repeat keeps_stmt_step;
      apply keeps_visit_suite; intros x Hx;
      first [ rewrite Forall_forall in H; apply H; exact Hx
            | rewrite Forall_forall in H0; apply H0; exact Hx ].
  - (* Import *)
    unfold visit_Import; repeat keeps_stmt_step.
    destruct (str_true (ast.asname x)); repeat keeps_stmt_step.
  - (* ImportFrom *)
    unfold visit_ImportFrom; repeat keeps_stmt_step.
    match goal with |- keeps _ (if ?b then _ else _) => destruct b end;
      repeat keeps_stmt_step.
  - (* Expr *)
    unfold visit_Expr; repeat keeps_stmt_step.
  - apply keeps_ret.
  - (* Break *)
    unfold visit_Break; repeat keeps_stmt_step.
    match goal with |- keeps _ (if ?b then _ else _) => destruct b end;
      repeat keeps_stmt_step.
  - (* Continue *)
    unfold visit_Continue; repeat keeps_stmt_step.
Qed.

End VisitFrames.


(* ================================================================== *)
(** ** Suites: the stack check at every statement boundary *)

Section SuiteFacts.

Variable visit : ast.stmt -> M unit.

Lemma suite_loop_app :
  forall pre post s0 c,
    suite_loop visit s0 (pre ++ post) c
    = bind (suite_loop visit s0 pre) (fun r => suite_loop visit r post) c.
Proof.
  induction pre as [|x pre IH]; intros post s0 c; simpl.
  - reflexivity.
  - repeat (rewrite bind_assoc; apply bind_ext; intros).
    apply IH.
Qed.

Lemma suite_loop_step :
  forall x r s0 c c1,
    visit x c = OK (tt, c1) ->
    suite_loop visit s0 (x :: r) c
    = if stk_ptr (bc c1) =? stk_ptr (bc c)
      then suite_loop visit (Some x) r c1
      else Err AssertionError.
Proof.
  intros x r s0 c c1 H; simpl.
  unfold bind at 1; unfold get_stk_ptr at 1.
  unfold bind at 1; rewrite H.
  unfold bind at 1; unfold get_stk_ptr at 1.
  unfold bind at 1.
  destruct (stk_ptr (bc c1) =? stk_ptr (bc c)); reflexivity.
Qed.

Lemma suite_loop_stk_ptr :
  forall lst s0 c r c',
    suite_loop visit s0 lst c = OK (r, c') -> stk_ptr (bc c') = stk_ptr (bc c).
Proof.
  induction lst as [|x lst IH]; intros s0 c r c' H; simpl in H.
  - inversion H; reflexivity.
  - monad_inv H.
    repeat match goal with
           | Hg : get_stk_ptr _ = OK _ |- _ =>
               unfold get_stk_ptr in Hg; inversion Hg; subst; clear Hg
           end.
    match goal with Hs : suite_loop _ _ _ _ = OK _ |- _ => apply IH in Hs end.
    match goal with Ha : (_ =? _) = true |- _ => apply Z.eqb_eq in Ha end.
    congruence.
Qed.


End SuiteFacts.

(* ================================================================== *)
(** ** Break and continue *)

Lemma is_nil_app_last :
  forall (A : Type) (l : list A) (x : A), is_nil (l ++ [x]) = false.
Proof. intros A [|y l] x; reflexivity. Qed.

(** The builder after the four [POP_TOP] of a [break] out of a [for] loop:
    four instructions appended, [stk_ptr] put back to the saved value. *)
Definition break_pops (stack_effect : opcode -> list const -> Z) (b : Bytecode)
  : Bytecode :=
  let d := stack_effect POP_TOP [] in
  let b4 := emit (Ins POP_TOP []) d (emit (Ins POP_TOP []) d
             (emit (Ins POP_TOP []) d (emit (Ins POP_TOP []) d b))) in
  {| buf := buf b4; const_table := const_table b4; labels := labels b4;
     fixups := fixups b4; stk_ptr := stk_ptr b; stk_max := stk_max b4 |}.

Lemma visit_Break_eq :
  forall stack_effect c ls cont brk kind,
    loop_stack c = ls ++ [(cont, brk, kind)] ->
    visit_Break stack_effect c
    = if String.eqb kind "for"
      then bc_jump stack_effect JUMP brk
             {| loop_stack := loop_stack c; bc := break_pops stack_effect (bc c) |}
      else bc_jump stack_effect JUMP brk c.
Proof.
  intros se c ls cont brk kind H.
  unfold visit_Break.
  unfold bind at 1; unfold get_loop_stack at 1; rewrite H.
  rewrite is_nil_app_last; simpl negb.
  unfold bind at 1; unfold assert_ at 1, ret at 1.
  unfold bind at 1; rewrite py_last_app; unfold lift_res at 1.
  simpl snd; simpl fst.
  destruct (String.eqb kind "for").
  - unfold bind at 1. rewrite <- H. reflexivity.
  - unfold bind at 1; unfold ret at 1. reflexivity.
Qed.

Lemma visit_Continue_eq :
  forall stack_effect c ls cont brk kind,
    loop_stack c = ls ++ [(cont, brk, kind)] ->
    visit_Continue stack_effect c = bc_jump stack_effect JUMP cont c.
Proof.
  intros se c ls cont brk kind H.
  unfold visit_Continue.
  unfold bind at 1; unfold get_loop_stack at 1; rewrite H.
  rewrite is_nil_app_last; simpl negb.
  unfold bind at 1; unfold assert_ at 1, ret at 1.
  unfold bind at 1; rewrite py_last_app; unfold lift_res at 1.
  reflexivity.
Qed.

Lemma visit_Break_empty :
  forall stack_effect c,
    loop_stack c = [] -> visit_Break stack_effect c = Err AssertionError.
Proof.
  intros se c H; unfold visit_Break.
  unfold bind at 1; unfold get_loop_stack at 1; rewrite H; reflexivity.
Qed.

Lemma visit_Continue_empty :
  forall stack_effect c,
    loop_stack c = [] -> visit_Continue stack_effect c = Err AssertionError.
Proof.
  intros se c H; unfold visit_Continue.
  unfold bind at 1; unfold get_loop_stack at 1; rewrite H; reflexivity.
Qed.

(** The destination a jump to label [l] is emitted with: the offset the
    label is bound to or, while it is unbound, the label itself. *)
Definition jumps_to (b : Bytecode) (l : nat) (d : branch_target) : Prop :=
  match nth_error (labels b) l with
  | Some (Some off) => d = Bound off
  | Some None => d = Pending l
  | None => False
  end.

(** What a jump appends: one branch instruction. *)
Lemma bc_jump_buf :
  forall stack_effect op l c c',
    bc_jump stack_effect op l c = OK (tt, c') ->
    loop_stack c' = loop_stack c /\
    labels (bc c') = labels (bc c) /\
    const_table (bc c') = const_table (bc c) /\
    stk_ptr (bc c') = stk_ptr (bc c) + stack_effect op [] /\
    exists d, buf (bc c') = buf (bc c) ++ [Jmp op d] /\ jumps_to (bc c) l d.
Proof.
  intros se op l c c' H; unfold bc_jump, on_bc, Bytecode_jump in H.
  unfold jumps_to.
  destruct (nth_error (labels (bc c)) l) as [[off|]|]; inversion H; subst; clear H;
    simpl; repeat split; eauto.
Qed.

(* ================================================================== *)
(** ** Constructs in the part of a tree the compiler walks

    [expr_any P e] holds when [P] holds of [e] or of an expression below
    it, [stmt_any P Q s] when [Q] holds of [s] or of a statement below it,
    or [P] of an expression below it.  "Below" follows the walk of the
    compiler.  Of a dictionary display the walk takes the keys and values
    it pairs up ([zip]); of a comparison with one operator the left operand
    and the first comparator; a comparison with another number of
    operators is refused as a whole, with all it holds, and so is a call
    with keywords.  Of a function definition the walk takes the body: the
    decorators, the return annotation and the annotations of the
    parameters are not below the definition in this sense. *)

Definition option_any {A : Type} (f : A -> bool) (o : option A) : bool :=
  match o with Some a => f a | None => false end.

Fixpoint expr_any (P : ast.expr -> bool) (e : ast.expr) {struct e} : bool :=
  P e ||
  match e with
  | ast.Name _ _ | ast.Num _ | ast.Str _ | ast.Bytes _ => false
  | ast.Tuple elts _ | ast.List elts _ | ast.Set_ elts =>
      existsb (expr_any P) elts
  | ast.Dict keys values =>
      existsb (fun kv : bool * bool => fst kv || snd kv)
              (combine (map (expr_any P) keys) (map (expr_any P) values))
  | ast.Call func args keywords =>
      expr_any P func || existsb (expr_any P) args
      || existsb (fun kw => expr_any P (snd kw)) keywords
  | ast.BinOp l _ r => expr_any P l || expr_any P r
  | ast.UnaryOp _ e1 => expr_any P e1
  | ast.BoolOp _ values => existsb (expr_any P) values
  | ast.Compare l ops comparators =>
      expr_any P l
      || match ops with
         | [_] => match comparators with
                  | c0 :: _ => expr_any P c0
                  | [] => false
                  end
         | _ => existsb (expr_any P) comparators
         end
  | ast.Attribute v _ _ => expr_any P v
  end.

Fixpoint stmt_any (P : ast.expr -> bool) (Q : ast.stmt -> bool) (s : ast.stmt)
         {struct s} : bool :=
  Q s ||
  match s with
  | ast.FunctionDef _ _ body _ _ => existsb (stmt_any P Q) body
  | ast.Return value => option_any (expr_any P) value
  | ast.Assign targets value =>
      expr_any P value || existsb (expr_any P) targets
  | ast.AugAssign target _ value => expr_any P target || expr_any P value
  | ast.For target iter body orelse =>
      expr_any P iter || expr_any P target
      || existsb (stmt_any P Q) body || existsb (stmt_any P Q) orelse
  | ast.While test body orelse | ast.If test body orelse =>
      expr_any P test
      || existsb (stmt_any P Q) body || existsb (stmt_any P Q) orelse
  | ast.Expr value => expr_any P value
  | ast.Import _ | ast.ImportFrom _ _ _ | ast.Pass | ast.Break | ast.Continue =>
      false
  end.

Definition module_any (P : ast.expr -> bool) (Q : ast.stmt -> bool)
           (m : ast.mod_node) : bool :=
  let 'ast.Module body := m in existsb (stmt_any P Q) body.

(** The constructs outside the supported subset: a call with keyword
    arguments, a comparison with more than one operator, ... *)
Definition unsupported_expr (e : ast.expr) : bool :=
  match e with
  | ast.Call _ _ keywords => negb (is_nil keywords)
  | ast.Compare _ ops _ => (1 <? List.length ops)%nat
  | _ => false
  end.

(** ... and a function definition with variadic, keyword-only or default
    parameters. *)
Definition unsupported_params (a : ast.arguments) : bool :=
  negb (is_none (ast.vararg a))
  || negb (is_nil (ast.kwonlyargs a))
  || negb (is_nil (ast.kw_defaults a))
  || negb (is_none (ast.kwarg a))
  || negb (is_nil (ast.defaults a)).

Definition unsupported_stmt (s : ast.stmt) : bool :=
  match s with
  | ast.FunctionDef _ a _ _ _ => unsupported_params a
  | _ => false
  end.

(** A numeric literal whose value is not an integer. *)
Definition non_int_literal (e : ast.expr) : bool :=
  match e with
  | ast.Num (ast.PyInt _) => false
  | ast.Num _ => true
  | _ => false
  end.

(* ================================================================== *)
(** ** A rejected construct on the walk aborts the compilation *)

Lemma Exists_map_intro :
  forall (A B : Type) (f : A -> B) (Q : B -> Prop) (l : list A),
    Exists (fun x => Q (f x)) l -> Exists Q (map f l).
Proof.
  intros A B f Q l H; induction H; simpl; [left | right]; assumption.
Qed.

(** A key or a value that [zip] pairs up. *)
Lemma Exists_zip :
  forall (A : Type) (any : A -> bool) (visit : A -> M unit) (ks vs : list A),
    Forall (fun x => any x = true -> fails (visit x)) ks ->
    Forall (fun x => any x = true -> fails (visit x)) vs ->
    existsb (fun kv : bool * bool => fst kv || snd kv)
            (combine (map any ks) (map any vs)) = true ->
    Exists (fun kv : M unit * M unit => fails (fst kv) \/ fails (snd kv))
           (combine (map visit ks) (map visit vs)).
Proof.
  intros A any visit ks; induction ks as [|k ks IH]; intros [|v vs] Hk Hv H;
    simpl in *; try discriminate.
  inversion Hk; subst; inversion Hv; subst.
  apply orb_true_iff in H; destruct H as [H|H].
  - left; simpl; apply orb_true_iff in H; destruct H; auto.
  - right; apply IH; assumption.
Qed.

Lemma fails_lift_OK :
  forall (A B : Type) (a : A) (f : A -> M B),
    fails (f a) -> fails (bind (lift_res (OK a)) f).
Proof. intros A B a f H c; unfold bind, lift_res; apply H. Qed.

Lemma fails_lift_Err :
  forall (A B : Type) (e : exn) (f : A -> M B),
    fails (bind (lift_res (Err e)) f).
Proof. intros A B e f c; exists e; reflexivity. Qed.

(** [for v in l[:-1]: g(v)] followed by a use [h] of [l[-1]]: an action
    of [l] that fails makes the whole fail. *)
Lemma fails_init_last :
  forall (B : Type) (g : M unit -> M unit) (h : M unit -> M B)
         (acts : list (M unit)),
    (forall v, fails v -> fails (g v)) ->
    (forall v, fails v -> fails (h v)) ->
    Exists (fun v => fails v) acts ->
    fails (bind (foreach g (removelast acts))
                (fun _ => bind (lift_res (py_last acts)) h)).
Proof.
  intros B g h acts Hg Hh H.
  induction H as [v l Hv | v l Hl IH].
  - destruct l as [|w l].
    + simpl. apply fails_bind_r; intros ?.
      apply fails_lift_OK, Hh, Hv.
    + change (removelast (v :: w :: l)) with (v :: removelast (w :: l)).
      simpl foreach. apply fails_bind_l, fails_bind_l, Hg, Hv.
  - destruct l as [|w l]; [inversion Hl|].
    change (removelast (v :: w :: l)) with (v :: removelast (w :: l)).
    change (py_last (v :: w :: l)) with (py_last (w :: l)).
    simpl foreach.
    intro c. rewrite bind_assoc. revert c.
    apply fails_bind_r; intros ?. exact IH.
Qed.

Lemma fails_suite_loop :
  forall (visit : ast.stmt -> M unit) lst,
    Exists (fun x => fails (visit x)) lst ->
    forall s0, fails (suite_loop visit s0 lst).
Proof.
  intros visit lst H; induction H as [x l Hx | x l _ IH]; intros s0; simpl.
  - apply fails_bind_r; intros ?. apply fails_bind_l, Hx.
  - repeat (apply fails_bind_r; intros ?). apply IH.
Qed.

Lemma len_two_more :
  forall (A : Type) (x y : A) (l : list A), (len (x :: y :: l) =? 1) = false.
Proof. intros; unfold len; simpl List.length; apply Z.eqb_neq; lia. Qed.

Section Rejection.

Context {T : Type} {ST : SymbolTable T}.
Variable stack_effect : opcode -> list const -> Z.
Variable symtab_map : scope_node -> option T.
Variable filename : string.

Variable P : ast.expr -> bool.
Variable Q : ast.stmt -> bool.

Hypothesis P_fails :
  forall e symtab, P e = true -> fails (visit_expr stack_effect symtab e).
Hypothesis Q_fails :
  forall s symtab,
    Q s = true -> fails (visit_stmt stack_effect symtab_map filename symtab s).

Lemma children_fail :
  forall (A : Type) (visit : A -> M unit) (any : A -> bool) (l : list A),
    Forall (fun x => any x = true -> fails (visit x)) l ->
    existsb any l = true ->
    Exists (fun x => fails (visit x)) l.
Proof.
  intros A visit any l H; induction H as [|x l Hx _ IH]; simpl; intros Ha.
  - discriminate.
  - apply orb_true_iff in Ha; destruct Ha as [Ha|Ha]; [left | right]; auto.
Qed.

Lemma expr_any_fails :
  forall e symtab,
    expr_any P e = true -> fails (visit_expr stack_effect symtab e).
Proof.
  intros e symtab; induction e using expr_induction; intros Hany;
    simpl in Hany; apply orb_true_iff in Hany;
    (destruct Hany as [Hp|Hc]; [apply P_fails; exact Hp|]);
    simpl visit_expr; try discriminate.
  - (* Tuple *)
    unfold visit_Tuple; apply fails_bind_l, fails_foreach.
    eapply children_fail; eauto.
  - (* List *)
    unfold visit_List; apply fails_bind_l, fails_foreach.
    eapply children_fail; eauto.
  - (* Set *)
    unfold visit_Set; apply fails_bind_l, fails_foreach.
    eapply children_fail; eauto.
  - (* Dict *)
    unfold visit_Dict; apply fails_bind_r; intros ?; apply fails_foreach.
    eapply Exists_impl; [| eapply Exists_zip; eassumption].
    intros [k v] [Hk|Hv]; simpl in *.
    + apply fails_bind_r; intros ?; apply fails_bind_l, Hk.
    + apply fails_bind_l, Hv.
  - (* Call *)
    unfold visit_Call.
    apply orb_true_iff in Hc; destruct Hc as [Hc|Hk].
    + apply fails_bind_r; intros ?.
      apply orb_true_iff in Hc; destruct Hc as [Hc|Hc].
      * apply fails_bind_l; auto.
      * apply fails_bind_r; intros ?; apply fails_bind_l, fails_foreach.
        eapply children_fail; eauto.
    + destruct keywords; [discriminate|].
      apply fails_bind_l, fails_assert_false.
  - (* BinOp *)
    unfold visit_BinOp.
    apply orb_true_iff in Hc; destruct Hc as [Hc|Hc].
    + apply fails_bind_l; auto.
    + apply fails_bind_r; intros ?; apply fails_bind_l; auto.
  - (* UnaryOp *)
    unfold visit_UnaryOp; apply fails_bind_l; auto.
  - (* BoolOp *)
    unfold visit_BoolOp; apply fails_bind_r; intros join_l.
    apply fails_init_last.
    + intros v Hv; apply fails_bind_l, Hv.
    + intros v Hv; apply fails_bind_l, Hv.
    + apply Exists_map_intro; eapply children_fail; eauto.
  - (* Compare *)
    unfold visit_Compare.
    destruct ops as [|o [|o2 ops]].
    + apply fails_bind_l, fails_assert_false.
    + apply fails_bind_r; intros ?.
      apply orb_true_iff in Hc; destruct Hc as [Hc|Hc].
      * apply fails_bind_l; auto.
      * apply fails_bind_r; intros ?.
        destruct comparators as [|c0 cs]; [discriminate|].
        inversion H; subst.
        simpl map; simpl py_first.
        apply fails_lift_OK, fails_bind_l; auto.
    + rewrite len_two_more. apply fails_bind_l, fails_assert_false.
  - (* Attribute *)
    unfold generic_visit_Attribute; auto.
Qed.

(** [_visit_with_load_ctx] visits the node with its context set to [Load]
    and hands the node back as it received it. *)
Lemma visit_with_load_ctx_restores :
  forall (visit : ast.expr -> M unit) node c node1 c1,
    _visit_with_load_ctx visit node c = OK (node1, c1) ->
    node1 = node /\ visit (ast.set_ctx node ast.Load) c = OK (tt, c1).
Proof.
  intros visit node c node1 c1 H; unfold _visit_with_load_ctx in H.
  apply bind_OK in H; destruct H as (ctx & c0 & H1 & H2).
  apply lift_res_OK in H1; destruct H1 as (x & Hx & He).
  inversion He; subst ctx c0; clear He.
  apply bind_OK in H2; destruct H2 as ([] & c2 & Hv & H3).
  inversion H3; subst c2; clear H3.
  split; [|exact Hv].
  destruct node; simpl in Hx; try discriminate; inversion Hx; reflexivity.
Qed.

Ltac fails_search :=
  first [ assumption
        | apply fails_bind_l; assumption
        | apply fails_bind_r; intros ?; fails_search ].

Lemma suite_fails :
  forall symtab lst,
    Forall (fun s => forall symtab,
                stmt_any P Q s = true ->
                fails (visit_stmt stack_effect symtab_map filename symtab s)) lst ->
    existsb (stmt_any P Q) lst = true ->
    fails (_visit_suite (visit_stmt stack_effect symtab_map filename symtab) lst).
Proof.
  intros symtab lst H Ha; unfold _visit_suite.
  apply fails_suite_loop.
  eapply children_fail; [| exact Ha].
  eapply Forall_impl; [| exact H]; simpl; auto.
Qed.

Lemma stmt_any_fails :
  forall s symtab,
    stmt_any P Q s = true ->
    fails (visit_stmt stack_effect symtab_map filename symtab s).
Proof.
  induction s using stmt_induction; intros symtab Hany;
    simpl in Hany; apply orb_true_iff in Hany;
    (destruct Hany as [Hq|Hc]; [apply Q_fails; exact Hq|]);
    simpl visit_stmt; try discriminate.
  - (* FunctionDef *)
    unfold _visit_function, function_codeobj.
    apply fails_bind_r; intros ?. apply fails_bind_r; intros ?.
    apply fails_bind_l.
    apply fails_bind_r; intros ?. apply fails_bind_r; intros t.
    pose proof (suite_fails t H Hc).
    fails_search.
  - (* Return *)
    unfold visit_Return; destruct value as [e|]; [|discriminate].
    apply fails_bind_l, expr_any_fails; assumption.
  - (* Assign *)
    unfold visit_Assign.
    apply orb_true_iff in Hc; destruct Hc as [Hc|Hc].
    + apply fails_bind_l, expr_any_fails; assumption.
    + apply fails_bind_r; intros ?.
      apply fails_init_last.
      * intros v Hv; apply fails_bind_r; intros ?; exact Hv.
      * intros v Hv; exact Hv.
      * apply Exists_map_intro.
        eapply (@children_fail _ _ (expr_any P)); [| exact Hc].
        apply Forall_forall; intros e _; apply expr_any_fails.
  - (* AugAssign *)
    apply fails_bind_l; unfold visit_AugAssign.
    apply orb_true_iff in Hc; destruct Hc as [Hc|Hc].
    + pose proof (expr_any_fails target symtab Hc) as Ht.
      intro c; unfold bind at 1.
      destruct (_visit_with_load_ctx (visit_expr stack_effect symtab) target c)
        as [[t1 c1]|e] eqn:E; [|exists e; reflexivity].
      apply visit_with_load_ctx_restores in E; destruct E as [-> _].
      revert c1; fails_search.
    + pose proof (expr_any_fails value symtab Hc) as Hv.
      fails_search.
  - (* For *)
    unfold visit_For.
    apply orb_true_iff in Hc; destruct Hc as [Hc|Hc];
      [apply orb_true_iff in Hc; destruct Hc as [Hc|Hc];
       [apply orb_true_iff in Hc; destruct Hc as [Hc|Hc]|]|].
    + pose proof (expr_any_fails iter symtab Hc); fails_search.
    + pose proof (expr_any_fails target symtab Hc); fails_search.
    + pose proof (suite_fails symtab H Hc); fails_search.
    + pose proof (suite_fails symtab H0 Hc); fails_search.
  - (* While *)
    unfold visit_While.
    apply orb_true_iff in Hc; destruct Hc as [Hc|Hc];
      [apply orb_true_iff in Hc; destruct Hc as [Hc|Hc]|].
    + pose proof (expr_any_fails test symtab Hc); fails_search.
    + pose proof (suite_fails symtab H Hc); fails_search.
    + pose proof (suite_fails symtab H0 Hc); fails_search.
  - (* If *)
    unfold visit_If.
    apply orb_true_iff in Hc; destruct Hc as [Hc|Hc];
      [apply orb_true_iff in Hc; destruct Hc as [Hc|Hc]|].
    + pose proof (expr_any_fails test symtab Hc); fails_search.
    + pose proof (suite_fails symtab H Hc).
      apply fails_bind_r; intros ?. apply fails_bind_r; intros ?.
      apply fails_bind_l.
      destruct (negb (is_nil orelse)); fails_search.
    + pose proof (suite_fails symtab H0 Hc).
      apply fails_bind_r; intros ?. apply fails_bind_r; intros ?.
      apply fails_bind_l.
      destruct orelse; [discriminate|]; simpl negb; cbv iota.
      fails_search.
  - (* Expr *)
    unfold visit_Expr; apply fails_bind_l, expr_any_fails; assumption.
Qed.

Lemma module_any_fails :
  forall tree,
    module_any P Q tree = true ->
    is_err (compile_ast stack_effect symtab_map filename tree).
Proof.
  intros [body] Hany; simpl in Hany.
  assert (F : fails (visit_Module stack_effect symtab_map filename (ast.Module body))).
  { unfold visit_Module.
    apply fails_bind_r; intros t. apply fails_bind_r; intros ?.
    apply fails_bind_l. apply suite_fails; auto.
    apply Forall_forall; intros s _ t'; apply stmt_any_fails. }
  unfold compile_ast.
  destruct (F (Compiler_init)) as [e He]; rewrite He.
  exists e; reflexivity.
Qed.

End Rejection.

(* ================================================================== *)
(** ** The code a visit emits *)

Unset Implicit Arguments.

(** [emits m c code c']: the action [m] runs from [c] to [c'] and appends
    exactly [code] to the instruction buffer. *)
Definition emits {A : Type} (m : M A) (c : Compiler) (code : list instr)
           (c' : Compiler) : Prop :=
  (exists a, m c = OK (a, c')) /\ buf (bc c') = buf (bc c) ++ code.

Lemma keeps_emits :
  forall (A : Type) (m : M A) c a c',
    keeps 0 m -> m c = OK (a, c') -> exists code, emits m c code c'.
Proof.
  intros A m c a c' K H.
  destruct (frame_buf (K c a c' (Nat.le_0_l _) H)) as [code Hc].
  exists code; split; eauto.
Qed.

Lemma pool_operand_inplace :
  forall op, pool_operand (inplaceop_map op) = false.
Proof. destruct op; reflexivity. Qed.

Lemma bc_add_noargs :
  forall stack_effect op c,
    pool_operand op = false ->
    bc_add stack_effect op [] c
    = OK (tt, {| loop_stack := loop_stack c;
                 bc := emit (Ins op []) (stack_effect op []) (bc c) |}).
Proof.
  intros se op c H; unfold bc_add, on_bc, Bytecode_add; rewrite H; reflexivity.
Qed.

Lemma bc_get_label_OK :
  forall c l c1,
    bc_get_label c = OK (l, c1) ->
    l = List.length (labels (bc c)) /\
    loop_stack c1 = loop_stack c /\
    buf (bc c1) = buf (bc c) /\
    labels (bc c1) = labels (bc c) ++ [None] /\
    stk_ptr (bc c1) = stk_ptr (bc c).
Proof.
  unfold bc_get_label, Bytecode_get_label; intros c l c1 H.
  inversion H; subst; simpl; auto.
Qed.

Lemma bc_put_label_OK :
  forall l c c1,
    bc_put_label l c = OK (tt, c1) ->
    nth_error (labels (bc c)) l = Some None /\
    loop_stack c1 = loop_stack c /\
    buf (bc c1) = buf (bc c) /\
    labels (bc c1) = list_set (labels (bc c)) l (Some (List.length (buf (bc c)))) /\
    stk_ptr (bc c1) = stk_ptr (bc c).
Proof.
  unfold bc_put_label, on_bc, Bytecode_put_label; intros l c c1 H.
  destruct (nth_error (labels (bc c)) l) as [[off|]|]; inversion H; subst; simpl; auto.
Qed.

(* ================================================================== *)
(** ** Properties of the code generator *)

Section Claims.

Context {T : Type} {ST : SymbolTable T}.
Variable stack_effect : opcode -> list const -> Z.
Variable symtab_map : scope_node -> option T.
Variable filename : string.

Local Notation visit_s := (visit_stmt stack_effect symtab_map filename).
Local Notation visit_e := (visit_expr stack_effect).

(** C1.  In a suite that compiles, every statement leaves the simulated
    stack depth [stk_ptr] as it found it; the check is made after each
    statement, and a statement that compiles with another net effect aborts
    the compilation of the suite with an assertion failure. *)
Theorem suite_statement_zero_net_stack_effect :
  forall symtab pre s post c,
    (forall r c',
        _visit_suite (visit_s symtab) (pre ++ s :: post) c = OK (r, c') ->
        exists r1 c1 c2,
          _visit_suite (visit_s symtab) pre c = OK (r1, c1) /\
          visit_s symtab s c1 = OK (tt, c2) /\
          stk_ptr (bc c2) = stk_ptr (bc c1) /\
          suite_loop (visit_s symtab) (Some s) post c2 = OK (r, c')) /\
    (forall r1 c1 c2,
        _visit_suite (visit_s symtab) pre c = OK (r1, c1) ->
        visit_s symtab s c1 = OK (tt, c2) ->
        stk_ptr (bc c2) <> stk_ptr (bc c1) ->
        _visit_suite (visit_s symtab) (pre ++ s :: post) c = Err AssertionError).
Proof.
  intros symtab pre s post c; unfold _visit_suite; split.
  - intros r c' H.
    rewrite suite_loop_app in H.
    apply bind_OK in H; destruct H as (r1 & c1 & Hpre & Hs).
    exists r1, c1.
    destruct (visit_s symtab s c1) as [[[] c2]|e] eqn:E.
    + rewrite (@suite_loop_step _ _ post r1 _ _ E) in Hs.
      destruct (stk_ptr (bc c2) =? stk_ptr (bc c1)) eqn:Q; [|discriminate].
      apply Z.eqb_eq in Q. exists c2; auto.
    + simpl in Hs. unfold bind at 1 in Hs; unfold get_stk_ptr at 1 in Hs.
      unfold bind at 1 in Hs; rewrite E in Hs; discriminate.
  - intros r1 c1 c2 Hpre Hs Hne.
    rewrite suite_loop_app, (@bind_OK_l _ _ _ _ _ _ _ Hpre).
    rewrite (@suite_loop_step _ _ post r1 _ _ Hs).
    apply Z.eqb_neq in Hne; rewrite Hne; reflexivity.
Qed.

(** *** Integer literals *)

Lemma bc_load_int_small :
  forall i c,
    Z.abs i < 2 ^ 30 ->
    bc_load_int stack_effect i c
    = OK (tt, {| loop_stack := loop_stack c;
                 bc := emit (Ins LOAD_CONST_SMALL_INT [OInt i])
                            (stack_effect LOAD_CONST_SMALL_INT [CInt i]) (bc c) |}).
Proof.
  intros i c H; unfold bc_load_int, on_bc, Bytecode_load_int.
  apply Z.ltb_lt in H; rewrite H; reflexivity.
Qed.

(** C2, as the code has it.  An integer literal [i] with
    [-2^30 < i < 2^30 - 1] is emitted by [load_int], as one inline-immediate
    instruction and without a pool entry; an integer literal of magnitude
    [2^30] or more is not emitted at all: the visit fails its assertion. *)
Theorem int_literal_small_or_rejected :
  forall i symtab c,
    (- 2 ^ 30 < i < 2 ^ 30 - 1 ->
     visit_e symtab (ast.Num (ast.PyInt i)) c = bc_load_int stack_effect i c /\
     bc_load_int stack_effect i c
     = OK (tt, {| loop_stack := loop_stack c;
                  bc := emit (Ins LOAD_CONST_SMALL_INT [OInt i])
                             (stack_effect LOAD_CONST_SMALL_INT [CInt i]) (bc c) |})) /\
    (2 ^ 30 <= Z.abs i ->
     visit_e symtab (ast.Num (ast.PyInt i)) c = Err AssertionError).
Proof.
  intros i symtab c.
  change (visit_e symtab (ast.Num (ast.PyInt i)) c)
    with (bind (assert_ ((- 2 ^ 30 <? i) && (i <? 2 ^ 30 - 1)))
               (fun _ => bc_load_int stack_effect i) c).
  split; intros H.
  - assert (Hb : (- 2 ^ 30 <? i) && (i <? 2 ^ 30 - 1) = true).
    { apply andb_true_iff; split; apply Z.ltb_lt; lia. }
    rewrite Hb; split; [reflexivity|].
    apply bc_load_int_small; lia.
  - assert (Hb : (- 2 ^ 30 <? i) && (i <? 2 ^ 30 - 1) = false).
    { apply andb_false_iff.
      destruct (Z.le_ge_cases 0 i);
        [right | left]; apply Z.ltb_ge; lia. }
    rewrite Hb; reflexivity.
Qed.

(** *** Non-integer literals and unsupported constructs *)

Lemma non_int_literal_fails :
  forall e symtab, non_int_literal e = true -> fails (visit_e symtab e).
Proof.
  intros e symtab H c; destruct e; try discriminate.
  destruct n; try discriminate; exists AssertionError; reflexivity.
Qed.

Lemma unsupported_expr_fails :
  forall e symtab, unsupported_expr e = true -> fails (visit_e symtab e).
Proof.
  intros e symtab H; destruct e; try discriminate; simpl in *.
  - unfold visit_Call. destruct keywords; [discriminate|].
    apply fails_bind_l, fails_assert_false.
  - unfold visit_Compare. destruct ops as [|o [|o2 ops]]; try discriminate.
    rewrite len_two_more. apply fails_bind_l, fails_assert_false.
Qed.

Lemma unsupported_params_fail :
  forall a, unsupported_params a = true -> fails (unsupported_args a).
Proof.
  intros [xs va ko kd kw df]; unfold unsupported_params, unsupported_args; simpl.
  intros H.
  destruct va; [apply fails_bind_l, fails_assert_false|].
  apply fails_bind_r; intros ?.
  destruct ko; [|apply fails_bind_l, fails_assert_false].
  apply fails_bind_r; intros ?.
  destruct kd; [|apply fails_bind_l, fails_assert_false].
  apply fails_bind_r; intros ?.
  destruct kw; [apply fails_bind_l, fails_assert_false|].
  apply fails_bind_r; intros ?.
  destruct df; [discriminate | apply fails_assert_false].
Qed.

Lemma unsupported_stmt_fails :
  forall s symtab, unsupported_stmt s = true -> fails (visit_s symtab s).
Proof.
  intros s symtab H; destruct s; try discriminate; simpl in *.
  unfold _visit_function. apply fails_bind_l, unsupported_params_fail, H.
Qed.

(** C7, as the code has it.  A module in which the walk of the compiler
    meets a function definition with variadic, keyword-only or default
    parameters, a call with keyword arguments, or a comparison with more
    than one operator does not compile: [compile_ast] raises and returns
    no code object.  The walk leaves out the decorators, the return
    annotation and the parameter annotations of a function definition
    ([module_any]). *)
Theorem unsupported_construct_aborts :
  forall tree,
    module_any unsupported_expr unsupported_stmt tree = true ->
    is_err (compile_ast stack_effect symtab_map filename tree).
Proof.
  intros tree Hany.
  apply module_any_fails with (P := unsupported_expr) (Q := unsupported_stmt);
    auto using unsupported_expr_fails, unsupported_stmt_fails.
Qed.

(** C10, as the code has it.  The visit of a numeric literal whose value
    is not an integer fails its assertion, from every state, so that
    nothing is emitted for it; and a module in which the walk of the
    compiler meets such a literal does not compile.  The walk leaves out
    the decorators, the return annotation and the parameter annotations of
    a function definition ([module_any]). *)
Theorem non_integer_literal_aborts :
  (forall n symtab c,
      non_int_literal (ast.Num n) = true ->
      visit_e symtab (ast.Num n) c = Err AssertionError) /\
  (forall tree,
      module_any non_int_literal (fun _ => false) tree = true ->
      is_err (compile_ast stack_effect symtab_map filename tree)).
Proof.
  split.
  - intros n symtab c H; destruct n; [discriminate | reflexivity | reflexivity].
  - intros tree Hany.
    apply module_any_fails with (P := non_int_literal) (Q := fun _ => false);
      auto using non_int_literal_fails.
    discriminate.
Qed.

(** *** Break and continue *)

(** C3.  A [break] whose innermost loop context is a [for] loop appends
    four [POP_TOP] and then the jump to the break target, and [stk_ptr]
    after the four [POP_TOP] is what it was before them; under a [while]
    loop it appends the jump alone. *)
Theorem break_pops_four_in_for_none_in_while :
  forall symtab c ls cont brk kind c',
    loop_stack c = ls ++ [(cont, brk, kind)] ->
    visit_s symtab ast.Break c = OK (tt, c') ->
    (kind = "for" ->
     exists b1 d,
       buf b1 = buf (bc c) ++ [Ins POP_TOP []; Ins POP_TOP [];
                               Ins POP_TOP []; Ins POP_TOP []] /\
       stk_ptr b1 = stk_ptr (bc c) /\
       bc_jump stack_effect JUMP brk {| loop_stack := loop_stack c; bc := b1 |}
       = OK (tt, c') /\
       buf (bc c') = buf b1 ++ [Jmp JUMP d] /\
       jumps_to (bc c) brk d) /\
    (kind = "while" ->
     exists d,
       bc_jump stack_effect JUMP brk c = OK (tt, c') /\
       buf (bc c') = buf (bc c) ++ [Jmp JUMP d] /\
       jumps_to (bc c) brk d).
Proof.
  intros symtab c ls cont brk kind c' Hls Hrun; simpl in Hrun.
  rewrite (@visit_Break_eq stack_effect c _ _ _ _ Hls) in Hrun.
  split; intros ->; simpl in Hrun.
  - exists (break_pops stack_effect (bc c)).
    destruct (@bc_jump_buf _ _ _ _ _ Hrun) as (_ & _ & _ & _ & d & Hd & Hj).
    exists d; simpl in *; repeat split; auto.
    rewrite <- !app_assoc; reflexivity.
  - destruct (@bc_jump_buf _ _ _ _ _ Hrun) as (_ & _ & _ & _ & d & Hd & Hj).
    exists d; auto.
Qed.

(** C8.  With an empty loop-context stack [break] and [continue] fail
    their assertion.  Otherwise they jump to the targets of the innermost
    frame, the last one pushed: [continue] to its continue target, [break]
    to its break target. *)
Theorem break_continue_use_innermost_loop :
  forall symtab c,
    (loop_stack c = [] ->
     visit_s symtab ast.Break c = Err AssertionError /\
     visit_s symtab ast.Continue c = Err AssertionError) /\
    (forall ls cont brk kind c',
        loop_stack c = ls ++ [(cont, brk, kind)] ->
        (visit_s symtab ast.Continue c = OK (tt, c') ->
         exists d, buf (bc c') = buf (bc c) ++ [Jmp JUMP d] /\
                   jumps_to (bc c) cont d) /\
        (visit_s symtab ast.Break c = OK (tt, c') ->
         exists pops d, buf (bc c') = buf (bc c) ++ pops ++ [Jmp JUMP d] /\
                        jumps_to (bc c) brk d)).
Proof.
  intros symtab c; split.
  - intros H; split; simpl;
      [apply visit_Break_empty | apply visit_Continue_empty]; exact H.
  - intros ls cont brk kind c' Hls; split; simpl; intros Hrun.
    + rewrite (@visit_Continue_eq stack_effect c _ _ _ _ Hls) in Hrun.
      destruct (@bc_jump_buf _ _ _ _ _ Hrun) as (_ & _ & _ & _ & d & Hd & Hj).
      exists d; auto.
    + rewrite (@visit_Break_eq stack_effect c _ _ _ _ Hls) in Hrun.
      destruct (String.eqb kind "for").
      * destruct (@bc_jump_buf _ _ _ _ _ Hrun) as (_ & _ & _ & _ & d & Hd & Hj).
        exists [Ins POP_TOP []; Ins POP_TOP []; Ins POP_TOP []; Ins POP_TOP []], d.
        simpl in *; split; auto.
        rewrite Hd, <- !app_assoc; reflexivity.
      * destruct (@bc_jump_buf _ _ _ _ _ Hrun) as (_ & _ & _ & _ & d & Hd & Hj).
        exists [], d; auto.
Qed.

(** *** What the visits emit *)

Lemma visit_expr_emits :
  forall symtab e c a c',
    visit_e symtab e c = OK (a, c') ->
    exists code, emits (visit_e symtab e) c code c'.
Proof.
  intros; eapply keeps_emits; [apply keeps_visit_expr | eassumption].
Qed.

Lemma keeps_suite :
  forall symtab lst n, keeps n (_visit_suite (visit_s symtab) lst).
Proof.
  intros; apply keeps_visit_suite; intros; apply keeps_visit_stmt.
Qed.

Lemma visit_suite_emits :
  forall symtab lst c a c',
    _visit_suite (visit_s symtab) lst c = OK (a, c') ->
    exists code, emits (_visit_suite (visit_s symtab) lst) c code c'.
Proof.
  intros; eapply keeps_emits; [apply keeps_suite | eassumption].
Qed.

(** *** Augmented assignment *)

(** Modelled from the spec: the node [t] in load context, that is the same
    node with [Load] for its context attribute; only names, attributes,
    tuples and lists have one. *)
Inductive in_load_context : ast.expr -> ast.expr -> Prop :=
| load_Name : forall id ctx,
    in_load_context (ast.Name id ctx) (ast.Name id ast.Load)
| load_Attribute : forall value attr ctx,
    in_load_context (ast.Attribute value attr ctx)
                    (ast.Attribute value attr ast.Load)
| load_Tuple : forall elts ctx,
    in_load_context (ast.Tuple elts ctx) (ast.Tuple elts ast.Load)
| load_List : forall elts ctx,
    in_load_context (ast.List elts ctx) (ast.List elts ast.Load).

(** Modelled from the spec: the in-place opcode that corresponds to a
    binary operator, the one of the same operation. *)
Inductive corresponding_inplace : ast.operator -> opcode -> Prop :=
| inplace_Add : corresponding_inplace ast.Add INPLACE_ADD
| inplace_Sub : corresponding_inplace ast.Sub INPLACE_SUBTRACT
| inplace_Mult : corresponding_inplace ast.Mult INPLACE_MULTIPLY
| inplace_MatMult : corresponding_inplace ast.MatMult INPLACE_MAT_MULTIPLY
| inplace_Div : corresponding_inplace ast.Div INPLACE_TRUE_DIVIDE
| inplace_FloorDiv : corresponding_inplace ast.FloorDiv INPLACE_FLOOR_DIVIDE
| inplace_Mod : corresponding_inplace ast.Mod INPLACE_MODULO
| inplace_Pow : corresponding_inplace ast.Pow INPLACE_POWER
| inplace_LShift : corresponding_inplace ast.LShift INPLACE_LSHIFT
| inplace_RShift : corresponding_inplace ast.RShift INPLACE_RSHIFT
| inplace_BitAnd : corresponding_inplace ast.BitAnd INPLACE_AND
| inplace_BitOr : corresponding_inplace ast.BitOr INPLACE_OR
| inplace_BitXor : corresponding_inplace ast.BitXor INPLACE_XOR.

Lemma visit_with_load_ctx_node :
  forall (visit : ast.expr -> M unit) node c node1 c1,
    _visit_with_load_ctx visit node c = OK (node1, c1) ->
    in_load_context node (ast.set_ctx node ast.Load).
Proof.
  intros visit node c node1 c1 H; unfold _visit_with_load_ctx in H.
  apply bind_OK in H; destruct H as (ctx & c0 & H1 & _).
  apply lift_res_OK in H1; destruct H1 as (x & Hx & _).
  destruct node; simpl in Hx; try discriminate; constructor.
Qed.

(** C9.  An augmented assignment [target op= value] emits the target in
    load context, the value, the in-place opcode that corresponds to [op]
    and the target as the node has it (its store context), in this order;
    the target node the statement leaves is the node it received, context
    included. *)
Theorem augassign_load_value_op_store :
  forall symtab target op value c c',
    visit_s symtab (ast.AugAssign target op value) c = OK (tt, c') ->
    exists target_load inplace_op target1 code_load code_value code_store
           c1 c2 c3,
      in_load_context target target_load /\
      corresponding_inplace op inplace_op /\
      visit_AugAssign stack_effect (visit_e symtab) target op value c
      = OK (target1, c') /\
      target1 = target /\
      ast.get_ctx target1 = ast.get_ctx target /\
      emits (visit_e symtab target_load) c code_load c1 /\
      emits (visit_e symtab value) c1 code_value c2 /\
      bc_add stack_effect inplace_op [] c2 = OK (tt, c3) /\
      emits (visit_e symtab target) c3 code_store c' /\
      buf (bc c') = buf (bc c) ++ code_load ++ code_value
                    ++ [Ins inplace_op []] ++ code_store.
Proof.
  intros symtab target op value c c' H; simpl in H.
  apply bind_OK in H; destruct H as (t1 & c4 & H & Hret).
  inversion Hret; subst c4; clear Hret.
  pose proof H as Hrun. unfold visit_AugAssign in H.
  apply bind_OK in H; destruct H as (t1' & c1 & Hload & H).
  pose proof (visit_with_load_ctx_node _ _ _ _ _ Hload) as Hctx.
  apply visit_with_load_ctx_restores in Hload; destruct Hload as [-> Hload].
  apply bind_OK in H; destruct H as ([] & c2 & Hval & H).
  apply bind_OK in H; destruct H as ([] & c3 & Hop & H).
  apply bind_OK in H; destruct H as ([] & c5 & Hstore & Hret).
  inversion Hret; subst t1 c5; clear Hret.
  destruct (visit_expr_emits _ _ _ _ _ Hload) as [code_load El].
  destruct (visit_expr_emits _ _ _ _ _ Hval) as [code_value Ev].
  destruct (visit_expr_emits _ _ _ _ _ Hstore) as [code_store Es].
  exists (ast.set_ctx target ast.Load), (inplaceop_map op), target,
         code_load, code_value, code_store, c1, c2, c3.
  split; [exact Hctx|].
  split; [destruct op; constructor|].
  repeat split; try assumption; try reflexivity;
    try (eexists; eassumption); try apply El; try apply Ev; try apply Es.
  rewrite (bc_add_noargs stack_effect _ c2 (pool_operand_inplace op)) in Hop.
  inversion Hop; subst c3; clear Hop.
  destruct El as [_ El], Ev as [_ Ev], Es as [_ Es]; simpl in *.
  rewrite Es, Ev, El, <- !app_assoc; reflexivity.
Qed.

(** *** Chained assignment *)

(** The targets of a chained assignment but the last: each is emitted
    after one [DUP_TOP]; [codes] lists what each target's visit emitted. *)
Inductive dup_and_store (symtab : T)
  : list ast.expr -> Compiler -> list (list instr) -> Compiler -> Prop :=
| das_nil : forall c, dup_and_store symtab [] c [] c
| das_cons :
    forall t ts c c1 c2 c3 code codes,
      bc_add stack_effect DUP_TOP [] c = OK (tt, c1) ->
      buf (bc c1) = buf (bc c) ++ [Ins DUP_TOP []] ->
      emits (visit_e symtab t) c1 code c2 ->
      dup_and_store symtab ts c2 codes c3 ->
      dup_and_store symtab (t :: ts) c (code :: codes) c3.

Lemma foreach_dup_and_store :
  forall symtab ts c c',
    foreach (fun t : M unit => bind (bc_add stack_effect DUP_TOP []) (fun _ => t))
            (map (visit_e symtab) ts) c = OK (tt, c') ->
    exists codes,
      dup_and_store symtab ts c codes c' /\
      List.length codes = List.length ts /\
      buf (bc c') = buf (bc c) ++ flat_map (fun code => Ins DUP_TOP [] :: code) codes.
Proof.
  intros symtab ts; induction ts as [|t ts IH]; intros c c' H; simpl in H.
  - inversion H; subst. exists []; simpl; repeat split.
    + constructor.
    + rewrite app_nil_r; reflexivity.
  - apply bind_OK in H; destruct H as ([] & c2 & Hhead & Htail).
    apply bind_OK in Hhead; destruct Hhead as ([] & c1 & Hdup & Ht).
    destruct (visit_expr_emits _ _ _ _ _ Ht) as [code Et].
    destruct (IH _ _ Htail) as (codes & Hrel & Hlen & Hbuf).
    pose proof Hdup as Hdup'.
    rewrite (bc_add_noargs stack_effect DUP_TOP c eq_refl) in Hdup'.
    inversion Hdup'; clear Hdup'.
    assert (B1 : buf (bc c1) = buf (bc c) ++ [Ins DUP_TOP []])
      by (subst c1; reflexivity).
    exists (code :: codes); repeat split.
    + econstructor; eassumption.
    + simpl; congruence.
    + destruct Et as [_ Et]. simpl flat_map.
      rewrite Hbuf, Et, B1, <- !app_assoc; reflexivity.
Qed.

(** C6.  A chained assignment [t1 = ... = tn = last = value] emits the
    value once, then each target but the last after one [DUP_TOP], then the
    last target with no [DUP_TOP] before it; every target is visited as
    the node has it, in its store context. *)
Theorem chained_assign_dup_per_target :
  forall symtab init last value c c',
    visit_s symtab (ast.Assign (init ++ [last]) value) c = OK (tt, c') ->
    exists code_value codes code_last c1 c2,
      emits (visit_e symtab value) c code_value c1 /\
      dup_and_store symtab init c1 codes c2 /\
      List.length codes = List.length init /\
      emits (visit_e symtab last) c2 code_last c' /\
      buf (bc c') = buf (bc c) ++ code_value
                    ++ flat_map (fun code => Ins DUP_TOP [] :: code) codes
                    ++ code_last.
Proof.
  intros symtab init last value c c' H; simpl in H; unfold visit_Assign in H.
  rewrite map_app in H; simpl map in H.
  rewrite removelast_last, py_last_app in H.
  apply bind_OK in H; destruct H as ([] & c1 & Hval & H).
  apply bind_OK in H; destruct H as ([] & c2 & Hinit & H).
  apply bind_OK in H; destruct H as (act & c3 & Hact & Hlast).
  inversion Hact; subst act c3; clear Hact.
  destruct (visit_expr_emits _ _ _ _ _ Hval) as [code_value Ev].
  destruct (visit_expr_emits _ _ _ _ _ Hlast) as [code_last El].
  destruct (foreach_dup_and_store _ _ _ _ Hinit) as (codes & Hrel & Hlen & Hbuf).
  exists code_value, codes, code_last, c1, c2; repeat split;
    try assumption; try (eexists; eassumption);
    try apply Ev; try apply El.
  destruct Ev as [_ Ev], El as [_ El].
  rewrite El, Hbuf, Ev, <- !app_assoc; reflexivity.
Qed.

(** *** For loops *)

Lemma nth_error_two_fresh :
  forall (A : Type) (l : list A) (a b : A),
    nth_error ((l ++ [a]) ++ [b]) (List.length l) = Some a /\
    nth_error ((l ++ [a]) ++ [b]) (S (List.length l)) = Some b.
Proof. induction l as [|x l IH]; intros a b; simpl; auto. Qed.

Lemma visit_expr_frame :
  forall symtab e c a c' n,
    (n <= List.length (labels (bc c)))%nat ->
    visit_e symtab e c = OK (a, c') -> frame n c c'.
Proof. intros; eapply keeps_visit_expr; eassumption. Qed.

Lemma visit_suite_frame :
  forall symtab lst c a c' n,
    (n <= List.length (labels (bc c)))%nat ->
    _visit_suite (visit_s symtab) lst c = OK (a, c') -> frame n c c'.
Proof. intros; eapply keeps_suite; eassumption. Qed.

(** C4.  A [for] statement emits, in this order: the iterable;
    [GET_ITER_STACK]; [FOR_ITER], at the offset the test label is bound to
    and jumping to the still unbound end label; the target, as the node has
    it; the body, compiled with the frame [(test_l, end_l, "for")] pushed on
    the loop-context stack, which is popped afterwards; the jump back to the
    test label; the end label is bound there, [stk_ptr] is decremented by 4,
    and only then the else-branch is emitted. *)
Theorem for_statement_layout :
  forall symtab target iter body orelse c c',
    visit_s symtab (ast.For target iter body orelse) c = OK (tt, c') ->
    let test_l := List.length (labels (bc c)) in
    let end_l := S test_l in
    exists code_iter code_target code_body code_else c0 c1 c2 c3 c4 c5,
      let test_off := S (List.length (buf (bc c1))) in
      buf (bc c0) = buf (bc c) /\
      emits (visit_e symtab iter) c0 code_iter c1 /\
      buf (bc c2) = buf (bc c1) ++ [Ins GET_ITER_STACK []; Jmp FOR_ITER (Pending end_l)] /\
      emits (visit_e symtab target) c2 code_target c3 /\
      loop_stack c3 = loop_stack c /\
      emits (_visit_suite (visit_s symtab) body)
            {| loop_stack := loop_stack c ++ [(test_l, end_l, "for")]; bc := bc c3 |}
            code_body c4 /\
      loop_stack c4 = loop_stack c ++ [(test_l, end_l, "for")] /\
      loop_stack c5 = loop_stack c /\
      buf (bc c5) = buf (bc c4) ++ [Jmp JUMP (Bound test_off)] /\
      nth_error (labels (bc c5)) test_l = Some (Some test_off) /\
      nth_error (labels (bc c5)) end_l = Some (Some (List.length (buf (bc c5)))) /\
      stk_ptr (bc c5) = stk_ptr (bc c4) + stack_effect JUMP [] - 4 /\
      emits (_visit_suite (visit_s symtab) orelse) c5 code_else c' /\
      buf (bc c') = buf (bc c) ++ code_iter
                    ++ [Ins GET_ITER_STACK []; Jmp FOR_ITER (Pending end_l)]
                    ++ code_target ++ code_body
                    ++ [Jmp JUMP (Bound test_off)] ++ code_else.
Proof.
  intros symtab target iter body orelse c c' H test_l end_l.
  simpl in H; unfold visit_For in H.
  (* the two labels *)
  apply bind_OK in H; destruct H as (l1 & ca & Hl1 & H).
  apply bc_get_label_OK in Hl1; destruct Hl1 as (-> & La & Ba & Ta & _).
  apply bind_OK in H; destruct H as (l2 & cb & Hl2 & H).
  apply bc_get_label_OK in Hl2; destruct Hl2 as (-> & Lb & Bb & Tb & _).
  rewrite Ta, length_app in H; simpl List.length in H.
  replace (List.length (labels (bc c)) + 1)%nat with end_l in H
    by (unfold end_l, test_l; lia).
  fold test_l in H.
  assert (Nb : List.length (labels (bc cb)) = S (S test_l)).
  { rewrite Tb, Ta, !length_app; simpl; unfold test_l; lia. }
  assert (Tt : nth_error (labels (bc cb)) test_l = Some None)
    by (rewrite Tb, Ta; apply nth_error_two_fresh).
  assert (Te : nth_error (labels (bc cb)) end_l = Some None)
    by (rewrite Tb, Ta; apply nth_error_two_fresh).
  (* the iterable *)
  apply bind_OK in H; destruct H as ([] & c1 & Hiter & H).
  assert (F1 : frame (S (S test_l)) cb c1)
    by (eapply visit_expr_frame; [|eassumption]; lia).
  destruct (visit_expr_emits _ _ _ _ _ Hiter) as [code_iter Ei].
  (* GET_ITER_STACK, the test label, FOR_ITER *)
  apply bind_OK in H; destruct H as ([] & c1a & Hget & H).
  rewrite (bc_add_noargs stack_effect GET_ITER_STACK c1 eq_refl) in Hget.
  inversion Hget; subst c1a; clear Hget.
  apply bind_OK in H; destruct H as ([] & c1b & Hput & H).
  apply bc_put_label_OK in Hput; simpl in Hput.
  destruct Hput as (_ & L1b & B1b & T1b & _).
  apply bind_OK in H; destruct H as ([] & c2 & Hfor & H).
  apply bc_jump_buf in Hfor.
  destruct Hfor as (L2 & T2 & _ & _ & d & B2 & J2).
  assert (N1 : (S (S test_l) <= List.length (labels (bc c1)))%nat)
    by (pose proof (frame_len F1); lia).
  assert (Tt1 : nth_error (labels (bc c1b)) test_l
                = Some (Some (S (List.length (buf (bc c1)))))).
  { rewrite T1b, list_set_same by lia.
    rewrite length_app; simpl. do 2 f_equal; lia. }
  assert (Te1 : nth_error (labels (bc c1b)) end_l = Some None).
  { rewrite T1b, list_set_other by (unfold end_l; lia).
    rewrite (frame_labels F1) by (unfold end_l; lia). exact Te. }
  unfold jumps_to in J2; rewrite Te1 in J2; subst d.
  assert (N2 : (S (S test_l) <= List.length (labels (bc c2)))%nat).
  { rewrite T2, T1b, list_set_length; exact N1. }
  (* the target *)
  apply bind_OK in H; destruct H as ([] & c3 & Htgt & H).
  assert (F3 : frame (S (S test_l)) c2 c3)
    by (eapply visit_expr_frame; eassumption).
  destruct (visit_expr_emits _ _ _ _ _ Htgt) as [code_target Et].
  (* the body, between push and pop *)
  apply bind_OK in H; destruct H as ([] & c3p & Hpush & H).
  unfold loop_push in Hpush; inversion Hpush; subst c3p; clear Hpush.
  apply bind_OK in H; destruct H as (rb & c4 & Hbody & H).
  assert (L3 : loop_stack c3 = loop_stack c).
  { rewrite (frame_loop F3), L2, L1b; simpl.
    rewrite (frame_loop F1), Lb, La; reflexivity. }
  rewrite L3 in Hbody.
  assert (N3 : (S (S test_l) <= List.length (labels (bc c3)))%nat)
    by (pose proof (frame_len F3); lia).
  assert (F4 : frame (S (S test_l))
                     {| loop_stack := loop_stack c ++ [(test_l, end_l, "for")];
                        bc := bc c3 |} c4)
    by (eapply visit_suite_frame; [|eassumption]; simpl; exact N3).
  destruct (visit_suite_emits _ _ _ _ _ Hbody) as [code_body Eb].
  apply bind_OK in H; destruct H as ([] & c4p & Hpop & H).
  apply loop_pop_OK in Hpop; destruct Hpop as [_ Hpop].
  inversion Hpop; subst c4p; clear Hpop.
  pose proof (frame_loop F4) as L4; simpl in L4.
  rewrite L4, removelast_last in H.
  (* the jump back, the end label, the stack adjustment *)
  apply bind_OK in H; destruct H as ([] & c4j & Hjmp & H).
  apply bc_jump_buf in Hjmp; simpl in Hjmp.
  destruct Hjmp as (L4j & T4j & _ & S4j & d & B4j & J4j).
  assert (Tt4 : nth_error (labels (bc c4)) test_l
                = Some (Some (S (List.length (buf (bc c1)))))).
  { rewrite (frame_labels F4) by lia; cbn [bc].
    rewrite (frame_labels F3) by lia. rewrite T2; exact Tt1. }
  assert (Te4 : nth_error (labels (bc c4)) end_l = Some None).
  { rewrite (frame_labels F4) by (unfold end_l; lia); cbn [bc].
    rewrite (frame_labels F3) by (unfold end_l; lia). rewrite T2; exact Te1. }
  unfold jumps_to in J4j; simpl in J4j; rewrite Tt4 in J4j; subst d.
  apply bind_OK in H; destruct H as ([] & c4k & Hend & H).
  apply bc_put_label_OK in Hend.
  destruct Hend as (_ & L4k & B4k & T4k & S4k).
  apply bind_OK in H; destruct H as (sp & c4k' & Hsp & H).
  unfold get_stk_ptr in Hsp; inversion Hsp; subst sp c4k'; clear Hsp.
  apply bind_OK in H; destruct H as ([] & c5 & Hset & H).
  unfold set_stk_ptr in Hset; inversion Hset as [E5]; clear Hset.
  assert (L5 : loop_stack c5 = loop_stack c4k) by (subst c5; reflexivity).
  assert (B5' : buf (bc c5) = buf (bc c4k)) by (subst c5; reflexivity).
  assert (T5 : labels (bc c5) = labels (bc c4k)) by (subst c5; reflexivity).
  assert (S5 : stk_ptr (bc c5) = stk_ptr (bc c4k) - 4) by (subst c5; reflexivity).
  clear E5.
  apply bind_OK in H; destruct H as (re & c6 & Helse & Hret).
  inversion Hret; subst c6; clear Hret.
  destruct (visit_suite_emits _ _ _ _ _ Helse) as [code_else Ee].
  assert (N4 : (S (S test_l) <= List.length (labels (bc c4)))%nat)
    by (pose proof (frame_len F4) as Q; cbn [bc] in Q; lia).
  cbn [bc loop_stack] in B4j, T4j, L4j, S4j.
  assert (B5 : buf (bc c5)
               = buf (bc c4) ++ [Jmp JUMP (Bound (S (List.length (buf (bc c1)))))])
    by (rewrite B5', B4k; exact B4j).
  exists code_iter, code_target, code_body, code_else, cb, c1, c2, c3, c4, c5.
  cbv zeta.
  split; [rewrite Bb, Ba; reflexivity|].
  split; [exact Ei|].
  split; [rewrite B2, B1b; cbn [bc buf emit]; rewrite <- app_assoc; reflexivity|].
  split; [exact Et|].
  split; [exact L3|].
  split; [exact Eb|].
  split; [exact L4|].
  split; [rewrite L5, L4k, L4j; reflexivity|].
  split; [exact B5|].
  split.
  { rewrite T5, T4k, list_set_other by (unfold end_l; lia).
    rewrite T4j; exact Tt4. }
  split.
  { rewrite T5, T4k, list_set_same by (rewrite T4j; unfold end_l; lia).
    rewrite B5', B4k; reflexivity. }
  split; [rewrite S5, S4k, S4j; lia|].
  split; [exact Ee|].
  destruct Ei as [_ Ei], Et as [_ Et], Eb as [_ Eb], Ee as [_ Ee];
    cbn [bc] in Eb.
  rewrite Ee, B5, Eb, Et, B2, B1b; cbn [bc buf emit].
  rewrite Ei, Bb, Ba, <- !app_assoc; reflexivity.
Qed.

(** *** Function definitions *)




End Claims.

(* ================================================================== *)
(** ** The properties on concrete programs *)

Module Programs.

Import Scenarios.

Definition load (s : string) : ast.expr := ast.Name s ast.Load.
Definition store (s : string) : ast.expr := ast.Name s ast.Store.
Definition int (n : Z) : ast.expr := ast.Num (ast.PyInt n).
Definition params (names : list string) : ast.arguments :=
  ast.mk_arguments (map (fun n => ast.mk_arg n None) names) None [] [] None [].

(** [x = 1] *)
Definition x_is_1 : ast.stmt := ast.Assign [store "x"] (int 1).

(** [a, b = t] *)
Definition unpack_t : ast.stmt :=
  ast.Assign [ast.Tuple [store "a"; store "b"] ast.Store] (load "t").

(** [a = b = 2] *)
Definition a_b_are_2 : ast.stmt := ast.Assign ([store "a"] ++ [store "b"]) (int 2).

(** [x += 3] *)
Definition x_plus_3 : ast.stmt := ast.AugAssign (store "x") ast.Add (int 3).

(** [x -= 3] *)
Definition x_minus_3 : ast.stmt := ast.AugAssign (store "x") ast.Sub (int 3).

(** [for i in r: pass] *)
Definition for_i_in_r : ast.stmt := ast.For (store "i") (load "r") [ast.Pass] [].

(** [def f(x): return x] *)
Definition def_f_x : ast.stmt :=
  ast.FunctionDef "f" (params ["x"]) [ast.Return (Some (load "x"))] [] None.


(** [f(k=1)] *)
Definition call_with_keyword : ast.stmt :=
  ast.Expr (ast.Call (load "f") [] [(Some "k", int 1)]).

(** [1.5], the IEEE-754 bits of the value *)
Definition one_and_a_half : ast.stmt :=
  ast.Expr (ast.Num (ast.PyFloat 4609434218613702656)).

(** [d(k=1)] and [1.5] as expressions *)
Definition d_k_is_1 : ast.expr := ast.Call (load "d") [] [(Some "k", int 1)].
Definition float_1_5 : ast.expr := ast.Num (ast.PyFloat 4609434218613702656).

(** [def f]: [pass] with the variadic parameter [a] *)
Definition def_f_star_a : ast.stmt :=
  ast.FunctionDef "f"
    (ast.mk_arguments [] (Some (ast.mk_arg "a" None)) [] [] None [])
    [ast.Pass] [] None.

(** [a < b < c] *)
Definition a_lt_b_lt_c : ast.stmt :=
  ast.Expr (ast.Compare (load "a") [ast.Lt; ast.Lt] [load "b"; load "c"]).

(** [def f(): pass] under the decorator [@d(k=1)] *)
Definition decorated_d_k_is_1 : ast.stmt :=
  ast.FunctionDef "f" (params []) [ast.Pass] [d_k_is_1] None.

(** [def f(): pass] under the decorator [@d(1.5)] *)
Definition decorated_d_1_5 : ast.stmt :=
  ast.FunctionDef "f" (params []) [ast.Pass]
                  [ast.Call (load "d") [float_1_5] []] None.

(** [def f(x: 1.5) -> 1.5: pass] *)
Definition annotated_1_5 : ast.stmt :=
  ast.FunctionDef "f"
    (ast.mk_arguments [ast.mk_arg "x" (Some float_1_5)] None [] [] None [])
    [ast.Pass] [] (Some float_1_5).

(** A compiler inside a loop of the given kind, whose continue label 0 is
    bound to offset 0 and whose break label 1 is unbound. *)
Definition in_loop (kind : string) : Compiler :=
  {| loop_stack := [] ++ [(0%nat, 1%nat, kind)];
     bc := {| buf := []; const_table := []; labels := [Some 0%nat; None];
              fixups := []; stk_ptr := 4; stk_max := 5 |} |}.

(** [if a: b] *)
Definition if_a_b : ast.stmt := ast.If (load "a") [ast.Expr (load "b")] [].

(** [from m import *] *)
Definition from_m_import_star : ast.stmt :=
  ast.ImportFrom (Some "m") [ast.mk_alias "*" None] 0.

(** Scenario 3 of the specification; the jumps are resolved to the offsets
    of [L0] and [L1], and the stack size is 5. *)
Example for_i_in_r_compiled :
  compile (ast.Module [for_i_in_r])
  = OK (mk_codeobj "<module>" "<file>" 0
          [Ins LOAD_NAME [OAtom "r"]; Ins GET_ITER_STACK [];
           Jmp FOR_ITER (Bound 5); Ins STORE_NAME [OAtom "i"];
           Jmp JUMP (Bound 2);
           Ins LOAD_CONST_NONE []; Ins RETURN_VALUE []]
          [] 5).
Proof. vm_compute; reflexivity. Qed.

(** Scenario 4. *)
Example if_a_b_compiled :
  compile (ast.Module [if_a_b])
  = OK (mk_codeobj "<module>" "<file>" 0
          [Ins LOAD_NAME [OAtom "a"]; Jmp POP_JUMP_IF_FALSE (Bound 4);
           Ins LOAD_NAME [OAtom "b"]; Ins POP_TOP [];
           Ins LOAD_CONST_NONE []; Ins RETURN_VALUE []]
          [] 1).
Proof. vm_compute; reflexivity. Qed.

(** Scenario 5: the code object of [f] has [argcount = 1], a pool that
    begins with ["x"], and the instructions [LOAD_FAST_N 0; RETURN_VALUE]. *)
Example def_f_x_compiled :
  compile (ast.Module [def_f_x])
  = OK (mk_codeobj "<module>" "<file>" 0
          [Ins MAKE_FUNCTION [OPool 0]; Ins STORE_NAME_CONST [OAtom "f"];
           Ins LOAD_CONST_NONE []; Ins RETURN_VALUE []]
          [CCode (mk_codeobj "f" "<file>" 1
                    [Ins LOAD_FAST_N [OInt 0]; Ins RETURN_VALUE []]
                    [CStr "x"] 2)]
          1).
Proof. vm_compute; reflexivity. Qed.

(** Scenario 6. *)
Example from_m_import_star_compiled :
  compile (ast.Module [from_m_import_star])
  = OK (mk_codeobj "<module>" "<file>" 0
          [Ins LOAD_CONST_SMALL_INT [OInt 0]; Ins LOAD_CONST_STRING [OAtom "*"];
           Ins BUILD_TUPLE [OInt 1]; Ins IMPORT_NAME [OAtom "m"];
           Ins IMPORT_STAR [];
           Ins LOAD_CONST_NONE []; Ins RETURN_VALUE []]
          [] 2).
Proof. vm_compute; reflexivity. Qed.

End Programs.

Import Scenarios Programs.

Lemma suite_statement_zero_net_stack_effect_witness :
  (exists r1 c1 c2,
      _visit_suite (run_stmt) [x_is_1] Compiler_init = OK (r1, c1) /\
      run_stmt x_plus_3 c1 = OK (tt, c2) /\
      stk_ptr (bc c2) = stk_ptr (bc c1)) /\
  _visit_suite run_stmt ([x_is_1] ++ unpack_t :: [ast.Pass]) Compiler_init
  = Err AssertionError.
Proof.
  split.
  - edestruct (proj1 (suite_statement_zero_net_stack_effect
                        vm_stack_effect simple_map "<file>" module_table
                        [x_is_1] x_plus_3 [ast.Pass] Compiler_init))
      as (r1 & c1 & c2 & H1 & H2 & H3 & _);
      [vm_compute; reflexivity|].
    exists r1, c1, c2; auto.
  - eapply (proj2 (suite_statement_zero_net_stack_effect
                     vm_stack_effect simple_map "<file>" module_table
                     [x_is_1] unpack_t [ast.Pass] Compiler_init)).
    + vm_compute; reflexivity.
    + vm_compute; reflexivity.
    + vm_compute; discriminate.
Defined.

Lemma int_literal_small_or_rejected_witness :
  run_expr (int 5) Compiler_init
  = OK (tt, {| loop_stack := [];
               bc := emit (Ins LOAD_CONST_SMALL_INT [OInt 5]) 1 Bytecode_new |}) /\
  run_expr (int (- 2 ^ 30)) Compiler_init = Err AssertionError.
Proof.
  split.
  - destruct (proj1 (int_literal_small_or_rejected
                       vm_stack_effect 5 module_table Compiler_init))
      as [H1 H2]; [lia|].
    unfold run_expr, int; rewrite H1; exact H2.
  - apply (proj2 (int_literal_small_or_rejected
                    vm_stack_effect (- 2 ^ 30) module_table Compiler_init)).
    vm_compute; discriminate.
Defined.

(** The integer [2^30] lies outside the small-int window and is not
    emitted through the constant pool: the compilation fails. *)
Lemma int_literal_outside_window_not_pooled :
  2 ^ 30 <= Z.abs (2 ^ 30) /\
  run_expr (int (2 ^ 30)) Compiler_init = Err AssertionError /\
  ~ (exists c' i,
        run_expr (int (2 ^ 30)) Compiler_init = OK (tt, c') /\
        List.In (Ins LOAD_CONST_OBJ [OPool i]) (buf (bc c'))).
Proof.
  assert (E : run_expr (int (2 ^ 30)) Compiler_init = Err AssertionError)
    by (vm_compute; reflexivity).
  split; [|split].
  - vm_compute; discriminate.
  - exact E.
  - intros (c' & i & H & _); rewrite E in H; discriminate.
Qed.

Lemma break_pops_four_in_for_none_in_while_witness :
  (exists c' b1 d,
      run_stmt ast.Break (in_loop "for") = OK (tt, c') /\
      buf b1 = [Ins POP_TOP []; Ins POP_TOP []; Ins POP_TOP []; Ins POP_TOP []] /\
      stk_ptr b1 = 4 /\
      buf (bc c') = buf b1 ++ [Jmp JUMP d]) /\
  (exists c' d,
      run_stmt ast.Break (in_loop "while") = OK (tt, c') /\
      buf (bc c') = [Jmp JUMP d]).
Proof.
  split.
  - eexists.
    edestruct (break_pops_four_in_for_none_in_while
                 vm_stack_effect simple_map "<file>" module_table
                 (in_loop "for") [] 0%nat 1%nat "for")
      as [Hfor _]; [reflexivity | vm_compute; reflexivity |].
    destruct (Hfor eq_refl) as (b1 & d & B1 & S1 & _ & B2 & _).
    exists b1, d; split; [vm_compute; reflexivity|].
    repeat split; assumption.
  - eexists.
    edestruct (break_pops_four_in_for_none_in_while
                 vm_stack_effect simple_map "<file>" module_table
                 (in_loop "while") [] 0%nat 1%nat "while")
      as [_ Hwhile]; [reflexivity | vm_compute; reflexivity |].
    destruct (Hwhile eq_refl) as (d & _ & B2 & _).
    exists d; split; [vm_compute; reflexivity | exact B2].
Defined.

Lemma for_statement_layout_witness :
  exists c' code_iter code_target code_body code_else c1,
    run_stmt for_i_in_r Compiler_init = OK (tt, c') /\
    buf (bc c')
    = [] ++ code_iter
      ++ [Ins GET_ITER_STACK []; Jmp FOR_ITER (Pending 1)]
      ++ code_target ++ code_body
      ++ [Jmp JUMP (Bound (S (List.length (buf (bc c1)))))] ++ code_else.
Proof.
  eexists.
  edestruct (for_statement_layout
               vm_stack_effect simple_map "<file>" module_table
               (store "i") (load "r") [ast.Pass] [] Compiler_init)
    as (ci & ct & cb & ce & c0 & c1 & c2 & c3 & c4 & c5 & H);
    [vm_compute; reflexivity|].
  exists ci, ct, cb, ce, c1; split; [vm_compute; reflexivity|].
  apply H.
Defined.


Lemma chained_assign_dup_per_target_witness :
  exists c' code_value codes code_last,
    run_stmt a_b_are_2 Compiler_init = OK (tt, c') /\
    List.length codes = 1%nat /\
    buf (bc c')
    = [] ++ code_value
      ++ flat_map (fun code => Ins DUP_TOP [] :: code) codes ++ code_last.
Proof.
  eexists.
  edestruct (chained_assign_dup_per_target
               vm_stack_effect simple_map "<file>" module_table
               [store "a"] (store "b") (int 2) Compiler_init)
    as (cv & codes & cl & c1 & c2 & _ & _ & Hlen & _ & Hbuf);
    [vm_compute; reflexivity|].
  exists cv, codes, cl; split; [vm_compute; reflexivity|].
  split; [exact Hlen | exact Hbuf].
Defined.

Lemma unsupported_construct_aborts_witness :
  is_err (compile (ast.Module [x_is_1; call_with_keyword])) /\
  is_err (compile (ast.Module [def_f_star_a])) /\
  is_err (compile (ast.Module [ast.If (load "t") [a_lt_b_lt_c] []])).
Proof.
  repeat split;
    apply (unsupported_construct_aborts vm_stack_effect simple_map "<file>");
    reflexivity.
Defined.

(** A call with a keyword argument in a decorator: [_visit_function] does
    not visit the decorators, and the module compiles, to the code of the
    undecorated definition. *)
Lemma keyword_call_in_decorator_compiles :
  unsupported_expr d_k_is_1 = true /\
  decorated_d_k_is_1
  = ast.FunctionDef "f" (params []) [ast.Pass] [d_k_is_1] None /\
  compile (ast.Module [decorated_d_k_is_1])
  = OK (mk_codeobj "<module>" "<file>" 0
          [Ins MAKE_FUNCTION [OPool 0]; Ins STORE_NAME_CONST [OAtom "f"];
           Ins LOAD_CONST_NONE []; Ins RETURN_VALUE []]
          [CCode (mk_codeobj "f" "<file>" 0
                    [Ins LOAD_CONST_NONE []; Ins RETURN_VALUE []] [] 1)]
          1) /\
  ~ is_err (compile (ast.Module [decorated_d_k_is_1])).
Proof.
  assert (E : compile (ast.Module [decorated_d_k_is_1])
              = OK (mk_codeobj "<module>" "<file>" 0
                      [Ins MAKE_FUNCTION [OPool 0]; Ins STORE_NAME_CONST [OAtom "f"];
                       Ins LOAD_CONST_NONE []; Ins RETURN_VALUE []]
                      [CCode (mk_codeobj "f" "<file>" 0
                                [Ins LOAD_CONST_NONE []; Ins RETURN_VALUE []] [] 1)]
                      1))
    by (vm_compute; reflexivity).
  repeat split; try reflexivity; try exact E.
  intros [e He]; rewrite E in He; discriminate.
Qed.

Lemma break_continue_use_innermost_loop_witness :
  run_stmt ast.Break Compiler_init = Err AssertionError /\
  run_stmt ast.Continue Compiler_init = Err AssertionError /\
  (exists c', run_stmt ast.Continue (in_loop "while") = OK (tt, c') /\
              buf (bc c') = [Jmp JUMP (Bound 0)]) /\
  (exists c' pops, run_stmt ast.Break (in_loop "while") = OK (tt, c') /\
                   buf (bc c') = pops ++ [Jmp JUMP (Pending 1)]).
Proof.
  destruct (break_continue_use_innermost_loop
              vm_stack_effect simple_map "<file>" module_table Compiler_init)
    as [Hempty _].
  destruct (Hempty eq_refl) as [Hb Hc].
  split; [exact Hb|]. split; [exact Hc|].
  split.
  - eexists; split; [vm_compute; reflexivity|].
    edestruct (proj2 (break_continue_use_innermost_loop
                        vm_stack_effect simple_map "<file>" module_table
                        (in_loop "while")) [] 0%nat 1%nat "while")
      as [Hcont _]; [reflexivity|].
    edestruct Hcont as (d & Hbuf & Hd); [vm_compute; reflexivity|].
    vm_compute in Hd; subst d. exact Hbuf.
  - eexists.
    edestruct (proj2 (break_continue_use_innermost_loop
                        vm_stack_effect simple_map "<file>" module_table
                        (in_loop "while")) [] 0%nat 1%nat "while")
      as [_ Hbrk]; [reflexivity|].
    edestruct Hbrk as (pops & d & Hbuf & Hd); [vm_compute; reflexivity|].
    vm_compute in Hd; subst d.
    exists pops; split; [vm_compute; reflexivity | exact Hbuf].
Defined.

Lemma augassign_load_value_op_store_witness :
  exists c' code_load code_value code_store,
    run_stmt x_minus_3 Compiler_init = OK (tt, c') /\
    buf (bc c')
    = [] ++ code_load ++ code_value ++ [Ins INPLACE_SUBTRACT []] ++ code_store /\
    buf (bc c')
    = [Ins LOAD_NAME [OAtom "x"]; Ins LOAD_CONST_SMALL_INT [OInt 3];
       Ins INPLACE_SUBTRACT []; Ins STORE_NAME [OAtom "x"]].
Proof.
  eexists.
  edestruct (augassign_load_value_op_store
               vm_stack_effect simple_map "<file>" module_table
               (store "x") ast.Sub (int 3) Compiler_init)
    as (tl & iop & t1 & cl & cv & cs & c1 & c2 & c3
        & _ & Hop & _ & _ & _ & _ & _ & _ & _ & Hbuf);
    [vm_compute; reflexivity|].
  inversion Hop; subst iop.
  exists cl, cv, cs; split; [vm_compute; reflexivity|].
  split; [exact Hbuf | vm_compute; reflexivity].
Defined.

Lemma non_integer_literal_aborts_witness :
  run_expr (ast.Num (ast.PyFloat 4609434218613702656)) Compiler_init
  = Err AssertionError /\
  is_err (compile (ast.Module [x_is_1; one_and_a_half])).
Proof.
  destruct (non_integer_literal_aborts vm_stack_effect simple_map "<file>")
    as [Hnode Hmod].
  split.
  - apply Hnode; reflexivity.
  - apply Hmod; reflexivity.
Defined.

(** A float literal in a decorator, in a parameter annotation and in a
    return annotation: [_visit_function] visits none of them, no assertion
    fails and the modules compile. *)
Lemma float_in_decorator_or_annotation_compiles :
  non_int_literal float_1_5 = true /\
  (exists co, compile (ast.Module [decorated_d_1_5]) = OK co) /\
  (exists co, compile (ast.Module [annotated_1_5]) = OK co) /\
  ~ is_err (compile (ast.Module [decorated_d_1_5])) /\
  ~ is_err (compile (ast.Module [annotated_1_5])).
Proof.
  assert (E1 : exists co, compile (ast.Module [decorated_d_1_5]) = OK co)
    by (eexists; vm_compute; reflexivity).
  assert (E2 : exists co, compile (ast.Module [annotated_1_5]) = OK co)
    by (eexists; vm_compute; reflexivity).
  repeat split; try reflexivity; try assumption.
  - destruct E1 as [co E]; intros [e He]; rewrite E in He; discriminate.
  - destruct E2 as [co E]; intros [e He]; rewrite E in He; discriminate.
Qed.

(* ================================================================== *)
(** ** Further properties of the code generator *)

Section Layouts.

Context {T : Type} {ST : SymbolTable T}.
Variable stack_effect : opcode -> list const -> Z.
Variable symtab_map : scope_node -> option T.
Variable filename : string.

Local Notation visit_s := (visit_stmt stack_effect symtab_map filename).
Local Notation visit_e := (visit_expr stack_effect).

(** *** What no visit changes *)

Lemma visit_stmt_frame :
  forall symtab s c a c' n,
    (n <= List.length (labels (bc c)))%nat ->
    visit_s symtab s c = OK (a, c') -> frame n c c'.
Proof. intros; eapply keeps_visit_stmt; eassumption. Qed.

Lemma bc_add_frame :
  forall op args c a c' n,
    (n <= List.length (labels (bc c)))%nat ->
    bc_add stack_effect op args c = OK (a, c') -> frame n c c'.
Proof. intros; eapply keeps_add; eassumption. Qed.

(** X1.  A statement that compiles leaves the loop-context stack as it
    found it: every frame pushed by a loop is popped again.  After a module
    has been visited by a fresh compiler the stack is empty. *)
Theorem loop_stack_balanced :
  (forall symtab s c c',
      visit_s symtab s c = OK (tt, c') -> loop_stack c' = loop_stack c) /\
  (forall tree c,
      visit_Module stack_effect symtab_map filename tree Compiler_init = OK (tt, c) ->
      loop_stack c = []).
Proof.
  split.
  - intros symtab s c c' H.
    exact (frame_loop (visit_stmt_frame _ _ _ _ _ O (Nat.le_0_l _) H)).
  - intros tree c H; unfold visit_Module in H.
    apply bind_OK in H; destruct H as (t & c0 & Hlook & H).
    unfold lookup_symtab in Hlook.
    apply lift_res_OK in Hlook; destruct Hlook as (t' & _ & He).
    inversion He; subst t' c0; clear He.
    apply bind_OK in H; destruct H as ([] & c1 & Hnew & H).
    unfold set_bc in Hnew; inversion Hnew; subst c1; clear Hnew.
    apply bind_OK in H; destruct H as (r & c2 & Hbody & H).
    apply bind_OK in H; destruct H as ([] & c3 & H1 & H2).
    pose proof (frame_loop (visit_suite_frame stack_effect symtab_map filename
                              _ _ _ _ _ O (Nat.le_0_l _) Hbody)) as L2.
    pose proof (frame_loop (bc_add_frame _ _ _ _ _ O (Nat.le_0_l _) H1)) as L3.
    pose proof (frame_loop (bc_add_frame _ _ _ _ _ O (Nat.le_0_l _) H2)) as L4.
    rewrite L4, L3, L2; reflexivity.
Qed.

(** X2.  A statement that compiles only appends to the instruction buffer
    and to the constant pool of the active builder, it does not shorten
    the label table, and it leaves the entries of the label table that
    were there before as they were: an instruction once emitted is not
    rewritten, and a label once bound is not bound again. *)
Theorem statement_only_appends :
  forall symtab s c c',
    visit_stmt stack_effect symtab_map filename symtab s c = OK (tt, c') ->
    (exists code, buf (bc c') = buf (bc c) ++ code) /\
    (exists ks, const_table (bc c') = const_table (bc c) ++ ks) /\
    (List.length (labels (bc c)) <= List.length (labels (bc c')))%nat /\
    (forall l, (l < List.length (labels (bc c)))%nat ->
               nth_error (labels (bc c')) l = nth_error (labels (bc c)) l).
Proof.
  intros symtab s c c' H.
  destruct (visit_stmt_frame _ _ _ _ _ _ (le_n _) H) as [_ B P N F].
  auto.
Qed.

(** *** Runs of expressions *)

(** The expressions of a list, visited in order; [codes] lists what each
    visit emitted. *)
Inductive emits_each (symtab : T)
  : list ast.expr -> Compiler -> list (list instr) -> Compiler -> Prop :=
| ee_nil : forall c, emits_each symtab [] c [] c
| ee_cons :
    forall e es c c1 c2 code codes,
      emits (visit_e symtab e) c code c1 ->
      emits_each symtab es c1 codes c2 ->
      emits_each symtab (e :: es) c (code :: codes) c2.

Lemma foreach_emits_each :
  forall symtab es c c',
    foreach (visit_e symtab) es c = OK (tt, c') ->
    exists codes,
      emits_each symtab es c codes c' /\
      List.length codes = List.length es /\
      buf (bc c') = buf (bc c) ++ List.concat codes.
Proof.
  intros symtab es; induction es as [|e es IH]; intros c c' H; simpl in H.
  - inversion H; subst. exists []; simpl; repeat split.
    + constructor.
    + rewrite app_nil_r; reflexivity.
  - apply bind_OK in H; destruct H as ([] & c1 & He & Hes).
    destruct (visit_expr_emits stack_effect _ _ _ _ _ He) as [code Ec].
    destruct (IH _ _ Hes) as (codes & Hrel & Hlen & Hbuf).
    exists (code :: codes); repeat split.
    + econstructor; eassumption.
    + simpl; congruence.
    + destruct Ec as [_ Ec]; simpl List.concat.
      rewrite Hbuf, Ec, <- app_assoc; reflexivity.
Qed.

Lemma bc_add_ints :
  forall op (ns : list Z) c,
    pool_operand op = false ->
    bc_add stack_effect op (map CInt ns) c
    = OK (tt, {| loop_stack := loop_stack c;
                 bc := emit (Ins op (map OInt ns))
                            (stack_effect op (map CInt ns)) (bc c) |}).
Proof.
  intros op ns c H; unfold bc_add, on_bc, Bytecode_add; rewrite H.
  assert (E : inline_operands (map CInt ns) = OK (map OInt ns)).
  { induction ns as [|n ns IH]; simpl; [reflexivity | rewrite IH; reflexivity]. }
  rewrite E; reflexivity.
Qed.

(** X3.  A call without keyword arguments emits the callee, then the
    positional arguments from left to right, then one
    [CALL_FUNCTION nargs 0], where [nargs] is the number of arguments. *)
Theorem call_layout :
  forall symtab func args c c',
    visit_e symtab (ast.Call func args []) c = OK (tt, c') ->
    exists code_func codes c1 c2,
      emits (visit_e symtab func) c code_func c1 /\
      emits_each symtab args c1 codes c2 /\
      List.length codes = List.length args /\
      buf (bc c') = buf (bc c) ++ code_func ++ List.concat codes
                    ++ [Ins CALL_FUNCTION [OInt (len args); OInt 0]].
Proof.
  intros symtab func args c c' H; simpl in H; unfold visit_Call in H.
  apply bind_OK in H; destruct H as ([] & c0 & Ha & H).
  inversion Ha; subst c0; clear Ha.
  apply bind_OK in H; destruct H as ([] & c1 & Hf & H).
  apply bind_OK in H; destruct H as ([] & c2 & Hargs & H).
  destruct (visit_expr_emits stack_effect _ _ _ _ _ Hf) as [code_func Ef].
  destruct (foreach_emits_each _ _ _ _ Hargs) as (codes & Hrel & Hlen & Hbuf).
  pose proof (bc_add_ints CALL_FUNCTION [len args; 0] c2 eq_refl) as E.
  cbn [map] in E; rewrite E in H; clear E.
  inversion H; subst c'; clear H.
  exists code_func, codes, c1, c2; repeat split; try assumption; try apply Ef.
  destruct Ef as [_ Ef]; cbn [bc buf emit map].
  rewrite Hbuf, Ef, <- !app_assoc; reflexivity.
Qed.

(** The opcode that builds the container of a display. *)
Definition build_op (e : ast.expr) : option opcode :=
  match e with
  | ast.Tuple _ _ => Some BUILD_TUPLE
  | ast.List _ _ => Some BUILD_LIST
  | ast.Set_ _ => Some BUILD_SET
  | _ => None
  end.

(** The elements of a display. *)
Definition display_elts (e : ast.expr) : list ast.expr :=
  match e with
  | ast.Tuple elts _ | ast.List elts _ | ast.Set_ elts => elts
  | _ => []
  end.

(** X4.  A tuple, list or set display emits its elements from left to
    right and then one [BUILD_TUPLE], [BUILD_LIST] or [BUILD_SET] with the
    number of elements as operand, whatever the context of the node. *)
Theorem display_layout :
  forall symtab e op c c',
    build_op e = Some op ->
    visit_e symtab e c = OK (tt, c') ->
    exists codes c1,
      emits_each symtab (display_elts e) c codes c1 /\
      List.length codes = List.length (display_elts e) /\
      buf (bc c') = buf (bc c) ++ List.concat codes
                    ++ [Ins op [OInt (len (display_elts e))]].
Proof.
  intros symtab e op c c' Hop H.
  destruct e; try discriminate; simpl in Hop; inversion Hop; subst op; clear Hop;
    simpl in H;
    unfold visit_Tuple, visit_List, visit_Set in H;
    (apply bind_OK in H; destruct H as ([] & c1 & Helts & H));
    destruct (foreach_emits_each _ _ _ _ Helts) as (codes & Hrel & Hlen & Hbuf);
    simpl display_elts.
  - pose proof (bc_add_ints BUILD_TUPLE [len elts] c1 eq_refl) as E.
    cbn [map] in E; rewrite E in H; clear E.
    inversion H; subst c'; clear H.
    exists codes, c1; repeat split; try assumption.
    cbn [bc buf emit map]; rewrite Hbuf, <- app_assoc; reflexivity.
  - pose proof (bc_add_ints BUILD_LIST [len elts] c1 eq_refl) as E.
    cbn [map] in E; rewrite E in H; clear E.
    inversion H; subst c'; clear H.
    exists codes, c1; repeat split; try assumption.
    cbn [bc buf emit map]; rewrite Hbuf, <- app_assoc; reflexivity.
  - pose proof (bc_add_ints BUILD_SET [len elts] c1 eq_refl) as E.
    cbn [map] in E; rewrite E in H; clear E.
    inversion H; subst c'; clear H.
    exists codes, c1; repeat split; try assumption.
    cbn [bc buf emit map]; rewrite Hbuf, <- app_assoc; reflexivity.
Qed.

(** *** Comparisons *)

(** The operators compiled as the test without negation followed by
    [UNARY_NOT]. *)
Definition negated_cmpop (op : ast.cmpop) : bool :=
  match op with
  | ast.IsNot | ast.NotIn => true
  | _ => false
  end.

Lemma pool_operand_cmpop :
  forall op, pool_operand (cmpop_map op) = false.
Proof. destruct op; reflexivity. Qed.

(** X5.  A comparison with one operator emits the left operand, the right
    operand and the opcode of the operator; [is not] and [not in] are
    emitted as [BINARY_IS] and [BINARY_IN] followed by one [UNARY_NOT], the
    other operators without it. *)
Theorem compare_layout :
  forall symtab left op right c c',
    visit_e symtab (ast.Compare left [op] [right]) c = OK (tt, c') ->
    exists code_left code_right c1 c2,
      emits (visit_e symtab left) c code_left c1 /\
      emits (visit_e symtab right) c1 code_right c2 /\
      buf (bc c') = buf (bc c) ++ code_left ++ code_right
                    ++ [Ins (cmpop_map op) []]
                    ++ (if negated_cmpop op then [Ins UNARY_NOT []] else []) /\
      (op = ast.IsNot -> cmpop_map op = BINARY_IS) /\
      (op = ast.NotIn -> cmpop_map op = BINARY_IN).
Proof.
  intros symtab left op right c c' H; simpl in H; unfold visit_Compare in H.
  apply bind_OK in H; destruct H as ([] & c0 & Ha & H).
  inversion Ha; subst c0; clear Ha.
  apply bind_OK in H; destruct H as ([] & c1 & Hl & H).
  apply bind_OK in H; destruct H as (act & c1' & Hact & H).
  inversion Hact; subst act c1'; clear Hact.
  apply bind_OK in H; destruct H as ([] & c2 & Hr & H).
  apply bind_OK in H; destruct H as (op' & c2' & Hop & H).
  inversion Hop; subst op' c2'; clear Hop.
  apply bind_OK in H; destruct H as ([] & c3 & Hcmp & H).
  rewrite (bc_add_noargs stack_effect _ c2 (pool_operand_cmpop op)) in Hcmp.
  inversion Hcmp; subst c3; clear Hcmp.
  destruct (visit_expr_emits stack_effect _ _ _ _ _ Hl) as [code_left El].
  destruct (visit_expr_emits stack_effect _ _ _ _ _ Hr) as [code_right Er].
  exists code_left, code_right, c1, c2.
  split; [exact El|]. split; [exact Er|].
  destruct El as [_ El], Er as [_ Er].
  split; [| split; intros ->; reflexivity].
  destruct op; cbn [negated_cmpop] in *;
    try (inversion H; subst c'; clear H; cbn [bc buf emit];
         rewrite Er, El, <- !app_assoc; reflexivity);
    (rewrite (bc_add_noargs stack_effect UNARY_NOT _ eq_refl) in H;
     inversion H; subst c'; clear H; cbn [bc buf emit];
     rewrite Er, El, <- !app_assoc; reflexivity).
Qed.

(** *** Dictionary displays *)

(** The items of a dictionary display, visited in order: for each item
    the value, then the key, then [STORE_MAP]; [codes] lists the code of
    the value and of the key of each item. *)
Inductive emits_items (symtab : T)
  : list (ast.expr * ast.expr) -> Compiler
    -> list (list instr * list instr) -> Compiler -> Prop :=
| ei_nil : forall c, emits_items symtab [] c [] c
| ei_cons :
    forall k v items c c1 c2 c3 c4 code_v code_k codes,
      emits (visit_e symtab v) c code_v c1 ->
      emits (visit_e symtab k) c1 code_k c2 ->
      bc_add stack_effect STORE_MAP [] c2 = OK (tt, c3) ->
      emits_items symtab items c3 codes c4 ->
      emits_items symtab ((k, v) :: items) c ((code_v, code_k) :: codes) c4.

Lemma combine_map_visit :
  forall (A B : Type) (f : A -> B) (l1 l2 : list A),
    combine (map f l1) (map f l2)
    = map (fun p => (f (fst p), f (snd p))) (combine l1 l2).
Proof.
  induction l1 as [|x l1 IH]; intros [|y l2]; simpl; auto.
  rewrite IH; reflexivity.
Qed.

Lemma foreach_emits_items :
  forall symtab items c c',
    foreach (fun kv : M unit * M unit =>
               bind (snd kv) (fun _ => bind (fst kv)
                                            (fun _ => bc_add stack_effect STORE_MAP [])))
            (map (fun p => (visit_e symtab (fst p), visit_e symtab (snd p))) items)
            c = OK (tt, c') ->
    exists codes,
      emits_items symtab items c codes c' /\
      List.length codes = List.length items /\
      buf (bc c')
      = buf (bc c)
        ++ flat_map (fun p => fst p ++ snd p ++ [Ins STORE_MAP []]) codes.
Proof.
  intros symtab items; induction items as [|[k v] items IH]; intros c c' H;
    simpl in H.
  - inversion H; subst. exists []; simpl; repeat split.
    + constructor.
    + rewrite app_nil_r; reflexivity.
  - apply bind_OK in H; destruct H as ([] & c3 & Hitem & Hrest).
    apply bind_OK in Hitem; destruct Hitem as ([] & c1 & Hv & Hitem).
    apply bind_OK in Hitem; destruct Hitem as ([] & c2 & Hk & Hst).
    destruct (visit_expr_emits stack_effect _ _ _ _ _ Hv) as [code_v Ev].
    destruct (visit_expr_emits stack_effect _ _ _ _ _ Hk) as [code_k Ek].
    destruct (IH _ _ Hrest) as (codes & Hrel & Hlen & Hbuf).
    pose proof Hst as Hst'.
    rewrite (bc_add_noargs stack_effect STORE_MAP c2 eq_refl) in Hst'.
    inversion Hst'; clear Hst'.
    assert (B3 : buf (bc c3) = buf (bc c2) ++ [Ins STORE_MAP []])
      by (subst c3; reflexivity).
    exists ((code_v, code_k) :: codes); repeat split.
    + econstructor; eassumption.
    + simpl; congruence.
    + destruct Ev as [_ Ev], Ek as [_ Ek]. simpl flat_map.
      rewrite Hbuf, B3, Ek, Ev, <- !app_assoc; reflexivity.
Qed.

(** X6.  A dictionary display emits [BUILD_MAP] with the number of keys,
    then for each pair of [zip(keys, values)] the value, the key and one
    [STORE_MAP], in this order. *)
Theorem dict_layout :
  forall symtab keys values c c',
    visit_e symtab (ast.Dict keys values) c = OK (tt, c') ->
    exists codes c1,
      bc_add stack_effect BUILD_MAP [CInt (len keys)] c = OK (tt, c1) /\
      emits_items symtab (combine keys values) c1 codes c' /\
      List.length codes = List.length (combine keys values) /\
      buf (bc c')
      = buf (bc c) ++ [Ins BUILD_MAP [OInt (len keys)]]
        ++ flat_map (fun p => fst p ++ snd p ++ [Ins STORE_MAP []]) codes.
Proof.
  intros symtab keys values c c' H; simpl in H; unfold visit_Dict in H.
  apply bind_OK in H; destruct H as ([] & c1 & Hmap & H).
  rewrite combine_map_visit in H.
  destruct (foreach_emits_items _ _ _ _ H) as (codes & Hrel & Hlen & Hbuf).
  pose proof (bc_add_ints BUILD_MAP [len keys] c eq_refl) as E.
  cbn [map] in E.
  exists codes, c1; repeat split; try assumption.
  rewrite E in Hmap; inversion Hmap; subst c1; clear Hmap.
  cbn [bc buf emit] in Hbuf. rewrite Hbuf, <- app_assoc; reflexivity.
Qed.

(** *** Boolean operators *)

(** The short-circuit jump of a Boolean operator. *)
Definition boolop_jump (op : ast.boolop) : opcode :=
  match op with
  | ast.And => JUMP_IF_FALSE_OR_POP
  | ast.Or => JUMP_IF_TRUE_OR_POP
  end.

(** The operands of a Boolean operation but the last, visited in order,
    each followed by the short-circuit jump to the join label, which is
    still unbound. *)
Inductive short_circuits (symtab : T) (jop : opcode) (join : nat)
  : list ast.expr -> Compiler -> list (list instr) -> Compiler -> Prop :=
| sc_nil : forall c, short_circuits symtab jop join [] c [] c
| sc_cons :
    forall v vs c c1 c2 c3 code codes,
      emits (visit_e symtab v) c code c1 ->
      bc_jump stack_effect jop join c1 = OK (tt, c2) ->
      buf (bc c2) = buf (bc c1) ++ [Jmp jop (Pending join)] ->
      short_circuits symtab jop join vs c2 codes c3 ->
      short_circuits symtab jop join (v :: vs) c (code :: codes) c3.

Lemma foreach_short_circuit :
  forall symtab jop join vs c c',
    nth_error (labels (bc c)) join = Some None ->
    foreach (fun v : M unit => bind v (fun _ => bc_jump stack_effect jop join))
            (map (visit_e symtab) vs) c = OK (tt, c') ->
    exists codes,
      short_circuits symtab jop join vs c codes c' /\
      List.length codes = List.length vs /\
      buf (bc c')
      = buf (bc c) ++ flat_map (fun code => code ++ [Jmp jop (Pending join)]) codes /\
      nth_error (labels (bc c')) join = Some None.
Proof.
  intros symtab jop join vs; induction vs as [|v vs IH]; intros c c' Hj H;
    simpl in H.
  - inversion H; subst. exists []; simpl; rewrite app_nil_r; repeat split; auto.
    constructor.
  - apply bind_OK in H; destruct H as ([] & c2 & Hhead & Hrest).
    apply bind_OK in Hhead; destruct Hhead as ([] & c1 & Hv & Hjmp).
    assert (Hlt : (join < List.length (labels (bc c)))%nat)
      by (apply nth_error_Some; rewrite Hj; discriminate).
    pose proof (visit_expr_frame stack_effect _ _ _ _ _ (S join) Hlt Hv) as F.
    destruct (visit_expr_emits stack_effect _ _ _ _ _ Hv) as [code Ec].
    assert (Hj1 : nth_error (labels (bc c1)) join = Some None)
      by (rewrite (frame_labels F) by lia; exact Hj).
    pose proof Hjmp as Hjmp'.
    apply bc_jump_buf in Hjmp'.
    destruct Hjmp' as (_ & T2 & _ & _ & d & B2 & J2).
    unfold jumps_to in J2; rewrite Hj1 in J2; subst d.
    assert (Hj2 : nth_error (labels (bc c2)) join = Some None)
      by (rewrite T2; exact Hj1).
    destruct (IH _ _ Hj2 Hrest) as (codes & Hrel & Hlen & Hbuf & Hj').
    exists (code :: codes); repeat split.
    + econstructor; eassumption.
    + simpl; congruence.
    + destruct Ec as [_ Ec]. simpl flat_map.
      rewrite Hbuf, B2, Ec, <- !app_assoc; reflexivity.
    + exact Hj'.
Qed.

(** X7.  A Boolean operation over [v1, ..., vn, last] allocates one join
    label; it emits each of [v1 .. vn] followed by one short-circuit jump to
    that label ([JUMP_IF_FALSE_OR_POP] for [and], [JUMP_IF_TRUE_OR_POP] for
    [or]), then [last] with no jump after it, and binds the join label to
    the offset that follows. *)
Theorem boolop_layout :
  forall symtab op init last c c',
    visit_e symtab (ast.BoolOp op (init ++ [last])) c = OK (tt, c') ->
    let join_l := List.length (labels (bc c)) in
    exists codes code_last c1 c2 c3,
      bc_get_label c = OK (join_l, c1) /\
      short_circuits symtab (boolop_jump op) join_l init c1 codes c2 /\
      List.length codes = List.length init /\
      emits (visit_e symtab last) c2 code_last c3 /\
      bc_put_label join_l c3 = OK (tt, c') /\
      buf (bc c')
      = buf (bc c)
        ++ flat_map (fun code => code ++ [Jmp (boolop_jump op) (Pending join_l)])
                    codes
        ++ code_last /\
      nth_error (labels (bc c')) join_l = Some (Some (List.length (buf (bc c')))).
Proof.
  intros symtab op init last c c' H join_l.
  simpl in H; unfold visit_BoolOp in H.
  rewrite map_app in H; simpl map in H.
  rewrite removelast_last, py_last_app in H.
  apply bind_OK in H; destruct H as (l & c1 & Hl & H).
  pose proof Hl as Hget.
  apply bc_get_label_OK in Hl; destruct Hl as (-> & L1 & B1 & T1 & _).
  fold join_l in H, Hget.
  assert (Hj : nth_error (labels (bc c1)) join_l = Some None).
  { rewrite T1, nth_error_app2 by (unfold join_l; lia).
    unfold join_l; rewrite Nat.sub_diag; reflexivity. }
  apply bind_OK in H; destruct H as ([] & c2 & Hinit & H).
  change (match op with
          | ast.And => JUMP_IF_FALSE_OR_POP
          | ast.Or => JUMP_IF_TRUE_OR_POP
          end) with (boolop_jump op) in Hinit.
  destruct (foreach_short_circuit _ _ _ _ _ _ Hj Hinit)
    as (codes & Hrel & Hlen & Hbuf & Hj2).
  apply bind_OK in H; destruct H as (act & c2' & Hact & H).
  inversion Hact; subst act c2'; clear Hact.
  apply bind_OK in H; destruct H as ([] & c3 & Hlast & Hput).
  destruct (visit_expr_emits stack_effect _ _ _ _ _ Hlast) as [code_last El].
  assert (Hlt : (join_l < List.length (labels (bc c2)))%nat)
    by (apply nth_error_Some; rewrite Hj2; discriminate).
  pose proof (visit_expr_frame stack_effect _ _ _ _ _ (S join_l) Hlt Hlast) as F.
  pose proof Hput as Hput'.
  apply bc_put_label_OK in Hput'; destruct Hput' as (_ & _ & B4 & T4 & _).
  exists codes, code_last, c1, c2, c3.
  split; [exact Hget|]. split; [exact Hrel|]. split; [exact Hlen|].
  split; [exact El|]. split; [exact Hput|].
  destruct El as [_ El].
  split.
  - rewrite B4, El, Hbuf, B1, <- !app_assoc; reflexivity.
  - rewrite T4, B4. apply list_set_same.
    pose proof (frame_len F); lia.
Qed.

(** *** While loops *)

Lemma nth_error_three_fresh :
  forall (A : Type) (l : list A) (a b c : A),
    nth_error (((l ++ [a]) ++ [b]) ++ [c]) (List.length l) = Some a /\
    nth_error (((l ++ [a]) ++ [b]) ++ [c]) (S (List.length l)) = Some b /\
    nth_error (((l ++ [a]) ++ [b]) ++ [c]) (S (S (List.length l))) = Some c.
Proof. induction l as [|x l IH]; intros a b c; simpl; auto. Qed.

Lemma nth_error_Some_lt :
  forall (A : Type) (l : list A) (n : nat) (x : A),
    nth_error l n = Some x -> (n < List.length l)%nat.
Proof. intros A l n x H; apply nth_error_Some; rewrite H; discriminate. Qed.

(** X8.  A [while] statement emits, in this order: a jump to the test
    label, still unbound; the body, at the offset the body label is bound
    to, compiled with the frame [(test_l, end_l, "while")] pushed on the
    loop-context stack, which is popped afterwards; the test, at the offset
    the test label is bound to; [POP_JUMP_IF_TRUE] back to the body; the
    else-branch; and the end label is bound after the else-branch, so that a
    jump to it skips the else-branch. *)
Theorem while_statement_layout :
  forall symtab test body orelse c c',
    visit_s symtab (ast.While test body orelse) c = OK (tt, c') ->
    let test_l := List.length (labels (bc c)) in
    let body_l := S test_l in
    let end_l := S body_l in
    let body_off := S (List.length (buf (bc c))) in
    exists code_body code_test code_else c1 c2 c3 c4 c5 c6,
      buf (bc c1) = buf (bc c) ++ [Jmp JUMP (Pending test_l)] /\
      emits (_visit_suite (visit_s symtab) body)
            {| loop_stack := loop_stack c ++ [(test_l, end_l, "while")];
               bc := bc c1 |}
            code_body c2 /\
      loop_stack c2 = loop_stack c ++ [(test_l, end_l, "while")] /\
      loop_stack c3 = loop_stack c /\
      buf (bc c3) = buf (bc c2) /\
      emits (visit_e symtab test) c3 code_test c4 /\
      buf (bc c5) = buf (bc c4) ++ [Jmp POP_JUMP_IF_TRUE (Bound body_off)] /\
      emits (_visit_suite (visit_s symtab) orelse) c5 code_else c6 /\
      bc_put_label end_l c6 = OK (tt, c') /\
      loop_stack c' = loop_stack c /\
      nth_error (labels (bc c')) body_l = Some (Some body_off) /\
      nth_error (labels (bc c')) test_l
      = Some (Some (body_off + List.length code_body)%nat) /\
      nth_error (labels (bc c')) end_l = Some (Some (List.length (buf (bc c')))) /\
      buf (bc c') = buf (bc c) ++ [Jmp JUMP (Pending test_l)]
                    ++ code_body ++ code_test
                    ++ [Jmp POP_JUMP_IF_TRUE (Bound body_off)] ++ code_else.
Proof.
  intros symtab test body orelse c c' H test_l body_l end_l body_off.
  simpl in H; unfold visit_While in H.
  (* the three labels *)
  apply bind_OK in H; destruct H as (l1 & ca & Hl1 & H).
  apply bc_get_label_OK in Hl1; destruct Hl1 as (-> & La & Ba & Ta & _).
  apply bind_OK in H; destruct H as (l2 & cb & Hl2 & H).
  apply bc_get_label_OK in Hl2; destruct Hl2 as (-> & Lb & Bb & Tb & _).
  apply bind_OK in H; destruct H as (l3 & cc & Hl3 & H).
  apply bc_get_label_OK in Hl3; destruct Hl3 as (-> & Lc & Bc & Tc & _).
  assert (E2 : List.length (labels (bc ca)) = body_l)
    by (rewrite Ta, length_app; simpl; unfold body_l, test_l; lia).
  assert (E3 : List.length (labels (bc cb)) = end_l)
    by (rewrite Tb, length_app, E2; simpl; unfold end_l; lia).
  rewrite E2, E3 in H. fold test_l in H.
  assert (Tall : labels (bc cc)
                 = ((labels (bc c) ++ [None]) ++ [None]) ++ [None])
    by (rewrite Tc, Tb, Ta; reflexivity).
  destruct (nth_error_three_fresh _ (labels (bc c)) None None None)
    as (Tt & Tb0 & Te).
  rewrite <- Tall in Tt, Tb0, Te.
  fold test_l in Tt. fold test_l body_l in Tb0. fold test_l body_l end_l in Te.
  assert (Nc : List.length (labels (bc cc)) = S end_l)
    by (rewrite Tc, length_app, E3; simpl; lia).
  (* the jump to the test, the body label *)
  apply bind_OK in H; destruct H as ([] & cj & Hjmp & H).
  apply bc_jump_buf in Hjmp.
  destruct Hjmp as (Lj & Tj & _ & _ & d & Bj & Jj).
  unfold jumps_to in Jj; rewrite Tt in Jj; subst d.
  apply bind_OK in H; destruct H as ([] & c1 & Hput & H).
  apply bc_put_label_OK in Hput; destruct Hput as (_ & L1 & B1 & T1 & _).
  assert (B1' : buf (bc c1) = buf (bc c) ++ [Jmp JUMP (Pending test_l)])
    by (rewrite B1, Bj, Bc, Bb, Ba; reflexivity).
  assert (Off : List.length (buf (bc cj)) = body_off)
    by (rewrite Bj, Bc, Bb, Ba, length_app; simpl; unfold body_off; lia).
  rewrite Off in T1.
  assert (N1 : List.length (labels (bc c1)) = S end_l)
    by (rewrite T1, list_set_length, Tj; exact Nc).
  assert (Tb1 : nth_error (labels (bc c1)) body_l = Some (Some body_off))
    by (rewrite T1; apply list_set_same; rewrite Tj, Nc; unfold end_l; lia).
  assert (Tt1 : nth_error (labels (bc c1)) test_l = Some None)
    by (rewrite T1, list_set_other by (unfold body_l; lia); rewrite Tj; exact Tt).
  assert (Te1 : nth_error (labels (bc c1)) end_l = Some None)
    by (rewrite T1, list_set_other by (unfold end_l; lia); rewrite Tj; exact Te).
  assert (L1' : loop_stack c1 = loop_stack c)
    by (rewrite L1, Lj, Lc, Lb, La; reflexivity).
  (* the body, between push and pop *)
  apply bind_OK in H; destruct H as ([] & c1p & Hpush & H).
  unfold loop_push in Hpush; inversion Hpush; subst c1p; clear Hpush.
  rewrite L1' in H.
  apply bind_OK in H; destruct H as (rb & c2 & Hbody & H).
  assert (F2 : frame (S end_l)
                     {| loop_stack := loop_stack c ++ [(test_l, end_l, "while")];
                        bc := bc c1 |} c2)
    by (eapply visit_suite_frame; [|eassumption]; cbn [bc]; lia).
  destruct (visit_suite_emits stack_effect symtab_map filename _ _ _ _ _ Hbody)
    as [code_body Eb].
  pose proof (frame_loop F2) as L2; cbn [loop_stack] in L2.
  pose proof (frame_len F2) as N2; cbn [bc] in N2.
  apply bind_OK in H; destruct H as ([] & c2p & Hpop & H).
  apply loop_pop_OK in Hpop; destruct Hpop as [_ Hpop].
  inversion Hpop; subst c2p; clear Hpop.
  rewrite L2, removelast_last in H.
  (* the test label, the test, the jump back *)
  apply bind_OK in H; destruct H as ([] & c3 & Hput & H).
  apply bc_put_label_OK in Hput; cbn [bc loop_stack] in Hput.
  destruct Hput as (_ & L3 & B3 & T3 & _).
  assert (N3 : List.length (labels (bc c3)) = List.length (labels (bc c2)))
    by (rewrite T3; apply list_set_length).
  assert (Tt3 : nth_error (labels (bc c3)) test_l
                = Some (Some (List.length (buf (bc c2)))))
    by (rewrite T3; apply list_set_same; unfold end_l, body_l in *; lia).
  assert (Tb3 : nth_error (labels (bc c3)) body_l = Some (Some body_off)).
  { rewrite T3, list_set_other by (unfold body_l; lia).
    rewrite (frame_labels F2) by (unfold end_l; lia). exact Tb1. }
  assert (Te3 : nth_error (labels (bc c3)) end_l = Some None).
  { rewrite T3, list_set_other by (unfold end_l, body_l; lia).
    rewrite (frame_labels F2) by lia. exact Te1. }
  apply bind_OK in H; destruct H as ([] & c4 & Htest & H).
  assert (F4 : frame (S end_l) c3 c4)
    by (eapply visit_expr_frame; [|eassumption]; lia).
  destruct (visit_expr_emits stack_effect _ _ _ _ _ Htest) as [code_test Et].
  apply bind_OK in H; destruct H as ([] & c5 & Hjmp & H).
  apply bc_jump_buf in Hjmp.
  destruct Hjmp as (L5 & T5 & _ & _ & d & B5 & J5).
  unfold jumps_to in J5.
  rewrite (frame_labels F4) in J5 by (unfold end_l; lia).
  rewrite Tb3 in J5; subst d.
  (* the else-branch and the end label *)
  apply bind_OK in H; destruct H as (re & c6 & Helse & Hend).
  assert (N5 : (S end_l <= List.length (labels (bc c5)))%nat)
    by (rewrite T5; pose proof (frame_len F4); lia).
  assert (F6 : frame (S end_l) c5 c6)
    by (eapply visit_suite_frame; eassumption).
  destruct (visit_suite_emits stack_effect symtab_map filename _ _ _ _ _ Helse)
    as [code_else Ee].
  pose proof Hend as Hend'.
  apply bc_put_label_OK in Hend'; destruct Hend' as (_ & L7 & B7 & T7 & _).
  assert (N6 : (S end_l <= List.length (labels (bc c6)))%nat)
    by (pose proof (frame_len F6); lia).
  assert (Len2 : List.length (buf (bc c2)) = (body_off + List.length code_body)%nat).
  { destruct Eb as [_ Eb]; cbn [bc] in Eb.
    rewrite Eb, length_app, B1', length_app; simpl; unfold body_off; lia. }
  exists code_body, code_test, code_else, c1, c2, c3, c4, c5, c6.
  split; [exact B1'|]. split; [exact Eb|]. split; [exact L2|].
  split; [exact L3|]. split; [exact B3|]. split; [exact Et|].
  split; [exact B5|]. split; [exact Ee|]. split; [exact Hend|].
  split.
  { rewrite L7, (frame_loop F6), L5, (frame_loop F4), L3; reflexivity. }
  split.
  { rewrite T7, list_set_other by (unfold end_l; lia).
    rewrite (frame_labels F6) by (unfold end_l; lia).
    rewrite T5, (frame_labels F4) by (unfold end_l; lia). exact Tb3. }
  split.
  { rewrite T7, list_set_other by (unfold end_l, body_l; lia).
    rewrite (frame_labels F6) by (unfold end_l, body_l; lia).
    rewrite T5, (frame_labels F4) by (unfold end_l, body_l; lia).
    rewrite Tt3, Len2; reflexivity. }
  split.
  { rewrite T7, B7. apply list_set_same. lia. }
  destruct Eb as [_ Eb], Et as [_ Et], Ee as [_ Ee]; cbn [bc] in Eb.
  rewrite B7, Ee, B5, Et, B3, Eb, B1', <- !app_assoc; reflexivity.
Qed.

(** *** Conditionals *)

(** X9.  An [if] statement emits the test first and allocates its labels
    after it.  Without an else-branch it emits [POP_JUMP_IF_FALSE] to the
    join label and the body, and binds the join label after the body.  With
    an else-branch it emits [POP_JUMP_IF_FALSE] to the else label, the body,
    a jump to the join label, the else-branch at the offset the else label
    is bound to, and binds the join label after the else-branch. *)
Theorem if_statement_layout :
  forall symtab test body orelse c c',
    visit_s symtab (ast.If test body orelse) c = OK (tt, c') ->
    exists code_test code_body c1 c2 c3,
      let join_l := List.length (labels (bc c1)) in
      let else_l := S join_l in
      emits (visit_e symtab test) c code_test c1 /\
      emits (_visit_suite (visit_s symtab) body) c2 code_body c3 /\
      loop_stack c' = loop_stack c /\
      nth_error (labels (bc c')) join_l = Some (Some (List.length (buf (bc c')))) /\
      (orelse = [] ->
       buf (bc c') = buf (bc c) ++ code_test
                     ++ [Jmp POP_JUMP_IF_FALSE (Pending join_l)] ++ code_body) /\
      (orelse <> [] ->
       exists code_else c4 c5,
         emits (_visit_suite (visit_s symtab) orelse) c4 code_else c5 /\
         buf (bc c4) = buf (bc c3) ++ [Jmp JUMP (Pending join_l)] /\
         nth_error (labels (bc c')) else_l
         = Some (Some (List.length (buf (bc c4)))) /\
         buf (bc c') = buf (bc c) ++ code_test
                       ++ [Jmp POP_JUMP_IF_FALSE (Pending else_l)] ++ code_body
                       ++ [Jmp JUMP (Pending join_l)] ++ code_else).
Proof.
  intros symtab test body orelse c c' H.
  simpl in H; unfold visit_If in H.
  apply bind_OK in H; destruct H as ([] & c1 & Htest & H).
  destruct (visit_expr_emits stack_effect _ _ _ _ _ Htest) as [code_test Et].
  pose proof (visit_expr_frame stack_effect _ _ _ _ _ O (Nat.le_0_l _) Htest) as F1.
  apply bind_OK in H; destruct H as (l1 & ca & Hl1 & H).
  apply bc_get_label_OK in Hl1; destruct Hl1 as (-> & La & Ba & Ta & _).
  set (join_l := List.length (labels (bc c1))) in *.
  apply bind_OK in H; destruct H as ([] & cz & Hbranch & Hput).
  pose proof Hput as Hput'.
  apply bc_put_label_OK in Hput'; destruct Hput' as (_ & Lz & Bz & Tz & _).
  destruct orelse as [|s0 orelse]; cbn [is_nil negb] in Hbranch.
  - (* no else-branch *)
    apply bind_OK in Hbranch; destruct Hbranch as ([] & c2 & Hjmp & Hbranch).
    apply bind_OK in Hbranch; destruct Hbranch as (rb & c3 & Hbody & Hret).
    inversion Hret; subst cz; clear Hret.
    assert (Tj : nth_error (labels (bc ca)) join_l = Some None).
    { rewrite Ta, nth_error_app2 by (unfold join_l; lia).
      unfold join_l; rewrite Nat.sub_diag; reflexivity. }
    apply bc_jump_buf in Hjmp.
    destruct Hjmp as (L2 & T2 & _ & _ & d & B2 & J2).
    unfold jumps_to in J2; rewrite Tj in J2; subst d.
    assert (N2 : (S join_l <= List.length (labels (bc c2)))%nat).
    { rewrite T2, Ta, length_app; simpl; unfold join_l; lia. }
    pose proof (visit_suite_frame stack_effect symtab_map filename
                                  _ _ _ _ _ (S join_l) N2 Hbody) as F3.
    destruct (visit_suite_emits stack_effect symtab_map filename _ _ _ _ _ Hbody)
      as [code_body Eb].
    exists code_test, code_body, c1, c2, c3. cbv zeta. fold join_l.
    split; [exact Et|]. split; [exact Eb|].
    split.
    { rewrite Lz, (frame_loop F3), L2, La, (frame_loop F1); reflexivity. }
    split.
    { rewrite Tz, Bz. apply list_set_same. pose proof (frame_len F3); lia. }
    split; [| intros Hne; exfalso; apply Hne; reflexivity].
    intros _. destruct Et as [_ Et], Eb as [_ Eb].
    rewrite Bz, Eb, B2, Ba, Et, <- !app_assoc; reflexivity.
  - (* with an else-branch *)
    apply bind_OK in Hbranch; destruct Hbranch as (l2 & cb & Hl2 & Hbranch).
    apply bc_get_label_OK in Hl2; destruct Hl2 as (-> & Lb & Bb & Tb & _).
    assert (E2 : List.length (labels (bc ca)) = S join_l)
      by (rewrite Ta, length_app; simpl; unfold join_l; lia).
    rewrite E2 in Hbranch.
    destruct (nth_error_two_fresh _ (labels (bc c1)) None None) as (Tj & Te).
    rewrite <- Ta, <- Tb in Tj, Te. fold join_l in Tj, Te.
    assert (Nb : List.length (labels (bc cb)) = S (S join_l))
      by (rewrite Tb, length_app, E2; simpl; lia).
    apply bind_OK in Hbranch; destruct Hbranch as ([] & c2 & Hjmp & Hbranch).
    apply bc_jump_buf in Hjmp.
    destruct Hjmp as (L2 & T2 & _ & _ & d & B2 & J2).
    unfold jumps_to in J2; rewrite Te in J2; subst d.
    apply bind_OK in Hbranch; destruct Hbranch as (rb & c3 & Hbody & Hbranch).
    assert (N2 : (S (S join_l) <= List.length (labels (bc c2)))%nat)
      by (rewrite T2, Nb; lia).
    pose proof (visit_suite_frame stack_effect symtab_map filename
                                  _ _ _ _ _ (S (S join_l)) N2 Hbody) as F3.
    destruct (visit_suite_emits stack_effect symtab_map filename _ _ _ _ _ Hbody)
      as [code_body Eb].
    apply bind_OK in Hbranch; destruct Hbranch as ([] & c3j & Hjmp & Hbranch).
    apply bc_jump_buf in Hjmp.
    destruct Hjmp as (L3j & T3j & _ & _ & d & B3j & J3j).
    unfold jumps_to in J3j.
    rewrite (frame_labels F3), T2, Tj in J3j by lia; subst d.
    apply bind_OK in Hbranch; destruct Hbranch as ([] & c4 & Hpe & Hbranch).
    apply bc_put_label_OK in Hpe; destruct Hpe as (_ & L4 & B4 & T4 & _).
    apply bind_OK in Hbranch; destruct Hbranch as (re & c5 & Helse & Hret).
    inversion Hret; subst cz; clear Hret.
    assert (N3 : (S (S join_l) <= List.length (labels (bc c3)))%nat)
      by (pose proof (frame_len F3); lia).
    assert (N4 : (S (S join_l) <= List.length (labels (bc c4)))%nat)
      by (rewrite T4, list_set_length, T3j; exact N3).
    pose proof (visit_suite_frame stack_effect symtab_map filename
                                  _ _ _ _ _ (S (S join_l)) N4 Helse) as F5.
    destruct (visit_suite_emits stack_effect symtab_map filename _ _ _ _ _ Helse)
      as [code_else Ee].
    assert (Te4 : nth_error (labels (bc c4)) (S join_l)
                  = Some (Some (List.length (buf (bc c4))))).
    { rewrite T4, B4. apply list_set_same. rewrite T3j; lia. }
    exists code_test, code_body, c1, c2, c3. cbv zeta. fold join_l.
    split; [exact Et|]. split; [exact Eb|].
    split.
    { rewrite Lz, (frame_loop F5), L4, L3j, (frame_loop F3), L2, Lb, La,
        (frame_loop F1); reflexivity. }
    split.
    { rewrite Tz, Bz. apply list_set_same. pose proof (frame_len F5); lia. }
    split; [intros Hnil; discriminate|].
    intros _. exists code_else, c4, c5.
    split; [exact Ee|].
    split; [rewrite B4; exact B3j|].
    split.
    { rewrite Tz, list_set_other by lia.
      rewrite (frame_labels F5) by lia. exact Te4. }
    destruct Et as [_ Et], Eb as [_ Eb], Ee as [_ Ee].
    rewrite Bz, Ee, B4, B3j, Eb, B2, Bb, Ba, Et, <- !app_assoc; reflexivity.
Qed.

(** *** Names *)

(** The opcode [_visit_var] selects for a context and a scope. *)
Definition var_op (ctx : ast.expr_context) (sc : scope) : option opcode :=
  match ctx with
  | ast.Load => Some (load_ops sc)
  | ast.Store => Some (store_ops sc)
  | ast.StoreConst => Some (store_const_ops sc)
  | ast.Del => None
  end.

Lemma var_op_inline :
  forall ctx sc op, var_op ctx sc = Some op -> pool_operand op = false.
Proof.
  intros ctx sc op H; destruct ctx, sc; inversion H; reflexivity.
Qed.

(** X10.  A reference to a name compiles to exactly one instruction and
    adds nothing to the constant pool.  Its operand is the slot number the
    symbol table gives for a FAST or DEREF name, and the name itself for a
    NAME or GLOBAL name; for a FAST or DEREF name a definitional store
    ([StoreConst]) is the same instruction as a plain store.  In a context
    other than load, store and definitional store the visit fails its
    assertion, once the scope of the name has been looked up. *)
Theorem name_reference_one_instruction :
  forall symtab var ctx c,
    (forall c', _visit_var stack_effect symtab var ctx c = OK (tt, c') ->
       exists sc op operand arg,
         get_scope symtab var = OK sc /\
         var_op ctx sc = Some op /\
         match sc with
         | SCOPE_FAST | SCOPE_DEREF =>
             exists id, get_fast_local symtab var = OK id /\
                        operand = OInt id /\ arg = CInt id
         | _ => operand = OAtom var /\ arg = CStr var
         end /\
         c' = {| loop_stack := loop_stack c;
                 bc := emit (Ins op [operand]) (stack_effect op [arg]) (bc c) |}) /\
    (forall sc, get_scope symtab var = OK sc -> ctx = ast.Del ->
       _visit_var stack_effect symtab var ctx c = Err AssertionError) /\
    (forall sc, sc = SCOPE_FAST \/ sc = SCOPE_DEREF ->
       var_op ast.StoreConst sc = var_op ast.Store sc).
Proof.
  intros symtab var ctx c; split; [|split].
  - intros c' H; unfold _visit_var in H.
    apply bind_OK in H; destruct H as (sc & c0 & Hsc & H).
    apply lift_res_OK in Hsc; destruct Hsc as (sc' & Hsc & He).
    inversion He; subst sc' c0; clear He.
    apply bind_OK in H; destruct H as (op & c0 & Hop & H).
    assert (Hv : var_op ctx sc = Some op /\ c0 = c)
      by (destruct ctx; inversion Hop; auto).
    destruct Hv as [Hv ->]; clear Hop.
    pose proof (var_op_inline _ _ _ Hv) as Hin.
    destruct sc.
    + exists SCOPE_NAME, op, (OAtom var), (CStr var).
      unfold bc_add, on_bc, Bytecode_add in H; rewrite Hin in H; simpl in H.
      inversion H; auto.
    + exists SCOPE_GLOBAL, op, (OAtom var), (CStr var).
      unfold bc_add, on_bc, Bytecode_add in H; rewrite Hin in H; simpl in H.
      inversion H; auto.
    + apply bind_OK in H; destruct H as (id & c0 & Hid & H).
      apply lift_res_OK in Hid; destruct Hid as (id' & Hid & He).
      inversion He; subst id' c0; clear He.
      exists SCOPE_FAST, op, (OInt id), (CInt id).
      unfold bc_add, on_bc, Bytecode_add in H; rewrite Hin in H; simpl in H.
      inversion H; repeat split; eauto.
    + apply bind_OK in H; destruct H as (id & c0 & Hid & H).
      apply lift_res_OK in Hid; destruct Hid as (id' & Hid & He).
      inversion He; subst id' c0; clear He.
      exists SCOPE_DEREF, op, (OInt id), (CInt id).
      unfold bc_add, on_bc, Bytecode_add in H; rewrite Hin in H; simpl in H.
      inversion H; repeat split; eauto.
  - intros sc Hsc ->; unfold _visit_var, bind, lift_res.
    rewrite Hsc; reflexivity.
  - intros sc [-> | ->]; reflexivity.
Qed.

(** *** Function definitions, seen from the enclosing scope *)

Lemma pool_index_code :
  forall co pool, pool_index (CCode co) pool = None.
Proof.
  intros co pool; induction pool as [|x pool IH]; simpl; [reflexivity|].
  rewrite IH; destruct x; reflexivity.
Qed.

(** The instruction [_visit_var] emits for a name, when it emits one. *)
Definition var_instr (symtab : T) (var : string) (ctx : ast.expr_context)
  : option instr :=
  match get_scope symtab var with
  | OK sc =>
      match var_op ctx sc with
      | Some op =>
          match sc with
          | SCOPE_FAST | SCOPE_DEREF =>
              match get_fast_local symtab var with
              | OK id => Some (Ins op [OInt id])
              | Err _ => None
              end
          | _ => Some (Ins op [OAtom var])
          end
      | None => None
      end
  | Err _ => None
  end.

Lemma visit_var_instr :
  forall symtab var ctx c c',
    _visit_var stack_effect symtab var ctx c = OK (tt, c') ->
    exists i d,
      var_instr symtab var ctx = Some i /\
      c' = {| loop_stack := loop_stack c; bc := emit i d (bc c) |}.
Proof.
  intros symtab var ctx c c' H; unfold _visit_var in H.
  apply bind_OK in H; destruct H as (sc & c0 & Hsc & H).
  apply lift_res_OK in Hsc; destruct Hsc as (sc' & Hsc & He).
  inversion He; subst sc' c0; clear He.
  apply bind_OK in H; destruct H as (op & c0 & Hop & H).
  assert (Hv : var_op ctx sc = Some op /\ c0 = c)
    by (destruct ctx; inversion Hop; auto).
  destruct Hv as [Hv ->]; clear Hop.
  pose proof (var_op_inline _ _ _ Hv) as Hin.
  unfold var_instr; rewrite Hsc, Hv.
  destruct sc;
    try (apply bind_OK in H; destruct H as (id & c0 & Hid & H);
         apply lift_res_OK in Hid; destruct Hid as (id' & Hid & He);
         inversion He; subst id' c0; clear He; rewrite Hid);
    unfold bc_add, on_bc, Bytecode_add in H; rewrite Hin in H; simpl in H;
    inversion H; eauto.
Qed.

(** X11.  Seen from the enclosing scope, a function definition that
    compiles appends two instructions, [MAKE_FUNCTION] and the definitional
    store of the function name under the enclosing symbol table, and one
    pool entry, the code object of the function, to which the operand of
    [MAKE_FUNCTION] points; the labels, the fixups and the loop-context
    stack of the enclosing scope are untouched, whatever the body of the
    function contains. *)
Theorem function_definition_in_enclosing_scope :
  forall symtab name args body decorators returns c c',
    visit_s symtab (ast.FunctionDef name args body decorators returns) c
    = OK (tt, c') ->
    exists co c_in store,
      function_codeobj stack_effect symtab_map filename visit_s
                       (ast.FunctionDef name args body decorators returns)
                       name args body c
      = OK (co, c_in) /\
      var_instr symtab name ast.StoreConst = Some store /\
      buf (bc c')
      = buf (bc c)
        ++ [Ins MAKE_FUNCTION [OPool (List.length (const_table (bc c)))]; store] /\
      const_table (bc c') = const_table (bc c) ++ [CCode co] /\
      labels (bc c') = labels (bc c) /\
      fixups (bc c') = fixups (bc c) /\
      loop_stack c' = loop_stack c.
Proof.
  intros symtab name args body decorators returns c c' H.
  pose proof (visit_stmt_frame _ _ _ _ _ O (Nat.le_0_l _) H) as F.
  simpl in H; unfold _visit_function in H.
  apply bind_OK in H; destruct H as ([] & c0 & Hargs & H).
  assert (c0 = c).
  { unfold unsupported_args in Hargs.
    repeat (apply bind_OK in Hargs;
            let u := fresh in let cx := fresh in let Ha := fresh in
            destruct Hargs as (u & cx & Ha & Hargs);
            apply assert_OK in Ha; destruct Ha as [_ Ha];
            inversion Ha; subst; clear Ha).
    apply assert_OK in Hargs; destruct Hargs as [_ Ha]; inversion Ha; reflexivity. }
  subst c0; clear Hargs.
  apply bind_OK in H; destruct H as (prev & c0 & Hprev & H).
  unfold get_bc in Hprev; inversion Hprev; subst prev c0; clear Hprev.
  apply bind_OK in H; destruct H as (co & c_in & Hco & H).
  apply bind_OK in H; destruct H as ([] & c1 & Hset & H).
  unfold set_bc in Hset; inversion Hset; subst c1; clear Hset.
  apply bind_OK in H; destruct H as ([] & c2 & Hmk & Hstore).
  unfold bc_add, on_bc, Bytecode_add in Hmk; cbn [pool_operand bc] in Hmk.
  unfold intern_const in Hmk; rewrite pool_index_code in Hmk.
  inversion Hmk; subst c2; clear Hmk.
  apply visit_var_instr in Hstore; destruct Hstore as (i & d & Hi & ->).
  exists co, c_in, i.
  split; [exact Hco|]. split; [exact Hi|].
  cbn [bc buf const_table labels fixups loop_stack emit].
  rewrite <- app_assoc.
  repeat split; try reflexivity.
  exact (frame_loop F).
Qed.

(** *** Imports *)

(** [from m import *]: the list of names is the single name ["*"]. *)
Definition is_star (names : list ast.alias) : bool :=
  match names with
  | [n] => String.eqb (ast.name n) "*"
  | _ => false
  end.

Lemma foreach_load_names :
  forall (names : list ast.alias) c c',
    foreach (fun n => bc_add stack_effect LOAD_CONST_STRING [CStr (ast.name n)])
            names c = OK (tt, c') ->
    buf (bc c')
    = buf (bc c)
      ++ map (fun n => Ins LOAD_CONST_STRING [OAtom (ast.name n)]) names.
Proof.
  induction names as [|n names IH]; intros c c' H; simpl in H.
  - inversion H; subst; simpl; rewrite app_nil_r; reflexivity.
  - apply bind_OK in H; destruct H as ([] & c1 & H1 & H).
    unfold bc_add, on_bc, Bytecode_add in H1; simpl in H1.
    inversion H1; subst c1; clear H1.
    apply IH in H. rewrite H; cbn [bc buf emit map].
    rewrite <- app_assoc; reflexivity.
Qed.

(** The stores of an import statement: one instruction per alias, the
    definitional store of the name the alias binds. *)
Definition import_stores (symtab : T) (bound : ast.alias -> string)
           (names : list ast.alias) (stores : list instr) : Prop :=
  Forall2 (fun n i => var_instr symtab (bound n) ast.StoreConst = Some i)
          names stores.

Lemma foreach_import_from :
  forall symtab (names : list ast.alias) c c',
    foreach (fun n =>
               bind (bc_add stack_effect IMPORT_FROM [CStr (ast.name n)])
                    (fun _ => _visit_var stack_effect symtab
                                         (str_or (ast.asname n) (ast.name n))
                                         ast.StoreConst))
            names c = OK (tt, c') ->
    exists stores,
      import_stores symtab (fun n => str_or (ast.asname n) (ast.name n))
                    names stores /\
      buf (bc c')
      = buf (bc c)
        ++ flat_map (fun p => [Ins IMPORT_FROM [OAtom (ast.name (fst p))]; snd p])
                    (combine names stores).
Proof.
  intros symtab names; induction names as [|n names IH]; intros c c' H;
    simpl in H.
  - inversion H; subst. exists []; split; [constructor|].
    simpl; rewrite app_nil_r; reflexivity.
  - apply bind_OK in H; destruct H as ([] & c2 & Hn & H).
    apply bind_OK in Hn; destruct Hn as ([] & c1 & Hfrom & Hstore).
    unfold bc_add, on_bc, Bytecode_add in Hfrom; simpl in Hfrom.
    inversion Hfrom; subst c1; clear Hfrom.
    apply visit_var_instr in Hstore; destruct Hstore as (i & d & Hi & ->).
    destruct (IH _ _ H) as (stores & Hst & Hbuf).
    exists (i :: stores); split; [constructor; assumption|].
    rewrite Hbuf; cbn [bc buf emit combine flat_map fst snd].
    rewrite <- !app_assoc; reflexivity.
Qed.

(** X12.  An import-from statement emits the level, one
    [LOAD_CONST_STRING] per name, [BUILD_TUPLE] with the number of names and
    [IMPORT_NAME] with the module name, the empty string when there is none.
    For the single name ["*"] one [IMPORT_STAR] follows and nothing else;
    otherwise one [IMPORT_FROM] and one definitional store per name follow,
    of the [as] name when there is one and of the imported name otherwise,
    and a final [POP_TOP]. *)
Theorem import_from_layout :
  forall symtab module names level c c',
    visit_s symtab (ast.ImportFrom module names level) c = OK (tt, c') ->
    exists code_level c0 tail,
      emits (bc_load_int stack_effect level) c code_level c0 /\
      buf (bc c')
      = buf (bc c) ++ code_level
        ++ map (fun n => Ins LOAD_CONST_STRING [OAtom (ast.name n)]) names
        ++ [Ins BUILD_TUPLE [OInt (len names)];
            Ins IMPORT_NAME [OAtom (str_or module "")]]
        ++ tail /\
      if is_star names then tail = [Ins IMPORT_STAR []]
      else exists stores,
          import_stores symtab (fun n => str_or (ast.asname n) (ast.name n))
                        names stores /\
          tail = flat_map (fun p => [Ins IMPORT_FROM [OAtom (ast.name (fst p))];
                                     snd p])
                          (combine names stores)
                 ++ [Ins POP_TOP []].
Proof.
  intros symtab module names level c c' H.
  simpl in H; unfold visit_ImportFrom in H.
  apply bind_OK in H; destruct H as ([] & c0 & Hlevel & H).
  destruct (keeps_emits _ _ _ _ _ (@keeps_load_int stack_effect O level) Hlevel)
    as [code_level El].
  apply bind_OK in H; destruct H as ([] & c1 & Hnames & H).
  apply foreach_load_names in Hnames.
  apply bind_OK in H; destruct H as ([] & c2 & Htuple & H).
  pose proof (bc_add_ints BUILD_TUPLE [len names] c1 eq_refl) as E.
  cbn [map] in E; rewrite E in Htuple; clear E.
  inversion Htuple; subst c2; clear Htuple.
  apply bind_OK in H; destruct H as ([] & c3 & Himp & H).
  unfold bc_add, on_bc, Bytecode_add in Himp; simpl in Himp.
  inversion Himp; subst c3; clear Himp.
  fold (is_star names) in H.
  destruct (is_star names).
  - rewrite (bc_add_noargs stack_effect IMPORT_STAR _ eq_refl) in H.
    inversion H; subst c'; clear H.
    exists code_level, c0, [Ins IMPORT_STAR []].
    split; [exact El|]. split; [|reflexivity].
    destruct El as [_ El]. cbn [bc buf emit].
    rewrite Hnames, El, <- !app_assoc; reflexivity.
  - apply bind_OK in H; destruct H as ([] & c4 & Hfrom & Hpop).
    destruct (foreach_import_from _ _ _ _ Hfrom) as (stores & Hst & Hbuf).
    rewrite (bc_add_noargs stack_effect POP_TOP _ eq_refl) in Hpop.
    inversion Hpop; subst c'; clear Hpop.
    eexists code_level, c0, _.
    split; [exact El|]. split; [|exists stores; split; [exact Hst|reflexivity]].
    destruct El as [_ El]. cbn [bc buf emit] in *.
    rewrite Hbuf, Hnames, El, <- !app_assoc; reflexivity.
Qed.

(** The name an [import] binds: the [as] name, or the first component of
    the dotted module name. *)
Definition import_bound_name (n : ast.alias) : string :=
  if str_true (ast.asname n) then str_or (ast.asname n) ""
  else hd "" (split_dot (ast.name n)).

(** The code of one alias of an [import], given its store. *)
Definition import_code (n : ast.alias) (store : instr) : list instr :=
  [Ins LOAD_CONST_SMALL_INT [OInt 0]; Ins LOAD_CONST_NONE [];
   Ins IMPORT_NAME [OAtom (ast.name n)]]
  ++ (if str_true (ast.asname n)
      then map (fun comp => Ins LOAD_ATTR [OAtom comp])
               (tl (split_dot (ast.name n)))
      else [])
  ++ [store].

Lemma foreach_load_attr :
  forall (comps : list string) c c',
    foreach (fun comp => bc_add stack_effect LOAD_ATTR [CStr comp]) comps c
    = OK (tt, c') ->
    buf (bc c')
    = buf (bc c) ++ map (fun comp => Ins LOAD_ATTR [OAtom comp]) comps.
Proof.
  induction comps as [|x comps IH]; intros c c' H; simpl in H.
  - inversion H; subst; simpl; rewrite app_nil_r; reflexivity.
  - apply bind_OK in H; destruct H as ([] & c1 & H1 & H).
    unfold bc_add, on_bc, Bytecode_add in H1; simpl in H1.
    inversion H1; subst c1; clear H1.
    apply IH in H. rewrite H; cbn [bc buf emit map].
    rewrite <- app_assoc; reflexivity.
Qed.

(** X16.  An [import] statement emits for each alias, in order: the level
    [0], [None], [IMPORT_NAME] with the full dotted name, then for
    [import a.b.c as x] one [LOAD_ATTR] per component after the first and
    the definitional store of [x], and for [import a.b.c] no [LOAD_ATTR] and
    the definitional store of the first component [a]. *)
Theorem import_layout :
  forall symtab names c c',
    visit_s symtab (ast.Import names) c = OK (tt, c') ->
    exists stores,
      import_stores symtab import_bound_name names stores /\
      buf (bc c')
      = buf (bc c)
        ++ flat_map (fun p => import_code (fst p) (snd p)) (combine names stores).
Proof.
  intros symtab names; simpl; unfold visit_Import.
  induction names as [|n names IH]; intros c c' H; simpl in H.
  - inversion H; subst. exists []; split; [constructor|].
    simpl; rewrite app_nil_r; reflexivity.
  - apply bind_OK in H; destruct H as ([] & c5 & Hn & H).
    destruct (IH _ _ H) as (stores & Hst & Hbuf); clear IH H.
    apply bind_OK in Hn; destruct Hn as ([] & c1 & H0 & Hn).
    pose proof (bc_load_int_small stack_effect 0 c eq_refl) as E0.
    rewrite E0 in H0; inversion H0; subst c1; clear H0 E0.
    apply bind_OK in Hn; destruct Hn as ([] & c2 & Hnone & Hn).
    rewrite (bc_add_noargs stack_effect LOAD_CONST_NONE _ eq_refl) in Hnone.
    inversion Hnone; subst c2; clear Hnone.
    apply bind_OK in Hn; destruct Hn as ([] & c3 & Himp & Hn).
    unfold bc_add, on_bc, Bytecode_add in Himp; simpl in Himp.
    inversion Himp; subst c3; clear Himp.
    unfold import_stores, import_bound_name, import_code in *.
    destruct (str_true (ast.asname n)) eqn:Eas.
    + apply bind_OK in Hn; destruct Hn as ([] & c4 & Hattr & Hstore).
      apply foreach_load_attr in Hattr.
      apply visit_var_instr in Hstore; destruct Hstore as (i & d & Hi & ->).
      exists (i :: stores); split.
      * constructor; [rewrite Eas; exact Hi | exact Hst].
      * rewrite Hbuf; cbn [bc buf emit combine flat_map fst snd] in *.
        rewrite Eas, Hattr; cbn [bc buf emit].
        rewrite <- !app_assoc; reflexivity.
    + apply visit_var_instr in Hn; destruct Hn as (i & d & Hi & ->).
      exists (i :: stores); split.
      * constructor; [rewrite Eas; exact Hi | exact Hst].
      * rewrite Hbuf; cbn [bc buf emit combine flat_map fst snd].
        rewrite Eas; cbn [app]; rewrite <- !app_assoc; reflexivity.
Qed.

(** *** Operators *)

Lemma pool_operand_binop : forall op, pool_operand (binop_map op) = false.
Proof. destruct op; reflexivity. Qed.

Lemma pool_operand_unop : forall op, pool_operand (unop_map op) = false.
Proof. destruct op; reflexivity. Qed.

(** X17.  Operands are evaluated before the operator and from left to
    right: a binary operation emits its left operand, its right operand and
    then the one instruction of the operator, a unary operation its operand
    and then the instruction of the operator; the operator instruction has
    no operand and adds nothing to the constant pool. *)
Theorem operator_layout :
  (forall symtab l op r c c',
      visit_e symtab (ast.BinOp l op r) c = OK (tt, c') ->
      exists code_l code_r c1 c2,
        emits (visit_e symtab l) c code_l c1 /\
        emits (visit_e symtab r) c1 code_r c2 /\
        buf (bc c') = buf (bc c) ++ code_l ++ code_r ++ [Ins (binop_map op) []] /\
        const_table (bc c') = const_table (bc c2) /\
        stk_ptr (bc c') = stk_ptr (bc c2) + stack_effect (binop_map op) []) /\
  (forall symtab op e c c',
      visit_e symtab (ast.UnaryOp op e) c = OK (tt, c') ->
      exists code_e c1,
        emits (visit_e symtab e) c code_e c1 /\
        buf (bc c') = buf (bc c) ++ code_e ++ [Ins (unop_map op) []] /\
        const_table (bc c') = const_table (bc c1) /\
        stk_ptr (bc c') = stk_ptr (bc c1) + stack_effect (unop_map op) []).
Proof.
  split.
  - intros symtab l op r c c' H; simpl in H; unfold visit_BinOp in H.
    apply bind_OK in H; destruct H as ([] & c1 & Hl & H).
    apply bind_OK in H; destruct H as ([] & c2 & Hr & Hop).
    destruct (visit_expr_emits stack_effect _ _ _ _ _ Hl) as [code_l El].
    destruct (visit_expr_emits stack_effect _ _ _ _ _ Hr) as [code_r Er].
    rewrite (bc_add_noargs stack_effect _ c2 (pool_operand_binop op)) in Hop.
    inversion Hop; subst c'; clear Hop.
    exists code_l, code_r, c1, c2.
    split; [exact El|]. split; [exact Er|].
    destruct El as [_ El], Er as [_ Er]; cbn [bc buf const_table stk_ptr emit].
    rewrite Er, El, <- !app_assoc; auto.
  - intros symtab op e c c' H; simpl in H; unfold visit_UnaryOp in H.
    apply bind_OK in H; destruct H as ([] & c1 & He & Hop).
    destruct (visit_expr_emits stack_effect _ _ _ _ _ He) as [code_e Ee].
    rewrite (bc_add_noargs stack_effect _ c1 (pool_operand_unop op)) in Hop.
    inversion Hop; subst c'; clear Hop.
    exists code_e, c1.
    split; [exact Ee|].
    destruct Ee as [_ Ee]; cbn [bc buf const_table stk_ptr emit].
    rewrite Ee, <- !app_assoc; auto.
Qed.

(** *** Simple statements *)

(** X18.  A bare [return] compiles wherever it stands, also outside a
    function: it emits [LOAD_CONST_NONE; RETURN_VALUE].  A [return] with a
    value emits the value and [RETURN_VALUE]; an expression statement emits
    the expression and one [POP_TOP], which discards the value; [pass]
    emits nothing. *)
Theorem simple_statement_layout :
  (forall symtab c,
      visit_s symtab (ast.Return None) c
      = OK (tt, {| loop_stack := loop_stack c;
                   bc := emit (Ins RETURN_VALUE []) (stack_effect RETURN_VALUE [])
                           (emit (Ins LOAD_CONST_NONE [])
                                 (stack_effect LOAD_CONST_NONE []) (bc c)) |})) /\
  (forall symtab v c c',
      visit_s symtab (ast.Return (Some v)) c = OK (tt, c') ->
      exists code_v c1,
        emits (visit_e symtab v) c code_v c1 /\
        buf (bc c') = buf (bc c) ++ code_v ++ [Ins RETURN_VALUE []]) /\
  (forall symtab v c c',
      visit_s symtab (ast.Expr v) c = OK (tt, c') ->
      exists code_v c1,
        emits (visit_e symtab v) c code_v c1 /\
        buf (bc c') = buf (bc c) ++ code_v ++ [Ins POP_TOP []] /\
        stk_ptr (bc c') = stk_ptr (bc c1) + stack_effect POP_TOP []) /\
  (forall symtab c, visit_s symtab ast.Pass c = OK (tt, c)).
Proof.
  split; [|split; [|split]].
  - intros symtab c; simpl; unfold visit_Return.
    unfold bind at 1.
    rewrite (bc_add_noargs stack_effect LOAD_CONST_NONE c eq_refl).
    rewrite (bc_add_noargs stack_effect RETURN_VALUE _ eq_refl).
    reflexivity.
  - intros symtab v c c' H; simpl in H; unfold visit_Return in H.
    apply bind_OK in H; destruct H as ([] & c1 & Hv & Hret).
    destruct (visit_expr_emits stack_effect _ _ _ _ _ Hv) as [code_v Ev].
    rewrite (bc_add_noargs stack_effect RETURN_VALUE c1 eq_refl) in Hret.
    inversion Hret; subst c'; clear Hret.
    exists code_v, c1; split; [exact Ev|].
    destruct Ev as [_ Ev]; cbn [bc buf emit].
    rewrite Ev, <- !app_assoc; reflexivity.
  - intros symtab v c c' H; simpl in H; unfold visit_Expr in H.
    apply bind_OK in H; destruct H as ([] & c1 & Hv & Hpop).
    destruct (visit_expr_emits stack_effect _ _ _ _ _ Hv) as [code_v Ev].
    rewrite (bc_add_noargs stack_effect POP_TOP c1 eq_refl) in Hpop.
    inversion Hpop; subst c'; clear Hpop.
    exists code_v, c1; split; [exact Ev|].
    destruct Ev as [_ Ev]; cbn [bc buf stk_ptr emit].
    rewrite Ev, <- !app_assoc; auto.
  - intros symtab c; reflexivity.
Qed.

(** *** Modules *)

(** X19.  A module is assembled in a fresh builder, whatever builder the
    compiler held before.  Its code is the code of its body followed by
    [LOAD_CONST_NONE; RETURN_VALUE], which is appended also when the body
    ends in a [return]; a module without an entry in the symbol-table map
    is refused with [KeyError]. *)
Theorem module_layout :
  forall body c,
    (symtab_map (ModuleScope (ast.Module body)) = None ->
     visit_Module stack_effect symtab_map filename (ast.Module body) c
     = Err KeyError) /\
    (forall c',
        visit_Module stack_effect symtab_map filename (ast.Module body) c
        = OK (tt, c') ->
        exists t last c1,
          symtab_map (ModuleScope (ast.Module body)) = Some t /\
          _visit_suite (visit_s t) body
                       {| loop_stack := loop_stack c; bc := Bytecode_new |}
          = OK (last, c1) /\
          buf (bc c')
          = buf (bc c1) ++ [Ins LOAD_CONST_NONE []; Ins RETURN_VALUE []] /\
          const_table (bc c') = const_table (bc c1) /\
          labels (bc c') = labels (bc c1) /\
          loop_stack c' = loop_stack c).
Proof.
  intros body c; split.
  - intros Hn; unfold visit_Module, lookup_symtab, bind, lift_res.
    rewrite Hn; reflexivity.
  - intros c' H; unfold visit_Module in H.
    apply bind_OK in H; destruct H as (t & c0 & Hlook & H).
    unfold lookup_symtab in Hlook.
    apply lift_res_OK in Hlook; destruct Hlook as (t' & Ht & He).
    inversion He; subst t' c0; clear He.
    apply bind_OK in H; destruct H as ([] & c0 & Hnew & H).
    unfold set_bc in Hnew; inversion Hnew; subst c0; clear Hnew.
    apply bind_OK in H; destruct H as (last & c1 & Hbody & H).
    apply bind_OK in H; destruct H as ([] & c2 & H1 & H2).
    rewrite (bc_add_noargs stack_effect LOAD_CONST_NONE c1 eq_refl) in H1.
    inversion H1; subst c2; clear H1.
    rewrite (bc_add_noargs stack_effect RETURN_VALUE _ eq_refl) in H2.
    inversion H2; subst c'; clear H2.
    exists t, last, c1.
    destruct (symtab_map (ModuleScope (ast.Module body))) as [t0|];
      [|discriminate].
    inversion Ht; subst t0.
    split; [reflexivity|]. split; [exact Hbody|].
    cbn [bc buf const_table labels loop_stack emit].
    rewrite <- app_assoc.
    repeat split; try reflexivity.
    exact (frame_loop (visit_suite_frame stack_effect symtab_map filename
                         _ _ _ _ _ O (Nat.le_0_l _) Hbody)).
Qed.

(** *** [break] and [continue] outside a loop *)

(** A [break] or [continue] of [s] that no loop of [s] encloses: the
    statement itself, or one in the [else] suite of a loop, in a branch of an
    [if] or in the body of a function definition, and so on below these. *)
Fixpoint stray_jump (s : ast.stmt) : bool :=
  match s with
  | ast.Break | ast.Continue => true
  | ast.FunctionDef _ _ body _ _ => existsb stray_jump body
  | ast.For _ _ _ orelse => existsb stray_jump orelse
  | ast.While _ _ orelse => existsb stray_jump orelse
  | ast.If _ body orelse => existsb stray_jump body || existsb stray_jump orelse
  | _ => false
  end.

Definition outside (c : Compiler) : Prop := loop_stack c = [].

Definition stays_outside {A : Type} (m : M A) : Prop :=
  forall c a c', outside c -> m c = OK (a, c') -> outside c'.

Definition fails_outside {A : Type} (m : M A) : Prop :=
  forall c, outside c -> is_err (m c).

Lemma stays_outside_keeps :
  forall (A : Type) (m : M A), keeps 0 m -> stays_outside m.
Proof.
  intros A m K c a c' Hc H; unfold outside in *.
  rewrite (@keeps_loop_stack _ _ _ _ _ K H); exact Hc.
Qed.

Lemma stays_outside_set_bc : forall b, stays_outside (set_bc b).
Proof.
  intros b c a c' Hc H; unfold set_bc in H; inversion H; subst; exact Hc.
Qed.

Lemma keeps_one_label : forall n, keeps n bc_get_label.
Proof.
  intros n c l c' Hn H.
  assert (K : keeps n (bind bc_get_label (fun l => ret l))).
  { apply keeps_get_label; intros; apply keeps_ret. }
  apply (K c l c' Hn).
  unfold bind; rewrite H; reflexivity.
Qed.

Lemma fails_outside_bind_l :
  forall (A B : Type) (m : M A) (f : A -> M B),
    fails_outside m -> fails_outside (bind m f).
Proof.
  intros A B m f H c Hc; destruct (H c Hc) as [e He].
  exists e; unfold bind; rewrite He; reflexivity.
Qed.

Lemma fails_outside_bind_r :
  forall (A B : Type) (m : M A) (f : A -> M B),
    stays_outside m -> (forall a, fails_outside (f a)) ->
    fails_outside (bind m f).
Proof.
  intros A B m f Hm Hf c Hc; unfold bind.
  destruct (m c) as [[a c1]|e] eqn:E; [|exists e; reflexivity].
  apply (Hf a c1); apply (Hm c a c1 Hc E).
Qed.

(** The stack is empty again once the body of a loop has been left. *)
Lemma fails_outside_loop :
  forall (A B : Type) fr (m : M A) (k : M B),
    keeps 0 m -> fails_outside k ->
    fails_outside
      (bind (loop_push fr) (fun _ => bind m (fun _ => bind loop_pop (fun _ => k)))).
Proof.
  intros A B fr m k Hm Hk c Hc.
  unfold bind at 1; unfold loop_push at 1.
  unfold bind at 1.
  destruct (m _) as [[a c2]|e] eqn:E; [|exists e; reflexivity].
  pose proof (@keeps_loop_stack _ _ _ _ _ Hm E) as L; simpl in L.
  unfold bind, loop_pop; rewrite L, Hc; simpl.
  apply Hk; reflexivity.
Qed.

Lemma stray_suite_loop :
  forall (visit : ast.stmt -> M unit) lst,
    (forall x, keeps 0 (visit x)) ->
    Exists (fun x => fails_outside (visit x)) lst ->
    forall s, fails_outside (suite_loop visit s lst).
Proof.
  intros visit lst K; induction lst as [|x r IH]; intros E s;
    [inversion E|]; simpl.
  apply fails_outside_bind_r;
    [apply stays_outside_keeps, keeps_get_stk_ptr | intros org].
  inversion E as [? ? Hx | ? ? Hr]; subst.
  - apply fails_outside_bind_l; exact Hx.
  - apply fails_outside_bind_r; [apply stays_outside_keeps, K | intros _].
    apply fails_outside_bind_r;
      [apply stays_outside_keeps, keeps_get_stk_ptr | intros now].
    apply fails_outside_bind_r;
      [apply stays_outside_keeps, keeps_assert | intros _].
    apply IH; exact Hr.
Qed.

Lemma stray_suite :
  forall symtab lst,
    Forall (fun s => stray_jump s = true ->
                     forall t, fails_outside (visit_s t s)) lst ->
    existsb stray_jump lst = true ->
    fails_outside (_visit_suite (visit_s symtab) lst).
Proof.
  intros symtab lst IH E; unfold _visit_suite.
  apply stray_suite_loop.
  - intros x; apply keeps_visit_stmt.
  - apply existsb_exists in E; destruct E as (x & Hx & Sx).
    apply Exists_exists; exists x; split; [exact Hx|].
    rewrite Forall_forall in IH; apply IH; assumption.
Qed.

Ltac outside_step :=
  first
    [ apply fails_outside_loop; [apply keeps_suite|]
    | apply fails_outside_bind_r;
      [ first [ apply stays_outside_set_bc
              | apply stays_outside_keeps;
                first [ apply keeps_one_label | apply keeps_visit_expr
                      | apply keeps_suite | apply keeps_get_bc
                      | apply keeps_put_label; lia
                      | solve [repeat keeps_step] ] ]
      | intros ? ] ].

Lemma stray_jump_fails :
  forall s, stray_jump s = true -> forall symtab, fails_outside (visit_s symtab s).
Proof.
  induction s using stmt_induction; intros S symtab; simpl in S;
    try discriminate; simpl.
  - (* FunctionDef *)
    unfold _visit_function.
    apply fails_outside_bind_r;
      [apply stays_outside_keeps; unfold unsupported_args; repeat keeps_step
      | intros _].
    outside_step. apply fails_outside_bind_l.
    unfold function_codeobj, lookup_symtab.
    do 4 outside_step.
    apply fails_outside_bind_l; apply stray_suite; assumption.
  - (* For *)
    unfold visit_For.
    do 12 outside_step.
    apply fails_outside_bind_l; apply stray_suite; assumption.
  - (* While *)
    unfold visit_While.
    do 9 outside_step.
    apply fails_outside_bind_l; apply stray_suite; assumption.
  - (* If *)
    unfold visit_If.
    do 2 outside_step. apply fails_outside_bind_l.
    apply orb_true_iff in S.
    destruct (negb (is_nil orelse)) eqn:E.
    + do 2 outside_step.
      destruct (existsb stray_jump body) eqn:Sb.
      * apply fails_outside_bind_l; apply stray_suite; auto.
      * destruct S as [S|S]; [discriminate|].
        do 3 outside_step.
        apply fails_outside_bind_l; apply stray_suite; assumption.
    + destruct orelse; [|discriminate]. simpl in S.
      destruct S as [S|S]; [|discriminate].
      outside_step.
      apply fails_outside_bind_l; apply stray_suite; assumption.
  - (* Break *)
    intros c Hc; exists AssertionError; apply visit_Break_empty; exact Hc.
  - (* Continue *)
    intros c Hc; exists AssertionError; apply visit_Continue_empty; exact Hc.
Qed.

(** X13.  A [break] or [continue] that no loop encloses is rejected, however
    deep it lies: a statement that contains one fails when it is compiled
    with an empty loop-context stack, and a module that contains one is not
    compiled.  The body of a function definition counts as enclosed by the
    loops around the definition, the [else] suite of a loop does not count
    as enclosed by that loop. *)
Theorem stray_break_continue_rejected :
  (forall symtab s c,
      stray_jump s = true -> loop_stack c = [] ->
      is_err (visit_s symtab s c)) /\
  (forall body,
      existsb stray_jump body = true ->
      is_err (compile_ast stack_effect symtab_map filename (ast.Module body))).
Proof.
  split.
  - intros symtab s c S Hc; apply stray_jump_fails; assumption.
  - intros body S.
    assert (F : fails_outside
                  (visit_Module stack_effect symtab_map filename (ast.Module body))).
    { unfold visit_Module, lookup_symtab.
      do 2 outside_step.
      apply fails_outside_bind_l; apply stray_suite; [|exact S].
      apply Forall_forall; intros x _ Sx t; apply stray_jump_fails; exact Sx. }
    destruct (F Compiler_init eq_refl) as [e He].
    exists e; unfold compile_ast; rewrite He; reflexivity.
Qed.

(** *** Labels and fixups *)

(** The number of labels not bound yet. *)
Definition unbound_in (l : list (option nat)) : nat :=
  List.length (filter is_none l).

Definition unbound (b : Bytecode) : nat := unbound_in (labels b).

(** The fixup list and the pending branches of the buffer agree: a fixup
    names the site of a pending branch to a label of the table, and every
    pending branch has its fixup. *)
Definition tidy (b : Bytecode) : Prop :=
  (forall site l op,
      List.In (site, l, op) (fixups b) ->
      nth_error (buf b) site = Some (Jmp op (Pending l)) /\
      (l < List.length (labels b))%nat) /\
  (forall i op l,
      nth_error (buf b) i = Some (Jmp op (Pending l)) ->
      List.In (i, l, op) (fixups b)).

(** From builder [b] to builder [b'], [n] more labels have been bound than
    allocated, and the fixup list has been kept in step. *)
Definition bstep (n : nat) (b b' : Bytecode) : Prop :=
  (unbound b' + n = unbound b)%nat /\ (tidy b -> tidy b').

Definition binds {A : Type} (n : nat) (m : M A) : Prop :=
  forall c a c', m c = OK (a, c') -> bstep n (bc c) (bc c').

Lemma unbound_in_app :
  forall l r, unbound_in (l ++ r) = (unbound_in l + unbound_in r)%nat.
Proof.
  intros l r; unfold unbound_in; rewrite filter_app, length_app; reflexivity.
Qed.

Lemma unbound_in_set :
  forall l i x,
    nth_error l i = Some None ->
    (unbound_in (list_set l i (Some x)) + 1 = unbound_in l)%nat.
Proof.
  unfold unbound_in.
  induction l as [|a l IH]; intros [|i] x H; simpl in *; try discriminate.
  - inversion H; subst a; simpl; lia.
  - specialize (IH i x H). destruct a; simpl; lia.
Qed.

Lemma unbound_in_zero :
  forall l i v,
    unbound_in l = O -> nth_error l i = Some v -> exists off, v = Some off.
Proof.
  intros l i [off|] Z H; [eauto|exfalso].
  apply nth_error_In in H.
  assert (I : List.In None (filter is_none l)) by (apply filter_In; auto).
  unfold unbound_in in Z.
  destruct (filter is_none l); [contradiction | discriminate].
Qed.

Lemma bstep_refl : forall b, bstep 0 b b.
Proof. intros b; split; [lia | auto]. Qed.

Lemma bstep_trans :
  forall n m b1 b2 b3, bstep n b1 b2 -> bstep m b2 b3 -> bstep (n + m) b1 b3.
Proof. intros n m b1 b2 b3 [U1 T1] [U2 T2]; split; [lia | auto]. Qed.

Lemma bstep_same :
  forall b b',
    labels b' = labels b -> buf b' = buf b -> fixups b' = fixups b ->
    bstep 0 b b'.
Proof.
  intros b b' L B F; split.
  - unfold unbound; rewrite L; lia.
  - unfold tidy; rewrite L, B, F; auto.
Qed.

Lemma bstep_emit :
  forall i d b,
    (forall op l, i <> Jmp op (Pending l)) -> bstep 0 b (emit i d b).
Proof.
  intros i d b Hi; split; [unfold unbound; simpl; lia|].
  intros [T1 T2]; split; simpl.
  - intros site l op Hin; destruct (T1 _ _ _ Hin) as [Hs Hl]; split; [|exact Hl].
    rewrite nth_error_app1; [exact Hs|].
    apply nth_error_Some; congruence.
  - intros k op l H.
    destruct (Nat.lt_ge_cases k (List.length (buf b))) as [Hk|Hk].
    + rewrite nth_error_app1 in H by exact Hk; apply T2; exact H.
    + rewrite nth_error_app2 in H by exact Hk.
      destruct (k - List.length (buf b))%nat as [|j]; simpl in H.
      * inversion H; subst i; exfalso; eapply Hi; reflexivity.
      * destruct j; discriminate.
Qed.

Lemma bstep_intern_const :
  forall k b i b', intern_const k b = (i, b') -> bstep 0 b b'.
Proof.
  intros k b i b' H; unfold intern_const in H.
  destruct (pool_index k (const_table b)); inversion H; subst.
  - apply bstep_refl.
  - apply bstep_same; reflexivity.
Qed.

Lemma bstep_add :
  forall op args b b',
    Bytecode_add stack_effect op args b = OK b' -> bstep 0 b b'.
Proof.
  intros op args b b' H; unfold Bytecode_add in H.
  destruct (pool_operand op).
  - destruct args as [|k [|]]; try discriminate.
    destruct (intern_const k b) as [i b1] eqn:E; inversion H; subst; clear H.
    apply (bstep_trans 0 0 b b1);
      [eapply bstep_intern_const; eassumption|].
    apply bstep_emit; discriminate.
  - destruct (inline_operands args); [|discriminate].
    inversion H; subst; apply bstep_emit; discriminate.
Qed.

Lemma bstep_load_int :
  forall i b b', Bytecode_load_int stack_effect i b = OK b' -> bstep 0 b b'.
Proof.
  intros i b b' H; unfold Bytecode_load_int in H.
  destruct (Z.abs i <? 2 ^ 30); eapply bstep_add; eassumption.
Qed.

Lemma bstep_jump :
  forall op l b b', Bytecode_jump stack_effect op l b = OK b' -> bstep 0 b b'.
Proof.
  intros op l b b' H; unfold Bytecode_jump in H.
  destruct (nth_error (labels b) l) as [[off|]|] eqn:E;
    inversion H; subst; clear H.
  - apply bstep_emit; discriminate.
  - split; [unfold unbound; simpl; lia|].
    assert (Hl : (l < List.length (labels b))%nat)
      by (apply nth_error_Some; congruence).
    intros [T1 T2]; split; simpl.
    + intros site l' op' Hin; apply in_app_or in Hin; destruct Hin as [Hin|Hin].
      * destruct (T1 _ _ _ Hin) as [Hs Hl']; split; [|exact Hl'].
        rewrite nth_error_app1; [exact Hs|].
        apply nth_error_Some; congruence.
      * destruct Hin as [Hin|[]]; inversion Hin; subst; split; [|exact Hl].
        rewrite nth_error_app2, Nat.sub_diag by lia; reflexivity.
    + intros k op' l' H; apply in_or_app.
      destruct (Nat.lt_ge_cases k (List.length (buf b))) as [Hk|Hk].
      * rewrite nth_error_app1 in H by exact Hk; left; apply T2; exact H.
      * rewrite nth_error_app2 in H by exact Hk.
        destruct (k - List.length (buf b))%nat as [|j] eqn:Ek; simpl in H.
        -- inversion H; subst; right; left.
           replace k with (List.length (buf b)) by lia; reflexivity.
        -- destruct j; discriminate.
Qed.

Lemma bstep_put_label :
  forall l b b', Bytecode_put_label l b = OK b' -> bstep 1 b b'.
Proof.
  intros l b b' H; unfold Bytecode_put_label in H.
  destruct (nth_error (labels b) l) as [[off|]|] eqn:E;
    inversion H; subst; clear H.
  split.
  - unfold unbound; simpl; apply unbound_in_set; exact E.
  - unfold tidy; simpl; rewrite list_set_length; auto.
Qed.

Lemma binds_ret : forall (A : Type) (a : A), binds 0 (ret a).
Proof. intros A a c a' c' H; inversion H; apply bstep_refl. Qed.

Lemma binds_raise : forall (A : Type) n e, binds n (@raise A e).
Proof. intros A n e c a c' H; discriminate. Qed.

Lemma binds_assert : forall b, binds 0 (assert_ b).
Proof. intros [] c a c' H; [inversion H; apply bstep_refl | discriminate]. Qed.

Lemma binds_lift_res : forall (A : Type) (x : res A), binds 0 (lift_res x).
Proof.
  intros A [x|e] c a c' H; [inversion H; apply bstep_refl | discriminate].
Qed.

Lemma binds_bind :
  forall (A B : Type) n (m : M A) (f : A -> M B),
    binds 0 m -> (forall a, binds n (f a)) -> binds n (bind m f).
Proof.
  intros A B n m f Hm Hf c b c' H.
  apply bind_OK in H; destruct H as (a & c1 & H1 & H2).
  apply (bstep_trans 0 n (bc c) (bc c1)); [eapply Hm | eapply Hf]; eassumption.
Qed.

Lemma binds_on_bc :
  forall n (f : Bytecode -> res Bytecode),
    (forall b b', f b = OK b' -> bstep n b b') -> binds n (on_bc f).
Proof.
  intros n f H c a c' Hrun; unfold on_bc in Hrun.
  destruct (f (bc c)) as [b|e] eqn:E; [|discriminate].
  inversion Hrun; subst; simpl; auto.
Qed.

Lemma binds_add : forall op args, binds 0 (bc_add stack_effect op args).
Proof. intros; apply binds_on_bc; apply bstep_add. Qed.

Lemma binds_load_int : forall i, binds 0 (bc_load_int stack_effect i).
Proof. intros; apply binds_on_bc; apply bstep_load_int. Qed.

Lemma binds_jump : forall op l, binds 0 (bc_jump stack_effect op l).
Proof. intros; apply binds_on_bc; apply bstep_jump. Qed.

Lemma binds_put_label : forall l, binds 1 (bc_put_label l).
Proof. intros; apply binds_on_bc; apply bstep_put_label. Qed.

(** Binding a label pays for one allocation. *)
Lemma binds_put_label_then :
  forall (B : Type) n l (k : M B),
    binds n k -> binds (S n) (bind (bc_put_label l) (fun _ => k)).
Proof.
  intros B n l k Hk c b c' H.
  apply bind_OK in H; destruct H as ([] & c1 & H1 & H2).
  apply (bstep_trans 1 n (bc c) (bc c1));
    [eapply binds_put_label; eassumption | eapply Hk; eassumption].
Qed.

(** What follows the allocation of a label has to bind one label more. *)
Lemma binds_get_label :
  forall (B : Type) n (f : nat -> M B),
    (forall l, binds (S n) (f l)) -> binds n (bind bc_get_label f).
Proof.
  intros B n f Hf c b c' H.
  apply bind_OK in H; destruct H as (l & c1 & H1 & H2).
  unfold bc_get_label, Bytecode_get_label in H1; inversion H1; subst; clear H1.
  destruct (Hf _ _ _ _ H2) as [U T2]; simpl in *.
  unfold unbound in U; simpl in U; rewrite unbound_in_app in U.
  change (unbound_in [None]) with 1%nat in U.
  split; [unfold unbound in *; lia|].
  intros [T1 T1']; apply T2; split; simpl; [|exact T1'].
  intros site l' op Hin; destruct (T1 _ _ _ Hin) as [Hs Hl]; split; [exact Hs|].
  rewrite length_app; simpl; lia.
Qed.

Lemma binds_get_stk_ptr : binds 0 get_stk_ptr.
Proof. intros c a c' H; inversion H; apply bstep_refl. Qed.

Lemma binds_get_loop_stack : binds 0 get_loop_stack.
Proof. intros c a c' H; inversion H; apply bstep_refl. Qed.

Lemma binds_set_stk_ptr : forall s, binds 0 (set_stk_ptr s).
Proof.
  intros s c a c' H; unfold set_stk_ptr in H; inversion H; subst; simpl.
  apply bstep_same; reflexivity.
Qed.

Lemma binds_loop_push : forall fr, binds 0 (loop_push fr).
Proof. intros fr c a c' H; inversion H; apply bstep_refl. Qed.

Lemma binds_loop_pop : binds 0 loop_pop.
Proof.
  intros c a c' H; apply loop_pop_OK in H; destruct H as [_ H].
  inversion H; apply bstep_refl.
Qed.

Lemma binds_add_const : forall k, binds 0 (bc_add_const k).
Proof.
  intros k c a c' H; unfold bc_add_const, Bytecode_add_const in H.
  inversion H; subst; simpl.
  apply bstep_same; reflexivity.
Qed.

Lemma binds_foreach :
  forall (A : Type) (f : A -> M unit) (l : list A),
    (forall x, List.In x l -> binds 0 (f x)) -> binds 0 (foreach f l).
Proof.
  intros A f l; induction l as [|x l IH]; intros H; simpl.
  - apply binds_ret.
  - apply binds_bind; [apply H; left; reflexivity|].
    intros _; apply IH; intros y Hy; apply H; right; exact Hy.
Qed.

Lemma binds_py_last :
  forall (A B : Type) n (l : list A) (f : A -> M B),
    (forall x, List.In x l -> binds n (f x)) ->
    binds n (bind (lift_res (py_last l)) f).
Proof.
  intros A B n l f H c b c' Hrun.
  apply bind_OK in Hrun; destruct Hrun as (a & c1 & H1 & H2).
  apply lift_res_OK in H1; destruct H1 as (x & Hx & He).
  inversion He; subst a c1; clear He.
  apply (H x (py_last_In _ Hx) c b c' H2).
Qed.

Lemma binds_py_first :
  forall (A B : Type) n (l : list A) (f : A -> M B),
    (forall x, List.In x l -> binds n (f x)) ->
    binds n (bind (lift_res (py_first l)) f).
Proof.
  intros A B n l f H c b c' Hrun.
  apply bind_OK in Hrun; destruct Hrun as (a & c1 & H1 & H2).
  apply lift_res_OK in H1; destruct H1 as (x & Hx & He).
  inversion He; subst a c1; clear He.
  destruct l as [|y l]; [discriminate|]; inversion Hx; subst y.
  apply (H x (or_introl eq_refl) c b c' H2).
Qed.

(** The labels of a nested function live in a builder of its own. *)
Lemma binds_swap_bc :
  forall (A B : Type) n (inner : M A) (k : A -> M B),
    (forall a, binds n (k a)) ->
    binds n (bind get_bc (fun prev =>
             bind inner (fun a => bind (set_bc prev) (fun _ => k a)))).
Proof.
  intros A B n inner k Hk c b c' Hrun.
  apply bind_OK in Hrun; destruct Hrun as (prev & c1 & H1 & Hrun).
  apply bind_OK in Hrun; destruct Hrun as (a & c2 & H2 & Hrun).
  apply bind_OK in Hrun; destruct Hrun as ([] & c3 & H3 & H4).
  unfold get_bc in H1; inversion H1; subst prev c1; clear H1.
  unfold set_bc in H3; inversion H3; subst c3; clear H3.
  apply (Hk a _ _ _ H4).
Qed.

Lemma binds_actions :
  forall (A : Type) (visit : A -> M unit) (l : list A),
    Forall (fun e => binds 0 (visit e)) l ->
    forall v, List.In v (map visit l) -> binds 0 v.
Proof.
  intros A visit l H v Hv.
  apply in_map_iff in Hv; destruct Hv as (e & <- & He).
  rewrite Forall_forall in H; apply H; exact He.
Qed.

Ltac binds_step :=
  first
    [ apply binds_ret | apply binds_raise | apply binds_assert
    | apply binds_lift_res | apply binds_add | apply binds_load_int
    | apply binds_jump | apply binds_get_stk_ptr | apply binds_set_stk_ptr
    | apply binds_get_loop_stack | apply binds_add_const
    | apply binds_loop_push | apply binds_loop_pop
    | apply binds_put_label
    | apply binds_put_label_then
    | apply binds_get_label; intros ?
    | apply binds_py_last; intros ? ?
    | apply binds_py_first; intros ? ?
    | apply binds_foreach; intros ? ?
    | apply binds_bind; [| intros ?] ].

Lemma binds_visit_var :
  forall symtab var ctx, binds 0 (_visit_var stack_effect symtab var ctx).
Proof.
  intros symtab var ctx; unfold _visit_var.
  apply binds_bind; [apply binds_lift_res|]; intros sc.
  apply binds_bind; [destruct ctx; binds_step|]; intros op.
  destruct sc; repeat binds_step.
Qed.

Lemma binds_visit_expr :
  forall e symtab, binds 0 (visit_e symtab e).
Proof.
  intros e symtab; induction e using expr_induction; simpl.
  - apply binds_visit_var.
  - destruct n; simpl; repeat binds_step.
  - unfold visit_Str; binds_step.
  - unfold visit_Bytes; binds_step.
  - unfold visit_Tuple; repeat binds_step.
    rewrite Forall_forall in H; apply H; assumption.
  - unfold visit_List; repeat binds_step.
    rewrite Forall_forall in H; apply H; assumption.
  - unfold visit_Set; repeat binds_step.
    rewrite Forall_forall in H; apply H; assumption.
  - unfold visit_Dict; repeat binds_step.
    + destruct x as [k v]; simpl.
      eapply binds_actions; [exact H0 | eapply in_combine_r; eauto].
    + destruct x as [k v]; simpl.
      eapply binds_actions; [exact H | eapply in_combine_l; eauto].
  - unfold visit_Call; repeat binds_step; auto.
    rewrite Forall_forall in H; apply H; assumption.
  - unfold visit_BinOp; repeat binds_step; auto.
  - unfold visit_UnaryOp; repeat binds_step; auto.
  - unfold visit_BoolOp; repeat binds_step.
    + eapply binds_actions; [exact H | apply In_removelast; eassumption].
    + eapply binds_actions; [exact H | eassumption].
  - unfold visit_Compare; repeat binds_step; auto.
    + eapply binds_actions; [exact H | eassumption].
    + match goal with |- binds _ (match ?o with _ => _ end) => destruct o end;
        binds_step.
  - unfold generic_visit_Attribute; auto.
Qed.

Ltac binds_stmt_step :=
  first [ apply binds_visit_var | apply binds_visit_expr | binds_step ].

Lemma binds_suite_loop :
  forall (visit : ast.stmt -> M unit) lst,
    (forall x, List.In x lst -> binds 0 (visit x)) ->
    forall s, binds 0 (suite_loop visit s lst).
Proof.
  intros visit lst; induction lst as [|x r IH]; intros H s; simpl.
  - apply binds_ret.
  - repeat binds_stmt_step.
    + apply H; left; reflexivity.
    + apply IH; intros y Hy; apply H; right; exact Hy.
Qed.

Lemma binds_visit_stmt :
  forall s symtab, binds 0 (visit_s symtab s).
Proof.
  induction s using stmt_induction; intros symtab; simpl.
  - (* FunctionDef *)
    unfold _visit_function.
    apply binds_bind; [unfold unsupported_args; repeat binds_step|]; intros _.
    apply binds_swap_bc.
    intros co; repeat binds_stmt_step.
  - (* Return *)
    unfold visit_Return; repeat binds_stmt_step.
    destruct value; binds_stmt_step.
  - (* Assign *)
    unfold visit_Assign; repeat binds_stmt_step.
    + apply In_removelast in H; apply in_map_iff in H.
      destruct H as (e & <- & _); apply binds_visit_expr.
    + apply in_map_iff in H; destruct H as (e & <- & _); apply binds_visit_expr.
  - (* AugAssign *)
    unfold visit_AugAssign, _visit_with_load_ctx; repeat binds_stmt_step.
  - (* For *)
    unfold visit_For, _visit_suite; repeat binds_stmt_step.
    + apply binds_suite_loop; intros x Hx.
      rewrite Forall_forall in H; apply H; exact Hx.
    + apply binds_suite_loop; intros x Hx.
      rewrite Forall_forall in H0; apply H0; exact Hx.
  - (* While *)
    unfold visit_While, _visit_suite; repeat binds_stmt_step.
    + apply binds_suite_loop; intros x Hx.
      rewrite Forall_forall in H; apply H; exact Hx.
    + apply binds_suite_loop; intros x Hx.
      rewrite Forall_forall in H0; apply H0; exact Hx.
  - (* If *)
    unfold visit_If, _visit_suite; repeat binds_stmt_step.
    destruct (negb (is_nil orelse)); repeat binds_stmt_step;
      apply binds_suite_loop; intros x Hx;
      first [ rewrite Forall_forall in H; apply H; exact Hx
            | rewrite Forall_forall in H0; apply H0; exact Hx ].
  - (* Import *)
    unfold visit_Import; repeat binds_stmt_step.
    destruct (str_true (ast.asname x)); repeat binds_stmt_step.
  - (* ImportFrom *)
    unfold visit_ImportFrom; repeat binds_stmt_step.
    match goal with |- binds _ (if ?b then _ else _) => destruct b end;
      repeat binds_stmt_step.
  - (* Expr *)
    unfold visit_Expr; repeat binds_stmt_step.
  - apply binds_ret.
  - (* Break *)
    unfold visit_Break; repeat binds_stmt_step.
    match goal with |- binds _ (if ?b then _ else _) => destruct b end;
      repeat binds_stmt_step.
  - (* Continue *)
    unfold visit_Continue; repeat binds_stmt_step.
Qed.

Lemma labels_extend :
  forall (l l' : list (option nat)),
    (List.length l <= List.length l')%nat ->
    (forall i, (i < List.length l)%nat -> nth_error l' i = nth_error l i) ->
    l' = l ++ skipn (List.length l) l'.
Proof.
  intros l l' N E.
  rewrite <- (firstn_skipn (List.length l) l') at 1.
  f_equal; apply nth_error_ext; intros i.
  rewrite nth_error_firstn.
  destruct (Nat.ltb i (List.length l)) eqn:Hi.
  - apply Nat.ltb_lt in Hi; apply E; exact Hi.
  - apply Nat.ltb_ge in Hi; symmetry; apply nth_error_None; exact Hi.
Qed.

Lemma new_labels_bound :
  forall (A : Type) (m : M A) c a c',
    keeps (List.length (labels (bc c))) m -> binds 0 m ->
    m c = OK (a, c') ->
    forall l,
      (List.length (labels (bc c)) <= l < List.length (labels (bc c')))%nat ->
      exists off, nth_error (labels (bc c')) l = Some (Some off).
Proof.
  intros A m c a c' K B H l Hl.
  destruct (K c a c' (le_n _) H) as [_ _ _ N F].
  destruct (B c a c' H) as [U _]; unfold unbound in U.
  pose proof (labels_extend _ _ N F) as E.
  rewrite E, unbound_in_app in U.
  assert (Z : unbound_in (skipn (List.length (labels (bc c))) (labels (bc c'))) = O)
    by lia.
  rewrite E, nth_error_app2 by lia.
  destruct (nth_error (skipn (List.length (labels (bc c))) (labels (bc c')))
                      (l - List.length (labels (bc c)))) as [v|] eqn:Ev.
  - destruct (unbound_in_zero _ _ _ Z Ev) as [off ->]; eauto.
  - exfalso; apply nth_error_None in Ev.
    rewrite length_skipn in Ev; lia.
Qed.

(** X14.  Every label that an expression or a statement allocates is bound
    before the visit returns: of the label table the visit leaves, the
    entries from the old length on all hold an offset, and as many labels
    are unbound as were before. *)
Theorem allocated_labels_are_bound :
  (forall symtab e c c',
      visit_e symtab e c = OK (tt, c') ->
      unbound (bc c') = unbound (bc c) /\
      forall l,
        (List.length (labels (bc c)) <= l < List.length (labels (bc c')))%nat ->
        exists off, nth_error (labels (bc c')) l = Some (Some off)) /\
  (forall symtab s c c',
      visit_s symtab s c = OK (tt, c') ->
      unbound (bc c') = unbound (bc c) /\
      forall l,
        (List.length (labels (bc c)) <= l < List.length (labels (bc c')))%nat ->
        exists off, nth_error (labels (bc c')) l = Some (Some off)).
Proof.
  split.
  - intros symtab e c c' H; split.
    + destruct (binds_visit_expr e symtab c tt c' H) as [U _]; lia.
    + eapply new_labels_bound; [| apply binds_visit_expr | exact H].
      apply keeps_visit_expr.
  - intros symtab s c c' H; split.
    + destruct (binds_visit_stmt s symtab c tt c' H) as [U _]; lia.
    + eapply new_labels_bound; [| apply binds_visit_stmt | exact H].
      apply keeps_visit_stmt.
Qed.

(** *** What the module hands to the assembler *)

(** X15.  When [visit_Module] returns on a fresh compiler, the builder of
    the module has no unbound label, every fixup it recorded is the site
    of a pending branch of the buffer whose label is bound, and every
    pending branch of the buffer has its fixup: the visitor hands no
    dangling jump target to the final assembly. *)
Theorem module_hands_over_bound_labels :
  forall tree c,
    visit_Module stack_effect symtab_map filename tree Compiler_init = OK (tt, c) ->
    unbound (bc c) = O /\
    (forall l, (l < List.length (labels (bc c)))%nat ->
               exists off, nth_error (labels (bc c)) l = Some (Some off)) /\
    (forall site l op,
        List.In (site, l, op) (fixups (bc c)) ->
        nth_error (buf (bc c)) site = Some (Jmp op (Pending l)) /\
        exists off, nth_error (labels (bc c)) l = Some (Some off)) /\
    (forall i op l,
        nth_error (buf (bc c)) i = Some (Jmp op (Pending l)) ->
        List.In (i, l, op) (fixups (bc c))).
Proof.
  intros tree c H.
  assert (S : unbound (bc c) = O /\ tidy (bc c)).
  { pose proof H as Hrun; unfold visit_Module in Hrun.
    apply bind_OK in Hrun; destruct Hrun as (t & c0 & Hlook & Hrun).
    apply bind_OK in Hrun; destruct Hrun as ([] & c1 & Hnew & Hrun).
    unfold set_bc in Hnew; inversion Hnew; subst c1; clear Hnew.
    assert (B : binds 0 (bind (_visit_suite (visit_s t)
                                 (let 'ast.Module body := tree in body))
                           (fun _ => bind (bc_add stack_effect LOAD_CONST_NONE [])
                                       (fun _ => bc_add stack_effect RETURN_VALUE [])))).
    { unfold _visit_suite; repeat binds_step.
      apply binds_suite_loop; intros; apply binds_visit_stmt. }
    destruct (B _ _ _ Hrun) as [U T0]; cbn [bc] in U, T0.
    change (unbound Bytecode_new) with O in U.
    split; [lia|].
    apply T0; split; simpl; intros; [contradiction|].
    destruct i; discriminate. }
  destruct S as [U [T1 T2]].
  assert (Hb : forall l, (l < List.length (labels (bc c)))%nat ->
                         exists off, nth_error (labels (bc c)) l = Some (Some off)).
  { intros l Hl.
    destruct (nth_error (labels (bc c)) l) as [v|] eqn:E;
      [|apply nth_error_None in E; lia].
    destruct (unbound_in_zero _ _ _ U E) as [off ->]; eauto. }
  split; [exact U|]. split; [exact Hb|]. split; [|exact T2].
  intros site l op Hin; destruct (T1 _ _ _ Hin) as [Hs Hl]; auto.
Qed.

(** *** The stack high-water mark *)

(** From builder [b] to builder [b'] the recorded maximum has not gone
    down, and the stack pointer is still below it if it was. *)
Definition sstep (b b' : Bytecode) : Prop :=
  stk_max b <= stk_max b' /\ (stk_ptr b <= stk_max b -> stk_ptr b' <= stk_max b').

Definition deep {A : Type} (m : M A) : Prop :=
  forall c a c', m c = OK (a, c') -> sstep (bc c) (bc c').

Lemma sstep_refl : forall b, sstep b b.
Proof. intros b; split; [lia | auto]. Qed.

Lemma sstep_trans : forall b1 b2 b3, sstep b1 b2 -> sstep b2 b3 -> sstep b1 b3.
Proof. intros b1 b2 b3 [M1 P1] [M2 P2]; split; [lia | auto]. Qed.

Lemma sstep_same :
  forall b b', stk_ptr b' = stk_ptr b -> stk_max b' = stk_max b -> sstep b b'.
Proof. intros b b' P X; unfold sstep; rewrite P, X; split; [lia | auto]. Qed.

Lemma sstep_emit : forall i d b, sstep b (emit i d b).
Proof. intros i d b; unfold sstep; simpl; lia. Qed.

Lemma sstep_intern_const :
  forall k b i b', intern_const k b = (i, b') -> sstep b b'.
Proof.
  intros k b i b' H; unfold intern_const in H.
  destruct (pool_index k (const_table b)); inversion H; subst.
  - apply sstep_refl.
  - apply sstep_same; reflexivity.
Qed.

Lemma sstep_add :
  forall op args b b', Bytecode_add stack_effect op args b = OK b' -> sstep b b'.
Proof.
  intros op args b b' H; unfold Bytecode_add in H.
  destruct (pool_operand op).
  - destruct args as [|k [|]]; try discriminate.
    destruct (intern_const k b) as [i b1] eqn:E; inversion H; subst; clear H.
    apply sstep_trans with b1; [eapply sstep_intern_const; eassumption|].
    apply sstep_emit.
  - destruct (inline_operands args); [|discriminate].
    inversion H; subst; apply sstep_emit.
Qed.

Lemma deep_ret : forall (A : Type) (a : A), deep (ret a).
Proof. intros A a c a' c' H; inversion H; apply sstep_refl. Qed.

Lemma deep_raise : forall (A : Type) e, deep (@raise A e).
Proof. intros A e c a c' H; discriminate. Qed.

Lemma deep_assert : forall b, deep (assert_ b).
Proof. intros [] c a c' H; [inversion H; apply sstep_refl | discriminate]. Qed.

Lemma deep_lift_res : forall (A : Type) (x : res A), deep (lift_res x).
Proof.
  intros A [x|e] c a c' H; [inversion H; apply sstep_refl | discriminate].
Qed.

Lemma deep_bind :
  forall (A B : Type) (m : M A) (f : A -> M B),
    deep m -> (forall a, deep (f a)) -> deep (bind m f).
Proof.
  intros A B m f Hm Hf c b c' H.
  apply bind_OK in H; destruct H as (a & c1 & H1 & H2).
  apply sstep_trans with (bc c1); [eapply Hm | eapply Hf]; eassumption.
Qed.

Lemma deep_on_bc :
  forall (f : Bytecode -> res Bytecode),
    (forall b b', f b = OK b' -> sstep b b') -> deep (on_bc f).
Proof.
  intros f H c a c' Hrun; unfold on_bc in Hrun.
  destruct (f (bc c)) as [b|e] eqn:E; [|discriminate].
  inversion Hrun; subst; simpl; auto.
Qed.

Lemma deep_add : forall op args, deep (bc_add stack_effect op args).
Proof. intros; apply deep_on_bc; apply sstep_add. Qed.

Lemma deep_load_int : forall i, deep (bc_load_int stack_effect i).
Proof.
  intros i; apply deep_on_bc; intros b b' H; unfold Bytecode_load_int in H.
  destruct (Z.abs i <? 2 ^ 30); eapply sstep_add; eassumption.
Qed.

Lemma deep_jump : forall op l, deep (bc_jump stack_effect op l).
Proof.
  intros op l; apply deep_on_bc; intros b b' H; unfold Bytecode_jump in H.
  destruct (nth_error (labels b) l) as [[off|]|]; inversion H; subst; clear H.
  - apply sstep_emit.
  - unfold sstep; simpl; lia.
Qed.

Lemma deep_put_label : forall l, deep (bc_put_label l).
Proof.
  intros l; apply deep_on_bc; intros b b' H; unfold Bytecode_put_label in H.
  destruct (nth_error (labels b) l) as [[off|]|]; inversion H; subst; clear H.
  apply sstep_same; reflexivity.
Qed.

Lemma deep_get_label : deep bc_get_label.
Proof.
  intros c l c' H; unfold bc_get_label, Bytecode_get_label in H.
  inversion H; subst; simpl; apply sstep_same; reflexivity.
Qed.

Lemma deep_get_stk_ptr : deep get_stk_ptr.
Proof. intros c a c' H; inversion H; apply sstep_refl. Qed.

Lemma deep_get_loop_stack : deep get_loop_stack.
Proof. intros c a c' H; inversion H; apply sstep_refl. Qed.

Lemma deep_loop_push : forall fr, deep (loop_push fr).
Proof. intros fr c a c' H; inversion H; apply sstep_refl. Qed.

Lemma deep_loop_pop : deep loop_pop.
Proof.
  intros c a c' H; apply loop_pop_OK in H; destruct H as [_ H].
  inversion H; apply sstep_refl.
Qed.

Lemma deep_add_const : forall k, deep (bc_add_const k).
Proof.
  intros k c a c' H; unfold bc_add_const, Bytecode_add_const in H.
  inversion H; subst; simpl.
  apply sstep_same; reflexivity.
Qed.

(** [self.bc.stk_ptr -= d], as after a [for] loop. *)
Lemma deep_lower :
  forall (B : Type) d (k : Z -> M B),
    0 <= d -> (forall s, deep (k s)) ->
    deep (bind get_stk_ptr (fun s => bind (set_stk_ptr (s - d)) (fun _ => k s))).
Proof.
  intros B d k Hd Hk c b c' H.
  apply bind_OK in H; destruct H as (s & c1 & H1 & H).
  apply bind_OK in H; destruct H as ([] & c2 & H2 & H3).
  unfold get_stk_ptr in H1; inversion H1; subst s c1; clear H1.
  unfold set_stk_ptr in H2; inversion H2; subst c2; clear H2.
  apply sstep_trans with (2 := Hk _ _ _ _ H3).
  unfold sstep; simpl; lia.
Qed.

(** The stack pointer saved, and put back after [m]. *)
Lemma deep_restore :
  forall (A : Type) (m : M A),
    deep m ->
    deep (bind get_stk_ptr (fun s => bind m (fun _ => set_stk_ptr s))).
Proof.
  intros A m Hm c b c' H.
  apply bind_OK in H; destruct H as (s & c1 & H1 & H).
  apply bind_OK in H; destruct H as (a & c2 & H2 & H3).
  unfold get_stk_ptr in H1; inversion H1; subst s c1; clear H1.
  unfold set_stk_ptr in H3; inversion H3; subst c'; clear H3.
  destruct (Hm _ _ _ H2) as [X _].
  unfold sstep; simpl; lia.
Qed.

Lemma deep_foreach :
  forall (A : Type) (f : A -> M unit) (l : list A),
    (forall x, List.In x l -> deep (f x)) -> deep (foreach f l).
Proof.
  intros A f l; induction l as [|x l IH]; intros H; simpl.
  - apply deep_ret.
  - apply deep_bind; [apply H; left; reflexivity|].
    intros _; apply IH; intros y Hy; apply H; right; exact Hy.
Qed.

Lemma deep_py_last :
  forall (A B : Type) (l : list A) (f : A -> M B),
    (forall x, List.In x l -> deep (f x)) ->
    deep (bind (lift_res (py_last l)) f).
Proof.
  intros A B l f H c b c' Hrun.
  apply bind_OK in Hrun; destruct Hrun as (a & c1 & H1 & H2).
  apply lift_res_OK in H1; destruct H1 as (x & Hx & He).
  inversion He; subst a c1; clear He.
  apply (H x (py_last_In _ Hx) c b c' H2).
Qed.

Lemma deep_py_first :
  forall (A B : Type) (l : list A) (f : A -> M B),
    (forall x, List.In x l -> deep (f x)) ->
    deep (bind (lift_res (py_first l)) f).
Proof.
  intros A B l f H c b c' Hrun.
  apply bind_OK in Hrun; destruct Hrun as (a & c1 & H1 & H2).
  apply lift_res_OK in H1; destruct H1 as (x & Hx & He).
  inversion He; subst a c1; clear He.
  destruct l as [|y l]; [discriminate|]; inversion Hx; subst y.
  apply (H x (or_introl eq_refl) c b c' H2).
Qed.

Lemma deep_swap_bc :
  forall (A B : Type) (inner : M A) (k : A -> M B),
    (forall a, deep (k a)) ->
    deep (bind get_bc (fun prev =>
          bind inner (fun a => bind (set_bc prev) (fun _ => k a)))).
Proof.
  intros A B inner k Hk c b c' Hrun.
  apply bind_OK in Hrun; destruct Hrun as (prev & c1 & H1 & Hrun).
  apply bind_OK in Hrun; destruct Hrun as (a & c2 & H2 & Hrun).
  apply bind_OK in Hrun; destruct Hrun as ([] & c3 & H3 & H4).
  unfold get_bc in H1; inversion H1; subst prev c1; clear H1.
  unfold set_bc in H3; inversion H3; subst c3; clear H3.
  apply (Hk a _ _ _ H4).
Qed.

Lemma deep_actions :
  forall (A : Type) (visit : A -> M unit) (l : list A),
    Forall (fun e => deep (visit e)) l ->
    forall v, List.In v (map visit l) -> deep v.
Proof.
  intros A visit l H v Hv.
  apply in_map_iff in Hv; destruct Hv as (e & <- & He).
  rewrite Forall_forall in H; apply H; exact He.
Qed.

Ltac deep_step :=
  first
    [ apply deep_ret | apply deep_raise | apply deep_assert
    | apply deep_lift_res | apply deep_add | apply deep_load_int
    | apply deep_jump | apply deep_put_label | apply deep_get_label
    | apply deep_get_stk_ptr | apply deep_get_loop_stack
    | apply deep_add_const | apply deep_loop_push | apply deep_loop_pop
    | apply deep_lower; [lia | intros ?]
    | apply deep_restore
    | apply deep_py_last; intros ? ?
    | apply deep_py_first; intros ? ?
    | apply deep_foreach; intros ? ?
    | apply deep_bind; [| intros ?] ].

Lemma deep_visit_var :
  forall symtab var ctx, deep (_visit_var stack_effect symtab var ctx).
Proof.
  intros symtab var ctx; unfold _visit_var.
  apply deep_bind; [apply deep_lift_res|]; intros sc.
  apply deep_bind; [destruct ctx; deep_step|]; intros op.
  destruct sc; repeat deep_step.
Qed.

Lemma deep_visit_expr :
  forall e symtab, deep (visit_e symtab e).
Proof.
  intros e symtab; induction e using expr_induction; simpl.
  - apply deep_visit_var.
  - destruct n; simpl; repeat deep_step.
  - unfold visit_Str; deep_step.
  - unfold visit_Bytes; deep_step.
  - unfold visit_Tuple; repeat deep_step.
    rewrite Forall_forall in H; apply H; assumption.
  - unfold visit_List; repeat deep_step.
    rewrite Forall_forall in H; apply H; assumption.
  - unfold visit_Set; repeat deep_step.
    rewrite Forall_forall in H; apply H; assumption.
  - unfold visit_Dict; repeat deep_step.
    + destruct x as [k v]; simpl.
      eapply deep_actions; [exact H0 | eapply in_combine_r; eauto].
    + destruct x as [k v]; simpl.
      eapply deep_actions; [exact H | eapply in_combine_l; eauto].
  - unfold visit_Call; repeat deep_step; auto.
    rewrite Forall_forall in H; apply H; assumption.
  - unfold visit_BinOp; repeat deep_step; auto.
  - unfold visit_UnaryOp; repeat deep_step; auto.
  - unfold visit_BoolOp; repeat deep_step.
    + eapply deep_actions; [exact H | apply In_removelast; eassumption].
    + eapply deep_actions; [exact H | eassumption].
  - unfold visit_Compare; repeat deep_step; auto.
    + eapply deep_actions; [exact H | eassumption].
    + match goal with |- deep (match ?o with _ => _ end) => destruct o end;
        deep_step.
  - unfold generic_visit_Attribute; auto.
Qed.

Ltac deep_stmt_step :=
  first [ apply deep_visit_var | apply deep_visit_expr | deep_step ].

Lemma deep_suite_loop :
  forall (visit : ast.stmt -> M unit) lst,
    (forall x, List.In x lst -> deep (visit x)) ->
    forall s, deep (suite_loop visit s lst).
Proof.
  intros visit lst; induction lst as [|x r IH]; intros H s; simpl.
  - apply deep_ret.
  - repeat deep_stmt_step.
    + apply H; left; reflexivity.
    + apply IH; intros y Hy; apply H; right; exact Hy.
Qed.

Lemma deep_visit_stmt :
  forall s symtab, deep (visit_s symtab s).
Proof.
  induction s using stmt_induction; intros symtab; simpl.
  - (* FunctionDef *)
    unfold _visit_function.
    apply deep_bind; [unfold unsupported_args; repeat deep_step|]; intros _.
    apply deep_swap_bc.
    intros co; repeat deep_stmt_step.
  - (* Return *)
    unfold visit_Return; repeat deep_stmt_step.
    destruct value; deep_stmt_step.
  - (* Assign *)
    unfold visit_Assign; repeat deep_stmt_step.
    + apply In_removelast in H; apply in_map_iff in H.
      destruct H as (e & <- & _); apply deep_visit_expr.
    + apply in_map_iff in H; destruct H as (e & <- & _); apply deep_visit_expr.
  - (* AugAssign *)
    unfold visit_AugAssign, _visit_with_load_ctx; repeat deep_stmt_step.
  - (* For *)
    unfold visit_For, _visit_suite; repeat deep_stmt_step.
    + apply deep_suite_loop; intros x Hx.
      rewrite Forall_forall in H; apply H; exact Hx.
    + apply deep_suite_loop; intros x Hx.
      rewrite Forall_forall in H0; apply H0; exact Hx.
  - (* While *)
    unfold visit_While, _visit_suite; repeat deep_stmt_step.
    + apply deep_suite_loop; intros x Hx.
      rewrite Forall_forall in H; apply H; exact Hx.
    + apply deep_suite_loop; intros x Hx.
      rewrite Forall_forall in H0; apply H0; exact Hx.
  - (* If *)
    unfold visit_If, _visit_suite; repeat deep_stmt_step.
    destruct (negb (is_nil orelse)); repeat deep_stmt_step;
      apply deep_suite_loop; intros x Hx;
      first [ rewrite Forall_forall in H; apply H; exact Hx
            | rewrite Forall_forall in H0; apply H0; exact Hx ].
  - (* Import *)
    unfold visit_Import; repeat deep_stmt_step.
    destruct (str_true (ast.asname x)); repeat deep_stmt_step.
  - (* ImportFrom *)
    unfold visit_ImportFrom; repeat deep_stmt_step.
    match goal with |- deep (if ?b then _ else _) => destruct b end;
      repeat deep_stmt_step.
  - (* Expr *)
    unfold visit_Expr; repeat deep_stmt_step.
  - apply deep_ret.
  - (* Break *)
    unfold visit_Break; repeat deep_stmt_step.
    match goal with |- deep (if ?b then _ else _) => destruct b end;
      repeat deep_stmt_step.
  - (* Continue *)
    unfold visit_Continue; repeat deep_stmt_step.
Qed.

Lemma get_codeobj_stacksize :
  forall b co, Bytecode_get_codeobj b = OK co -> mpy_stacksize co = stk_max b.
Proof.
  intros b co H; unfold Bytecode_get_codeobj in H.
  destruct (forallb _ (labels b)); [|discriminate].
  destruct (fold_left _ (fixups b) _); inversion H; reflexivity.
Qed.

(** X20.  The recorded maximum stack depth is a high-water mark: no
    statement lowers it, and the adjustments the compiler makes to the
    stack pointer by hand, after a [for] loop and around the pops of a
    [break], never leave the pointer above it.  So the stack size of a
    compiled module is not negative, and that of a function's code object
    is at least the number of its locals. *)
Theorem stack_size_is_a_high_water_mark :
  (forall symtab s c c',
      visit_s symtab s c = OK (tt, c') ->
      stk_max (bc c) <= stk_max (bc c') /\
      (stk_ptr (bc c) <= stk_max (bc c) -> stk_ptr (bc c') <= stk_max (bc c'))) /\
  (forall tree co,
      compile_ast stack_effect symtab_map filename tree = OK co ->
      0 <= mpy_stacksize co) /\
  (forall node name args body c co c',
      function_codeobj stack_effect symtab_map filename visit_s
                       node name args body c = OK (co, c') ->
      exists t0 t,
        symtab_map (FunctionScope node) = Some t0 /\
        finalize t0 = OK t /\
        len (all_locals t) <= mpy_stacksize co).
Proof.
  split; [|split].
  - intros symtab s c c' H; exact (deep_visit_stmt s symtab c tt c' H).
  - intros tree co H; unfold compile_ast in H.
    destruct (visit_Module stack_effect symtab_map filename tree Compiler_init)
      as [[[] c]|e] eqn:Hv; [|discriminate].
    destruct (Bytecode_get_codeobj (bc c)) as [co0|e] eqn:Hco; [|discriminate].
    inversion H; subst co; clear H; simpl.
    rewrite (get_codeobj_stacksize _ _ Hco).
    unfold visit_Module in Hv.
    apply bind_OK in Hv; destruct Hv as (t & c0 & Hlook & Hv).
    apply bind_OK in Hv; destruct Hv as ([] & c1 & Hnew & Hv).
    unfold set_bc in Hnew; inversion Hnew; subst c1; clear Hnew.
    assert (D : deep (bind (_visit_suite (visit_s t)
                              (let 'ast.Module body := tree in body))
                        (fun _ => bind (bc_add stack_effect LOAD_CONST_NONE [])
                                    (fun _ => bc_add stack_effect RETURN_VALUE [])))).
    { unfold _visit_suite; repeat deep_step.
      apply deep_suite_loop; intros; apply deep_visit_stmt. }
    destruct (D _ _ _ Hv) as [X _]; exact X.
  - intros node name args body c co c' H; unfold function_codeobj in H.
    apply bind_OK in H; destruct H as (t0 & c1 & H1 & H).
    unfold lookup_symtab in H1.
    apply lift_res_OK in H1; destruct H1 as (t0' & Ht0 & He).
    inversion He; subst t0' c1; clear He.
    apply bind_OK in H; destruct H as (t & c2 & H2 & H).
    apply lift_res_OK in H2; destruct H2 as (t' & Ht & He).
    inversion He; subst t' c2; clear He.
    apply bind_OK in H; destruct H as ([] & c3 & H3 & H).
    unfold set_bc in H3; inversion H3; subst c3; clear H3.
    apply bind_OK in H; destruct H as ([] & c4 & Hargs & H).
    apply bind_OK in H; destruct H as (last & c5 & Hbody & H).
    apply bind_OK in H; destruct H as ([] & c6 & Hret & H).
    apply bind_OK in H; destruct H as (b & c7 & Hb & H).
    unfold get_bc in Hb; inversion Hb; subst b c7; clear Hb.
    apply bind_OK in H; destruct H as (co0 & c8 & Hco & H).
    apply lift_res_OK in Hco; destruct Hco as (co0' & Hco & He).
    inversion He; subst co0' c8; clear He.
    inversion H; subst co c'; clear H.
    exists t0, t.
    split; [destruct (symtab_map (FunctionScope node)); inversion Ht0; reflexivity|].
    split; [exact Ht|]; simpl.
    rewrite (get_codeobj_stacksize _ _ Hco).
    assert (D1 : deep (foreach (fun a => bind (bc_add_const (CStr (ast.arg a)))
                                            (fun _ => ret tt))
                               (ast.args args)))
      by (repeat deep_step).
    assert (D2 : deep (_visit_suite (visit_s t) body))
      by (unfold _visit_suite; apply deep_suite_loop; intros;
          apply deep_visit_stmt).
    assert (D3 : deep (if negb (ast.is_Return last)
                       then bind (bc_add stack_effect LOAD_CONST_NONE [])
                                 (fun _ => bc_add stack_effect RETURN_VALUE [])
                       else ret tt))
      by (destruct (negb (ast.is_Return last)); repeat deep_step).
    destruct (D1 _ _ _ Hargs) as [X1 _]; simpl in X1.
    destruct (D2 _ _ _ Hbody) as [X2 _].
    destruct (D3 _ _ _ Hret) as [X3 _].
    lia.
Qed.

End Layouts.

(** ** The further properties on concrete programs *)

(** [while a: pass] *)
Definition while_a : ast.stmt := ast.While (load "a") [ast.Pass] [].

(** [f(1, 2)] *)
Definition f_1_2 : ast.expr := ast.Call (load "f") [int 1; int 2] [].

(** [a and b] *)
Definition a_and_b : ast.expr := ast.BoolOp ast.And ([load "a"] ++ [load "b"]).

(** [from m import a as b] *)
Definition from_m_import_a_as_b : ast.stmt :=
  ast.ImportFrom (Some "m") [ast.mk_alias "a" (Some "b")] 0.

(** [import a.b] and [import a.b as c] *)
Definition import_a_b : ast.stmt := ast.Import [ast.mk_alias "a.b" None].
Definition import_a_b_as_c : ast.stmt :=
  ast.Import [ast.mk_alias "a.b" (Some "c")].

(** [while a: pass] with [else: break] *)
Definition while_else_break : ast.stmt :=
  ast.While (load "a") [ast.Pass] [ast.Break].

Lemma loop_stack_balanced_witness :
  (exists c', run_stmt for_i_in_r (in_loop "while") = OK (tt, c') /\
              loop_stack c' = loop_stack (in_loop "while")) /\
  (exists c, visit_Module vm_stack_effect simple_map "<file>"
                          (ast.Module [for_i_in_r]) Compiler_init = OK (tt, c) /\
             loop_stack c = []).
Proof.
  destruct (loop_stack_balanced vm_stack_effect simple_map "<file>") as [H1 H2].
  split.
  - eexists; split; [vm_compute; reflexivity|].
    apply (H1 module_table for_i_in_r (in_loop "while")).
    vm_compute; reflexivity.
  - eexists; split; [vm_compute; reflexivity|].
    apply (H2 (ast.Module [for_i_in_r])).
    vm_compute; reflexivity.
Defined.

Lemma statement_only_appends_witness :
  exists c',
    run_stmt if_a_b (in_loop "for") = OK (tt, c') /\
    (exists code, buf (bc c') = buf (bc (in_loop "for")) ++ code) /\
    nth_error (labels (bc c')) 1 = Some None.
Proof.
  eexists.
  edestruct (statement_only_appends
               vm_stack_effect simple_map "<file>" module_table if_a_b
               (in_loop "for"))
    as (B & _ & _ & L); [vm_compute; reflexivity|].
  split; [vm_compute; reflexivity|].
  split; [exact B|].
  rewrite (L 1%nat); [reflexivity | simpl; lia].
Defined.

Lemma call_layout_witness :
  exists c' code_func codes,
    run_expr f_1_2 Compiler_init = OK (tt, c') /\
    List.length codes = 2%nat /\
    buf (bc c')
    = [] ++ code_func ++ List.concat codes
      ++ [Ins CALL_FUNCTION [OInt 2; OInt 0]].
Proof.
  eexists.
  edestruct (call_layout vm_stack_effect module_table (load "f") [int 1; int 2]
                         Compiler_init)
    as (cf & codes & c1 & c2 & _ & _ & Hlen & Hbuf); [vm_compute; reflexivity|].
  exists cf, codes; split; [vm_compute; reflexivity|].
  split; [exact Hlen | exact Hbuf].
Defined.

Lemma display_layout_witness :
  exists c' codes,
    run_expr (ast.Tuple [int 1; int 2] ast.Load) Compiler_init = OK (tt, c') /\
    List.length codes = 2%nat /\
    buf (bc c') = [] ++ List.concat codes ++ [Ins BUILD_TUPLE [OInt 2]].
Proof.
  eexists.
  edestruct (display_layout vm_stack_effect module_table
                            (ast.Tuple [int 1; int 2] ast.Load) BUILD_TUPLE
                            Compiler_init)
    as (codes & c1 & _ & Hlen & Hbuf);
    [reflexivity | vm_compute; reflexivity |].
  exists codes; split; [vm_compute; reflexivity|].
  split; [exact Hlen | exact Hbuf].
Defined.

Lemma compare_layout_witness :
  exists c' code_left code_right,
    run_expr (ast.Compare (load "a") [ast.IsNot] [load "b"]) Compiler_init
    = OK (tt, c') /\
    buf (bc c')
    = [] ++ code_left ++ code_right ++ [Ins BINARY_IS []] ++ [Ins UNARY_NOT []].
Proof.
  eexists.
  edestruct (compare_layout vm_stack_effect module_table
                            (load "a") ast.IsNot (load "b") Compiler_init)
    as (cl & cr & c1 & c2 & _ & _ & Hbuf & _); [vm_compute; reflexivity|].
  exists cl, cr; split; [vm_compute; reflexivity | exact Hbuf].
Defined.

Lemma dict_layout_witness :
  exists c' codes,
    run_expr (ast.Dict [int 1] [int 2]) Compiler_init = OK (tt, c') /\
    List.length codes = 1%nat /\
    buf (bc c')
    = [] ++ [Ins BUILD_MAP [OInt 1]]
      ++ flat_map (fun p => fst p ++ snd p ++ [Ins STORE_MAP []]) codes.
Proof.
  eexists.
  edestruct (dict_layout vm_stack_effect module_table [int 1] [int 2]
                         Compiler_init)
    as (codes & c1 & _ & _ & Hlen & Hbuf); [vm_compute; reflexivity|].
  exists codes; split; [vm_compute; reflexivity|].
  split; [exact Hlen | exact Hbuf].
Defined.

Lemma boolop_layout_witness :
  exists c' codes code_last,
    run_expr a_and_b Compiler_init = OK (tt, c') /\
    List.length codes = 1%nat /\
    buf (bc c')
    = [] ++ flat_map (fun code => code ++ [Jmp JUMP_IF_FALSE_OR_POP (Pending 0)])
                     codes
      ++ code_last /\
    nth_error (labels (bc c')) 0 = Some (Some (List.length (buf (bc c')))).
Proof.
  eexists.
  eassert (H : run_expr a_and_b Compiler_init = OK (tt, _))
    by (vm_compute; reflexivity).
  pose proof (boolop_layout vm_stack_effect module_table ast.And
                            [load "a"] (load "b") Compiler_init _ H) as E.
  cbv zeta in E.
  destruct E as (codes & cl & c1 & c2 & c3 & _ & _ & Hlen & _ & _ & Hbuf & Hl).
  exists codes, cl; split; [exact H|].
  split; [exact Hlen|]. split; [exact Hbuf | exact Hl].
Defined.

Lemma while_statement_layout_witness :
  exists c' code_body code_test code_else,
    run_stmt while_a Compiler_init = OK (tt, c') /\
    buf (bc c')
    = [] ++ [Jmp JUMP (Pending 0)] ++ code_body ++ code_test
      ++ [Jmp POP_JUMP_IF_TRUE (Bound 1)] ++ code_else.
Proof.
  eexists.
  eassert (H : run_stmt while_a Compiler_init = OK (tt, _))
    by (vm_compute; reflexivity).
  pose proof (while_statement_layout
                vm_stack_effect simple_map "<file>" module_table
                (load "a") [ast.Pass] [] Compiler_init _ H) as E.
  cbv zeta in E.
  destruct E as (cb & ct & ce & c1 & c2 & c3 & c4 & c5 & c6 & E).
  exists cb, ct, ce; split; [exact H|].
  apply E.
Defined.

Lemma if_statement_layout_witness :
  exists c' code_test code_body c1,
    run_stmt if_a_b Compiler_init = OK (tt, c') /\
    buf (bc c')
    = [] ++ code_test
      ++ [Jmp POP_JUMP_IF_FALSE (Pending (List.length (labels (bc c1))))]
      ++ code_body.
Proof.
  eexists.
  eassert (H : run_stmt if_a_b Compiler_init = OK (tt, _))
    by (vm_compute; reflexivity).
  pose proof (if_statement_layout
                vm_stack_effect simple_map "<file>" module_table
                (load "a") [ast.Expr (load "b")] [] Compiler_init _ H) as E.
  destruct E as (ct & cb & c1 & c2 & c3 & E).
  cbv zeta in E.
  destruct E as (_ & _ & _ & _ & Hnil & _).
  exists ct, cb, c1; split; [exact H|].
  exact (Hnil eq_refl).
Defined.

Lemma name_reference_one_instruction_witness :
  (exists c' sc op operand arg,
      _visit_var vm_stack_effect module_table "x" ast.Load Compiler_init
      = OK (tt, c') /\
      get_scope module_table "x" = OK sc /\
      var_op ast.Load sc = Some op /\
      c' = {| loop_stack := [];
              bc := emit (Ins op [operand]) (vm_stack_effect op [arg])
                         Bytecode_new |}) /\
  _visit_var vm_stack_effect module_table "x" ast.Del Compiler_init
  = Err AssertionError.
Proof.
  destruct (name_reference_one_instruction
              vm_stack_effect module_table "x" ast.Load Compiler_init)
    as (Hone & _ & _).
  destruct (name_reference_one_instruction
              vm_stack_effect module_table "x" ast.Del Compiler_init)
    as (_ & Hdel & _).
  split.
  - eexists.
    edestruct Hone as (sc & op & operand & arg & Hsc & Hop & _ & Hc);
      [vm_compute; reflexivity|].
    exists sc, op, operand, arg.
    split; [vm_compute; reflexivity|].
    split; [exact Hsc|]. split; [exact Hop | exact Hc].
  - apply (Hdel SCOPE_NAME); reflexivity.
Defined.

Lemma function_definition_in_enclosing_scope_witness :
  exists c' co,
    run_stmt def_f_x Compiler_init = OK (tt, c') /\
    buf (bc c')
    = [] ++ [Ins MAKE_FUNCTION [OPool 0]; Ins STORE_NAME_CONST [OAtom "f"]] /\
    const_table (bc c') = [] ++ [CCode co].
Proof.
  eexists.
  edestruct (function_definition_in_enclosing_scope
               vm_stack_effect simple_map "<file>" module_table
               "f" (params ["x"]) [ast.Return (Some (load "x"))] [] None
               Compiler_init)
    as (co & c_in & st & _ & Hst & Hbuf & Hpool & _); [vm_compute; reflexivity|].
  vm_compute in Hst; inversion Hst; subst st.
  exists co; split; [vm_compute; reflexivity|].
  split; [exact Hbuf | exact Hpool].
Defined.

Lemma import_from_layout_witness :
  exists c' code_level tail stores,
    run_stmt from_m_import_a_as_b Compiler_init = OK (tt, c') /\
    buf (bc c')
    = [] ++ code_level
      ++ [Ins LOAD_CONST_STRING [OAtom "a"]]
      ++ [Ins BUILD_TUPLE [OInt 1]; Ins IMPORT_NAME [OAtom "m"]]
      ++ tail /\
    import_stores module_table (fun n => str_or (ast.asname n) (ast.name n))
                  [ast.mk_alias "a" (Some "b")] stores /\
    tail = flat_map (fun p => [Ins IMPORT_FROM [OAtom (ast.name (fst p))]; snd p])
                    (combine [ast.mk_alias "a" (Some "b")] stores)
           ++ [Ins POP_TOP []].
Proof.
  eexists.
  edestruct (import_from_layout
               vm_stack_effect simple_map "<file>" module_table
               (Some "m") [ast.mk_alias "a" (Some "b")] 0 Compiler_init)
    as (cl & c0 & tail & _ & Hbuf & Htail); [vm_compute; reflexivity|].
  cbn [is_star ast.name String.eqb Ascii.eqb Bool.eqb] in Htail.
  destruct Htail as (stores & Hst & Ht).
  exists cl, tail, stores; split; [vm_compute; reflexivity|].
  split; [exact Hbuf|]. split; [exact Hst | exact Ht].
Defined.

Lemma import_layout_witness :
  (exists c' stores,
      run_stmt import_a_b Compiler_init = OK (tt, c') /\
      import_stores module_table import_bound_name
                    [ast.mk_alias "a.b" None] stores /\
      buf (bc c')
      = [] ++ flat_map (fun p => import_code (fst p) (snd p))
                       (combine [ast.mk_alias "a.b" None] stores)) /\
  (exists c' stores,
      run_stmt import_a_b_as_c Compiler_init = OK (tt, c') /\
      import_stores module_table import_bound_name
                    [ast.mk_alias "a.b" (Some "c")] stores /\
      buf (bc c')
      = [] ++ flat_map (fun p => import_code (fst p) (snd p))
                       (combine [ast.mk_alias "a.b" (Some "c")] stores)).
Proof.
  split.
  - eexists.
    edestruct (import_layout vm_stack_effect simple_map "<file>" module_table
                             [ast.mk_alias "a.b" None] Compiler_init)
      as (stores & Hst & Hbuf); [vm_compute; reflexivity|].
    exists stores; split; [vm_compute; reflexivity|].
    split; [exact Hst | exact Hbuf].
  - eexists.
    edestruct (import_layout vm_stack_effect simple_map "<file>" module_table
                             [ast.mk_alias "a.b" (Some "c")] Compiler_init)
      as (stores & Hst & Hbuf); [vm_compute; reflexivity|].
    exists stores; split; [vm_compute; reflexivity|].
    split; [exact Hst | exact Hbuf].
Defined.

Lemma operator_layout_witness :
  (exists c' code_l code_r,
      run_expr (ast.BinOp (int 1) ast.Sub (int 2)) Compiler_init = OK (tt, c') /\
      buf (bc c') = [] ++ code_l ++ code_r ++ [Ins BINARY_SUBTRACT []]) /\
  (exists c' code_e,
      run_expr (ast.UnaryOp ast.USub (load "x")) Compiler_init = OK (tt, c') /\
      buf (bc c') = [] ++ code_e ++ [Ins UNARY_NEGATIVE []]).
Proof.
  destruct (operator_layout (T := table) vm_stack_effect) as [Hbin Hun].
  split.
  - eexists.
    edestruct (Hbin module_table (int 1) ast.Sub (int 2) Compiler_init)
      as (cl & cr & c1 & c2 & _ & _ & Hbuf & _); [vm_compute; reflexivity|].
    exists cl, cr; split; [vm_compute; reflexivity | exact Hbuf].
  - eexists.
    edestruct (Hun module_table ast.USub (load "x") Compiler_init)
      as (ce & c1 & _ & Hbuf & _); [vm_compute; reflexivity|].
    exists ce; split; [vm_compute; reflexivity | exact Hbuf].
Defined.

Lemma simple_statement_layout_witness :
  (exists c' code_v,
      run_stmt (ast.Return (Some (int 1))) Compiler_init = OK (tt, c') /\
      buf (bc c') = [] ++ code_v ++ [Ins RETURN_VALUE []]) /\
  (exists c' code_v,
      run_stmt (ast.Expr (load "x")) Compiler_init = OK (tt, c') /\
      buf (bc c') = [] ++ code_v ++ [Ins POP_TOP []]) /\
  (exists c',
      run_stmt (ast.Return None) Compiler_init = OK (tt, c') /\
      buf (bc c') = [Ins LOAD_CONST_NONE []; Ins RETURN_VALUE []]).
Proof.
  destruct (simple_statement_layout vm_stack_effect simple_map "<file>")
    as (Hbare & Hret & Hexpr & _).
  split; [|split].
  - eexists.
    edestruct (Hret module_table (int 1) Compiler_init)
      as (cv & c1 & _ & Hbuf); [vm_compute; reflexivity|].
    exists cv; split; [vm_compute; reflexivity | exact Hbuf].
  - eexists.
    edestruct (Hexpr module_table (load "x") Compiler_init)
      as (cv & c1 & _ & Hbuf & _); [vm_compute; reflexivity|].
    exists cv; split; [vm_compute; reflexivity | exact Hbuf].
  - eexists; split; [apply (Hbare module_table Compiler_init) | reflexivity].
Defined.

Lemma module_layout_witness :
  visit_Module vm_stack_effect (fun _ => @None table) "<file>"
               (ast.Module [x_is_1]) Compiler_init
  = Err KeyError /\
  (exists c' c1,
      visit_Module vm_stack_effect simple_map "<file>"
                   (ast.Module [ast.Return None]) (in_loop "for")
      = OK (tt, c') /\
      buf (bc c') = buf (bc c1) ++ [Ins LOAD_CONST_NONE []; Ins RETURN_VALUE []] /\
      buf (bc c1) = [Ins LOAD_CONST_NONE []; Ins RETURN_VALUE []]).
Proof.
  split.
  - apply (proj1 (module_layout vm_stack_effect (fun _ => @None table) "<file>"
                                [x_is_1] Compiler_init)).
    reflexivity.
  - eexists.
    edestruct (proj2 (module_layout vm_stack_effect simple_map "<file>"
                                    [ast.Return None] (in_loop "for")))
      as (t & last & c1 & _ & Hbody & Hbuf & _); [vm_compute; reflexivity|].
    exists c1; split; [vm_compute; reflexivity|].
    split; [exact Hbuf|].
    vm_compute in Hbody; inversion Hbody; reflexivity.
Defined.

Lemma stray_break_continue_rejected_witness :
  is_err (run_stmt while_else_break Compiler_init) /\
  is_err (compile (ast.Module [ast.If (load "a") [ast.Continue] []])).
Proof.
  destruct (stray_break_continue_rejected vm_stack_effect simple_map "<file>")
    as [Hstmt Hmod].
  split.
  - apply (Hstmt module_table while_else_break Compiler_init); reflexivity.
  - apply (Hmod [ast.If (load "a") [ast.Continue] []]); reflexivity.
Defined.

Lemma allocated_labels_are_bound_witness :
  (exists c' off,
      run_expr a_and_b Compiler_init = OK (tt, c') /\
      unbound (bc c') = unbound (bc Compiler_init) /\
      nth_error (labels (bc c')) 0 = Some (Some off)) /\
  (exists c' off,
      run_stmt for_i_in_r Compiler_init = OK (tt, c') /\
      unbound (bc c') = unbound (bc Compiler_init) /\
      nth_error (labels (bc c')) 1 = Some (Some off)).
Proof.
  destruct (allocated_labels_are_bound vm_stack_effect simple_map "<file>")
    as [Hexpr Hstmt].
  split.
  - eexists.
    edestruct (Hexpr module_table a_and_b Compiler_init) as [U B];
      [vm_compute; reflexivity|].
    destruct (B 0%nat) as [off Hoff]; [simpl; lia|].
    exists off; split; [vm_compute; reflexivity|].
    split; [exact U | exact Hoff].
  - eexists.
    edestruct (Hstmt module_table for_i_in_r Compiler_init) as [U B];
      [vm_compute; reflexivity|].
    destruct (B 1%nat) as [off Hoff]; [simpl; lia|].
    exists off; split; [vm_compute; reflexivity|].
    split; [exact U | exact Hoff].
Defined.

Lemma module_hands_over_bound_labels_witness :
  exists c,
    visit_Module vm_stack_effect simple_map "<file>"
                 (ast.Module [if_a_b; while_a]) Compiler_init = OK (tt, c) /\
    List.length (labels (bc c)) = 4%nat /\
    unbound (bc c) = O /\
    (exists off, nth_error (labels (bc c)) 3 = Some (Some off)) /\
    (forall site l op,
        List.In (site, l, op) (fixups (bc c)) ->
        nth_error (buf (bc c)) site = Some (Jmp op (Pending l)) /\
        exists off, nth_error (labels (bc c)) l = Some (Some off)).
Proof.
  eexists.
  edestruct (module_hands_over_bound_labels
               vm_stack_effect simple_map "<file>" (ast.Module [if_a_b; while_a]))
    as (U & B & F & _); [vm_compute; reflexivity|].
  split; [vm_compute; reflexivity|].
  split; [reflexivity|].
  split; [exact U|].
  split; [apply B; simpl; lia | exact F].
Defined.

Lemma stack_size_is_a_high_water_mark_witness :
  (exists c',
      run_stmt for_i_in_r Compiler_init = OK (tt, c') /\
      stk_max (bc Compiler_init) <= stk_max (bc c') /\
      stk_ptr (bc c') <= stk_max (bc c')) /\
  (exists co, compile (ast.Module [x_is_1]) = OK co /\ 0 <= mpy_stacksize co) /\
  (exists co c',
      function_codeobj vm_stack_effect simple_map "<file>"
                       (visit_stmt vm_stack_effect simple_map "<file>")
                       def_f_x "f" (params ["x"]) [ast.Return (Some (load "x"))]
                       Compiler_init
      = OK (co, c') /\
      1 <= mpy_stacksize co).
Proof.
  destruct (stack_size_is_a_high_water_mark vm_stack_effect simple_map "<file>")
    as (Hstmt & Hmod & Hfun).
  split; [|split].
  - eexists.
    edestruct (Hstmt module_table for_i_in_r Compiler_init) as [X P];
      [vm_compute; reflexivity|].
    split; [vm_compute; reflexivity|].
    split; [exact X | apply P; simpl; lia].
  - eexists; split; [vm_compute; reflexivity|].
    apply (Hmod (ast.Module [x_is_1])); vm_compute; reflexivity.
  - eexists; eexists.
    edestruct (Hfun def_f_x "f" (params ["x"]) [ast.Return (Some (load "x"))]
                    Compiler_init)
      as (t0 & t & Ht0 & Ht & Hsize); [vm_compute; reflexivity|].
    split; [vm_compute; reflexivity|].
    vm_compute in Ht0; inversion Ht0; subst t0.
    vm_compute in Ht; inversion Ht; subst t.
    exact Hsize.
Defined.
